(** * CoarseChannel: the channel model of the Open Fixture Library

    A shallow embedding of [lib/model/CoarseChannel.js].  The channel object
    is a record holding its key, its JSON definition, its fixture
    back-reference and the private [_cache] of lazily derived properties.
    Every getter of the class is written once, over an abstract monad
    offering the effects the class uses (reading [this], throwing, and the
    "compute once, store, return" idiom of the cache); the monad is then
    instantiated twice:

    - [M], state and exceptions over the channel object: the code as it runs;
    - [P], a reader over the channel's definition: the same code with the
      cache removed, that is, the value a property has by definition.

    The refinement theorem shows that on every channel reachable through
    the public interface, the cached getters return the values of the
    cache-free ones.

    JavaScript numbers are IEEE 754 binary64 numbers: a finite one is the
    rational it stands for, and an arithmetic operator returns the exact
    result rounded to the nearest double, the even one of two that are
    equally near, or an infinity when that is out of range.  Resolutions
    and keys of the value tables are integers, [Z]. *)

From Stdlib Require Import ZArith QArith Qround Qpower String Ascii List Bool Lia.
From Stdlib Require Import SpecFloat.
From stdpp Require Import base option list list_numbers strings gmap.

Local Open Scope string_scope.
Local Open Scope Z_scope.

(** ** JavaScript values *)

(** The exceptions the model distinguishes.  [RangeError] and [TypeError]
    are the JavaScript ones; [ParseError] is what the Entity parser raises
    and [ScaleError] what the DMX value scaler raises when it rejects a
    resolution. *)
Inductive JsError : Type :=
| RangeError
| TypeError
| ParseError
| ScaleError.

Definition Result (A : Type) : Type := (JsError + A)%type.

(** A JavaScript number.  A finite number is the rational it stands for;
    the zero with a negative sign is not told from the other one, which
    no operation the class performs can tell apart either. *)
Inductive Number : Type :=
| Finite (q : Q)
| NaN
| Infinity
| NegInfinity.

Definition Number_of_Z (z : Z) : Number := Finite (inject_Z z).

Coercion Number_of_Z : Z >-> Number.

(** *** Rounding to binary64 *)

(** The power of two [2^e], for any integer [e]. *)
Definition pow2 (e : Z) : Q := (2 ^ e)%Q.

(** For a positive rational, the [e] with [2^e <= q < 2^(e+1)]. *)
Definition Qfloor_log2 (q : Q) : Z :=
  let e := Z.log2 (Qnum q) - Z.log2 (Zpos (Qden q)) in
  if Qle_bool (pow2 e) q then e else e - 1.

(** The nearest integer, the even one of two that are equally near. *)
Definition round_half_even (x : Q) : Z :=
  let f := Qfloor x in
  match (x - inject_Z f ?= 1 # 2)%Q with
  | Lt => f
  | Gt => f + 1
  | Eq => if Z.even f then f else f + 1
  end.

(** The double nearest a positive rational: a multiple of the unit in the
    last place [2^e], where 53 bits cover the number and [e] is not below
    -1074, the exponent of the subnormal numbers; an infinity when the
    multiple reaches [2^1024]. *)
Definition round64_positive (q : Q) : Number :=
  let e := Z.max (Qfloor_log2 q - 52) (-1074) in
  let m := round_half_even (q / pow2 e) in
  let r := (inject_Z m * pow2 e)%Q in
  if Qle_bool (pow2 1024) r then Infinity else Finite (Qred r).

(** [-a] *)
Definition js_neg (a : Number) : Number :=
  match a with
  | Finite q => Finite (- q)
  | NaN => NaN
  | Infinity => NegInfinity
  | NegInfinity => Infinity
  end.

(** The double nearest a rational. *)
Definition round64 (q : Q) : Number :=
  let q := Qred q in
  match (q ?= 0)%Q with
  | Eq => Finite 0
  | Gt => round64_positive q
  | Lt => js_neg (round64_positive (- q))
  end.

(** *** Arithmetic *)

(** The sign of a number: [Gt] positive, [Lt] negative, [Eq] zero or NaN. *)
Definition js_sign (a : Number) : comparison :=
  match a with
  | Finite q => (q ?= 0)%Q
  | Infinity => Gt
  | NegInfinity => Lt
  | NaN => Eq
  end.

Definition sign_mul (a b : comparison) : comparison :=
  match a, b with
  | Eq, _ | _, Eq => Eq
  | Gt, s | s, Gt => s
  | Lt, Lt => Gt
  end.

(** The infinity of a sign; an infinity times zero is NaN. *)
Definition infinity_of_sign (sign : comparison) : Number :=
  match sign with
  | Gt => Infinity
  | Lt => NegInfinity
  | Eq => NaN
  end.

(** [a - b] *)
Definition js_sub (a b : Number) : Number :=
  match a, b with
  | NaN, _ | _, NaN => NaN
  | Finite x, Finite y => round64 (x - y)
  | Infinity, Infinity | NegInfinity, NegInfinity => NaN
  | Infinity, _ | _, NegInfinity => Infinity
  | NegInfinity, _ | _, Infinity => NegInfinity
  end.

(** [a * b] *)
Definition js_mul (a b : Number) : Number :=
  match a, b with
  | NaN, _ | _, NaN => NaN
  | Finite x, Finite y => round64 (x * y)
  | _, _ => infinity_of_sign (sign_mul (js_sign a) (js_sign b))
  end.

(** [a / b]; a zero divisor is taken for the positive zero. *)
Definition js_div (a b : Number) : Number :=
  match a, b with
  | NaN, _ | _, NaN => NaN
  | Finite x, Finite y =>
      if Qeq_bool y 0 then infinity_of_sign (x ?= 0)%Q else round64 (x / y)
  | Finite _, _ => Finite 0
  | _, Finite y =>
      infinity_of_sign (sign_mul (js_sign a) (if Qeq_bool y 0 then Gt else (y ?= 0)%Q))
  | _, _ => NaN
  end.

(** [Math.floor(a)] *)
Definition Math_floor (a : Number) : Number :=
  match a with
  | Finite q => Number_of_Z (Qfloor q)
  | _ => a
  end.

(** A number that is an integer, or no finite number at all. *)
Definition integer_or_not_finite (a : Number) : Prop :=
  (exists z : Z, a = Number_of_Z z) \/ (forall q, a <> Finite q).

(** [Math.pow(base, exponent)] on integers, the base not 0: the power,
    rounded.  The class raises 256 only, whose powers are powers of two:
    they are doubles themselves up to [2^1023], and [Infinity] beyond. *)
Definition Math_pow (base exponent : Z) : Number :=
  round64 (inject_Z base ^ exponent)%Q.

(** Whether two numbers are the same. *)
Definition Number_eqb (a b : Number) : bool :=
  match a, b with
  | Finite x, Finite y => (Qnum x =? Qnum y) && Pos.eqb (Qden x) (Qden y)
  | NaN, NaN | Infinity, Infinity | NegInfinity, NegInfinity => true
  | _, _ => false
  end.

(** *** The same in the Standard Library's specification of floats *)

(** A number as a binary64 float of [SpecFloat], and back. *)
Definition spec_of_Z (z : Z) : spec_float := binary_normalize 53 1024 z 0 false.

Definition Number_of_spec (f : spec_float) : Number :=
  match f with
  | S754_zero _ => Finite 0
  | S754_infinity false => Infinity
  | S754_infinity true => NegInfinity
  | S754_nan => NaN
  | S754_finite sign m e =>
      Finite (Qred ((if sign then -1 else 1) * inject_Z (Zpos m) * pow2 e))
  end.

(** *** Comparisons and indices *)

(** [a > b] *)
Definition js_gt (a b : Number) : bool :=
  match a, b with
  | NaN, _ | _, NaN => false
  | Infinity, Infinity => false
  | Infinity, _ => true
  | _, Infinity => false
  | NegInfinity, _ => false
  | Finite _, NegInfinity => true
  | Finite x, Finite y => negb (Qle_bool x y)
  end.

(** [a < b] *)
Definition js_lt (a b : Number) : bool := js_gt b a.

(** Rounding towards zero, the integer part the remainder operator uses. *)
Definition Qtrunc (q : Q) : Z := Z.quot (Qnum q) (Zpos (Qden q)).

(** [a % 1 !== 0]: the remainder of a finite number is the number minus
    its integer part; the remainder of NaN or of an infinity is NaN, which
    differs from 0. *)
Definition js_mod1_nonzero (a : Number) : bool :=
  match a with
  | Finite q => negb (Qeq_bool (q - inject_Z (Qtrunc q)) 0)
  | _ => true
  end.

(** [object[n]] for an object whose keys are integers: the property named
    by the number, [undefined] when there is none. *)
Definition js_index {A : Type} (object : gmap Z A) (n : Number) : option A :=
  match n with
  | Finite q => if Qeq_bool (inject_Z (Qfloor q)) q then object !! Qfloor q else None
  | _ => None
  end.

(** The JSON values a [defaultValue] or [highlightValue] field holds: an
    integer, as [Number.isInteger] finds it, or a string. *)
Inductive JsonValue : Type :=
| JInt (z : Z)
| JString (s : string).

(** [value || 0] on an optional field. *)
Definition js_or_zero (value : option JsonValue) : JsonValue :=
  match value with
  | None => JInt 0
  | Some (JInt 0) => JInt 0
  | Some (JString EmptyString) => JInt 0
  | Some v => v
  end.

(** ** The collaborators outside the class *)

(** The value with [count] zero low-order bytes appended, [value *
    256^count] as the specification has it, and the value without its
    [count] low-order bytes, [floor(value / 256^count)].  The
    specification speaks of non-negative integers; the formulas are taken
    as they stand on other finite numbers, and a value that is no finite
    number is left as it is. *)
Definition appendBytes (value : Number) (count : Z) : Number :=
  match value with
  | Finite q => Finite (q * inject_Z (256 ^ count))
  | _ => value
  end.

Definition truncateBytes (value : Number) (count : Z) : Number :=
  match value with
  | Finite q => Number_of_Z (Qfloor (q / inject_Z (256 ^ count)))
  | _ => value
  end.

(** Modelled from the spec: [scaleDmxValue] of [lib/scale-dmx-values.js],
    which is not part of the sources at hand.  Scaling up appends zero
    low-order bytes, scaling down truncates low-order bytes, and
    resolutions that are not positive are rejected. *)
Definition scaleDmxValue (rawValue : Number) (fromResolution toResolution : Z)
  : Result Number :=
  if (fromResolution <=? 0) || (toResolution <=? 0) then inl ScaleError
  else if fromResolution <=? toResolution
       then inr (appendBytes rawValue (toResolution - fromResolution))
       else inr (truncateBytes rawValue (fromResolution - toResolution)).

(** An Entity: a magnitude, which is a JavaScript number, and its unit. *)
Record Entity : Type := { number : Number; unitString : string }.

Module EntityParser.

(** What is written in an entity string: the decimal numeral, as the
    rational it denotes, and the unit after it. *)
Record Numeral : Type := { magnitude : Q; suffix : string }.

Definition digit (a : ascii) : option Z :=
  let n := Z.of_nat (nat_of_ascii a) in
  if (48 <=? n) && (n <=? 57) then Some (n - 48) else None.

(** Reads the longest run of decimal digits: its value, its length and
    what follows it. *)
Fixpoint digits (s : string) (value : Z) (count : nat) : Z * nat * string :=
  match s with
  | String a rest =>
      match digit a with
      | Some d => digits rest (10 * value + d) (S count)
      | None => (value, count, s)
      end
  | EmptyString => (value, count, s)
  end.

Definition units : list string := ["%"; "s"; "ms"; "deg"; "Hz"; EmptyString].

Definition unsigned (s : string) : option Numeral :=
  let '(int, n, rest) := digits s 0 0%nat in
  match n with
  | O => None
  | _ =>
      let '(q, rest') :=
        match rest with
        | String "." after =>
            let '(frac, k, rest') := digits after 0 0%nat in
            (inject_Z int + inject_Z frac / inject_Z (10 ^ Z.of_nat k), rest')%Q
        | _ => (inject_Z int, rest)
        end in
      if existsb (String.eqb rest') units
      then Some {| magnitude := q; suffix := rest' |}
      else None
  end.

Definition parse (s : string) : option Numeral :=
  match s with
  | String "-" rest =>
      match unsigned rest with
      | Some e => Some {| magnitude := (- magnitude e)%Q; suffix := suffix e |}
      | None => None
      end
  | _ => unsigned s
  end.

End EntityParser.

(** Modelled from the spec: [Entity.createFromEntityString] of
    [lib/model/Entity.js], which is not part of the sources at hand.  It
    accepts a string of the form <number><unit>, the number a decimal
    numeral and the unit one of the enumerated ones or none, and fails
    with a ParseError on anything else.  The keywords, whose enumeration
    the specification leaves to the glossary, are not among the strings
    accepted here.  The number of the entity is the double nearest the
    numeral, as a numeral read into a JavaScript number is. *)
Definition createFromEntityString (entityString : string) : Result Entity :=
  match EntityParser.parse entityString with
  | Some e =>
      inr {| number := round64 (EntityParser.magnitude e);
             unitString := EntityParser.suffix e |}
  | None => inl ParseError
  end.

(** A wheel of the fixture, as the classifier sees it. *)
Record Wheel : Type := { wheel_type : string }.

(** The types the channel refers to and does not define: the fixture
    (only held as a back-reference), the fields of a capability's JSON
    record other than its DMX range, and the objects of the classes
    [Capability], [FineChannel] and [SwitchingChannel]. *)
Class Types : Type := {
  Fixture : Type;
  CapabilityFields : Type;
  Capability : Type;
  FineChannel : Type;
  SwitchingChannel : Type;
}.

(** ** The data of a channel *)

Section Data.
Context {T : Types}.

(** One capability record of the JSON. *)
Record CapabilityJson : Type := {
  dmxRange : option (Number * Number);
  fields : CapabilityFields;
}.

(** [Object.assign({ dmxRange: range }, capability)]: the record's own
    range wins over the given one. *)
Definition Object_assign_dmxRange (range : Number * Number) (capability : CapabilityJson)
  : CapabilityJson :=
  {| dmxRange := Some (default range (dmxRange capability));
     fields := fields capability |}.

(** The values of the JSON field [dmxValueResolution]. *)
Inductive ResolutionString : Type :=
| res_8bit
| res_16bit
| res_24bit.

(** The channel data from the fixture's JSON; [None] is an absent field. *)
Record JsonObject : Type := {
  j_name : option string;
  j_fineChannelAliases : option (list string);
  j_dmxValueResolution : option ResolutionString;
  j_defaultValue : option JsonValue;
  j_highlightValue : option JsonValue;
  j_constant : option bool;
  j_precedence : option string;
  j_capability : option CapabilityJson;
  j_capabilities : option (list CapabilityJson);
}.

(** What a channel is defined by, and what the objects it creates get to
    see of it when it passes itself to their constructors. *)
Record ChannelDef : Type := {
  def_key : string;
  def_jsonObject : JsonObject;
  def_fixture : Fixture;
}.

(** The object [_cache]: a slot is [None] until the property is in it. *)
Record Cache : Type := {
  c_type : option string;
  c_color : option (option string);
  c_fineChannels : option (list FineChannel);
  c_dmxValueResolution : option Z;
  c_defaultValuePerResolution : option (gmap Z Number);
  c_highlightValuePerResolution : option (gmap Z Number);
  c_isInverted : option bool;
  c_canCrossfade : option bool;
  c_switchingChannelAliases : option (list string);
  c_switchingChannels : option (list SwitchingChannel);
  c_switchToChannelKeys : option (list string);
  c_capabilities : option (list Capability);
  c_isHelpWanted : option bool;
}.

(** [{}] *)
Definition empty_cache : Cache :=
  {| c_type := None; c_color := None; c_fineChannels := None;
     c_dmxValueResolution := None; c_defaultValuePerResolution := None;
     c_highlightValuePerResolution := None; c_isInverted := None;
     c_canCrossfade := None; c_switchingChannelAliases := None;
     c_switchingChannels := None; c_switchToChannelKeys := None;
     c_capabilities := None; c_isHelpWanted := None |}.

(** The names of the cache's properties, indexed by what they hold. *)
Inductive Slot : Type -> Type :=
| slot_type : Slot string
| slot_color : Slot (option string)
| slot_fineChannels : Slot (list FineChannel)
| slot_dmxValueResolution : Slot Z
| slot_defaultValuePerResolution : Slot (gmap Z Number)
| slot_highlightValuePerResolution : Slot (gmap Z Number)
| slot_isInverted : Slot bool
| slot_canCrossfade : Slot bool
| slot_switchingChannelAliases : Slot (list string)
| slot_switchingChannels : Slot (list SwitchingChannel)
| slot_switchToChannelKeys : Slot (list string)
| slot_capabilities : Slot (list Capability)
| slot_isHelpWanted : Slot bool.

(** [cache[slot]], with [None] for a property that is not in the cache *)
Definition slot_get {A : Type} (s : Slot A) : Cache -> option A :=
  match s in Slot A return Cache -> option A with
  | slot_type => c_type
  | slot_color => c_color
  | slot_fineChannels => c_fineChannels
  | slot_dmxValueResolution => c_dmxValueResolution
  | slot_defaultValuePerResolution => c_defaultValuePerResolution
  | slot_highlightValuePerResolution => c_highlightValuePerResolution
  | slot_isInverted => c_isInverted
  | slot_canCrossfade => c_canCrossfade
  | slot_switchingChannelAliases => c_switchingChannelAliases
  | slot_switchingChannels => c_switchingChannels
  | slot_switchToChannelKeys => c_switchToChannelKeys
  | slot_capabilities => c_capabilities
  | slot_isHelpWanted => c_isHelpWanted
  end.

(** [cache[slot] = v] *)
Definition slot_set {A : Type} (s : Slot A) : A -> Cache -> Cache :=
  match s in Slot A return A -> Cache -> Cache with
  | slot_type => fun v c =>
      {| c_type := Some v; c_color := c_color c; c_fineChannels := c_fineChannels c;
         c_dmxValueResolution := c_dmxValueResolution c;
         c_defaultValuePerResolution := c_defaultValuePerResolution c;
         c_highlightValuePerResolution := c_highlightValuePerResolution c;
         c_isInverted := c_isInverted c; c_canCrossfade := c_canCrossfade c;
         c_switchingChannelAliases := c_switchingChannelAliases c;
         c_switchingChannels := c_switchingChannels c;
         c_switchToChannelKeys := c_switchToChannelKeys c;
         c_capabilities := c_capabilities c; c_isHelpWanted := c_isHelpWanted c |}
  | slot_color => fun v c =>
      {| c_type := c_type c; c_color := Some v; c_fineChannels := c_fineChannels c;
         c_dmxValueResolution := c_dmxValueResolution c;
         c_defaultValuePerResolution := c_defaultValuePerResolution c;
         c_highlightValuePerResolution := c_highlightValuePerResolution c;
         c_isInverted := c_isInverted c; c_canCrossfade := c_canCrossfade c;
         c_switchingChannelAliases := c_switchingChannelAliases c;
         c_switchingChannels := c_switchingChannels c;
         c_switchToChannelKeys := c_switchToChannelKeys c;
         c_capabilities := c_capabilities c; c_isHelpWanted := c_isHelpWanted c |}
  | slot_fineChannels => fun v c =>
      {| c_type := c_type c; c_color := c_color c; c_fineChannels := Some v;
         c_dmxValueResolution := c_dmxValueResolution c;
         c_defaultValuePerResolution := c_defaultValuePerResolution c;
         c_highlightValuePerResolution := c_highlightValuePerResolution c;
         c_isInverted := c_isInverted c; c_canCrossfade := c_canCrossfade c;
         c_switchingChannelAliases := c_switchingChannelAliases c;
         c_switchingChannels := c_switchingChannels c;
         c_switchToChannelKeys := c_switchToChannelKeys c;
         c_capabilities := c_capabilities c; c_isHelpWanted := c_isHelpWanted c |}
  | slot_dmxValueResolution => fun v c =>
      {| c_type := c_type c; c_color := c_color c; c_fineChannels := c_fineChannels c;
         c_dmxValueResolution := Some v;
         c_defaultValuePerResolution := c_defaultValuePerResolution c;
         c_highlightValuePerResolution := c_highlightValuePerResolution c;
         c_isInverted := c_isInverted c; c_canCrossfade := c_canCrossfade c;
         c_switchingChannelAliases := c_switchingChannelAliases c;
         c_switchingChannels := c_switchingChannels c;
         c_switchToChannelKeys := c_switchToChannelKeys c;
         c_capabilities := c_capabilities c; c_isHelpWanted := c_isHelpWanted c |}
  | slot_defaultValuePerResolution => fun v c =>
      {| c_type := c_type c; c_color := c_color c; c_fineChannels := c_fineChannels c;
         c_dmxValueResolution := c_dmxValueResolution c;
         c_defaultValuePerResolution := Some v;
         c_highlightValuePerResolution := c_highlightValuePerResolution c;
         c_isInverted := c_isInverted c; c_canCrossfade := c_canCrossfade c;
         c_switchingChannelAliases := c_switchingChannelAliases c;
         c_switchingChannels := c_switchingChannels c;
         c_switchToChannelKeys := c_switchToChannelKeys c;
         c_capabilities := c_capabilities c; c_isHelpWanted := c_isHelpWanted c |}
  | slot_highlightValuePerResolution => fun v c =>
      {| c_type := c_type c; c_color := c_color c; c_fineChannels := c_fineChannels c;
         c_dmxValueResolution := c_dmxValueResolution c;
         c_defaultValuePerResolution := c_defaultValuePerResolution c;
         c_highlightValuePerResolution := Some v;
         c_isInverted := c_isInverted c; c_canCrossfade := c_canCrossfade c;
         c_switchingChannelAliases := c_switchingChannelAliases c;
         c_switchingChannels := c_switchingChannels c;
         c_switchToChannelKeys := c_switchToChannelKeys c;
         c_capabilities := c_capabilities c; c_isHelpWanted := c_isHelpWanted c |}
  | slot_isInverted => fun v c =>
      {| c_type := c_type c; c_color := c_color c; c_fineChannels := c_fineChannels c;
         c_dmxValueResolution := c_dmxValueResolution c;
         c_defaultValuePerResolution := c_defaultValuePerResolution c;
         c_highlightValuePerResolution := c_highlightValuePerResolution c;
         c_isInverted := Some v; c_canCrossfade := c_canCrossfade c;
         c_switchingChannelAliases := c_switchingChannelAliases c;
         c_switchingChannels := c_switchingChannels c;
         c_switchToChannelKeys := c_switchToChannelKeys c;
         c_capabilities := c_capabilities c; c_isHelpWanted := c_isHelpWanted c |}
  | slot_canCrossfade => fun v c =>
      {| c_type := c_type c; c_color := c_color c; c_fineChannels := c_fineChannels c;
         c_dmxValueResolution := c_dmxValueResolution c;
         c_defaultValuePerResolution := c_defaultValuePerResolution c;
         c_highlightValuePerResolution := c_highlightValuePerResolution c;
         c_isInverted := c_isInverted c; c_canCrossfade := Some v;
         c_switchingChannelAliases := c_switchingChannelAliases c;
         c_switchingChannels := c_switchingChannels c;
         c_switchToChannelKeys := c_switchToChannelKeys c;
         c_capabilities := c_capabilities c; c_isHelpWanted := c_isHelpWanted c |}
  | slot_switchingChannelAliases => fun v c =>
      {| c_type := c_type c; c_color := c_color c; c_fineChannels := c_fineChannels c;
         c_dmxValueResolution := c_dmxValueResolution c;
         c_defaultValuePerResolution := c_defaultValuePerResolution c;
         c_highlightValuePerResolution := c_highlightValuePerResolution c;
         c_isInverted := c_isInverted c; c_canCrossfade := c_canCrossfade c;
         c_switchingChannelAliases := Some v;
         c_switchingChannels := c_switchingChannels c;
         c_switchToChannelKeys := c_switchToChannelKeys c;
         c_capabilities := c_capabilities c; c_isHelpWanted := c_isHelpWanted c |}
  | slot_switchingChannels => fun v c =>
      {| c_type := c_type c; c_color := c_color c; c_fineChannels := c_fineChannels c;
         c_dmxValueResolution := c_dmxValueResolution c;
         c_defaultValuePerResolution := c_defaultValuePerResolution c;
         c_highlightValuePerResolution := c_highlightValuePerResolution c;
         c_isInverted := c_isInverted c; c_canCrossfade := c_canCrossfade c;
         c_switchingChannelAliases := c_switchingChannelAliases c;
         c_switchingChannels := Some v;
         c_switchToChannelKeys := c_switchToChannelKeys c;
         c_capabilities := c_capabilities c; c_isHelpWanted := c_isHelpWanted c |}
  | slot_switchToChannelKeys => fun v c =>
      {| c_type := c_type c; c_color := c_color c; c_fineChannels := c_fineChannels c;
         c_dmxValueResolution := c_dmxValueResolution c;
         c_defaultValuePerResolution := c_defaultValuePerResolution c;
         c_highlightValuePerResolution := c_highlightValuePerResolution c;
         c_isInverted := c_isInverted c; c_canCrossfade := c_canCrossfade c;
         c_switchingChannelAliases := c_switchingChannelAliases c;
         c_switchingChannels := c_switchingChannels c;
         c_switchToChannelKeys := Some v;
         c_capabilities := c_capabilities c; c_isHelpWanted := c_isHelpWanted c |}
  | slot_capabilities => fun v c =>
      {| c_type := c_type c; c_color := c_color c; c_fineChannels := c_fineChannels c;
         c_dmxValueResolution := c_dmxValueResolution c;
         c_defaultValuePerResolution := c_defaultValuePerResolution c;
         c_highlightValuePerResolution := c_highlightValuePerResolution c;
         c_isInverted := c_isInverted c; c_canCrossfade := c_canCrossfade c;
         c_switchingChannelAliases := c_switchingChannelAliases c;
         c_switchingChannels := c_switchingChannels c;
         c_switchToChannelKeys := c_switchToChannelKeys c;
         c_capabilities := Some v; c_isHelpWanted := c_isHelpWanted c |}
  | slot_isHelpWanted => fun v c =>
      {| c_type := c_type c; c_color := c_color c; c_fineChannels := c_fineChannels c;
         c_dmxValueResolution := c_dmxValueResolution c;
         c_defaultValuePerResolution := c_defaultValuePerResolution c;
         c_highlightValuePerResolution := c_highlightValuePerResolution c;
         c_isInverted := c_isInverted c; c_canCrossfade := c_canCrossfade c;
         c_switchingChannelAliases := c_switchingChannelAliases c;
         c_switchingChannels := c_switchingChannels c;
         c_switchToChannelKeys := c_switchToChannelKeys c;
         c_capabilities := c_capabilities c; c_isHelpWanted := Some v |}
  end.

(** The part of the object the base class owns. *)
Record AbstractChannel : Type := {
  _key : string;
}.

(** Modelled from the spec: the constructor of [AbstractChannel]
    ([lib/model/AbstractChannel.js] is not part of the sources at hand),
    which stores the key, the channel's identity within its fixture. *)
Definition new_AbstractChannel (key : string) : AbstractChannel :=
  {| _key := key |}.

(** The channel object. *)
Record CoarseChannel : Type := {
  super : AbstractChannel;
  _jsonObject : JsonObject;
  _cache : Cache;
  _fixture : Fixture;
}.

(** The getter [key], inherited. *)
Definition key (ch : CoarseChannel) : string := _key (super ch).

(** What the channel is defined by, without its cache. *)
Definition definition (ch : CoarseChannel) : ChannelDef :=
  {| def_key := key ch; def_jsonObject := _jsonObject ch; def_fixture := _fixture ch |}.

(** [this._cache = cache] *)
Definition with_cache (cache : Cache) (ch : CoarseChannel) : CoarseChannel :=
  {| super := super ch; _jsonObject := _jsonObject ch; _cache := cache;
     _fixture := _fixture ch |}.

(** The setter of [jsonObject]: it stores the new definition and an empty
    cache. *)
Definition set_jsonObject (jsonObject : JsonObject) (ch : CoarseChannel) : CoarseChannel :=
  {| super := super ch; _jsonObject := jsonObject; _cache := empty_cache;
     _fixture := _fixture ch |}.

(** The constructor: [super(key)], then the setter of [jsonObject], then
    the fixture. *)
Definition new_CoarseChannel (key : string) (jsonObject : JsonObject) (fixture : Fixture)
  : CoarseChannel :=
  {| super := new_AbstractChannel key; _jsonObject := jsonObject;
     _cache := empty_cache; _fixture := fixture |}.

End Data.

(** What the channel uses of the classes it does not define: the
    properties of a capability it reads, the constructors it calls with
    itself as the owner, and the target keys of a switching channel. *)
Class Collaborators {T : Types} : Type := {
  cap_type : Capability -> string;
  cap_wheels : Capability -> list (option Wheel);
  cap_shutterEffect : Capability -> option string;
  cap_isStep : Capability -> bool;
  cap_isInverted : Capability -> bool;
  cap_color : Capability -> option string;
  cap_switchChannels : Capability -> list (string * string);
  cap_helpWanted : Capability -> option string;
  canCrossfadeTo : Capability -> Capability -> bool;
  new_Capability : CapabilityJson -> Z -> ChannelDef -> Capability;
  new_FineChannel : string -> ChannelDef -> FineChannel;
  new_SwitchingChannel : string -> ChannelDef -> SwitchingChannel;
  sc_switchToChannelKeys : SwitchingChannel -> list string;
}.

(** ** The effects of the class *)

(** What a method of the class can do: return, run one computation after
    another, throw, read what [this] is defined by, and compute a cached
    property ("if the property is not in the cache, compute and store it;
    return what the cache holds"). *)
Class ChannelMonad {T : Types} (m : Type -> Type) : Type := {
  ret : forall {A : Type}, A -> m A;
  bind : forall {A B : Type}, m A -> (A -> m B) -> m B;
  throw : forall {A : Type}, JsError -> m A;
  this : m ChannelDef;
  lazily : forall {A : Type}, Slot A -> m A -> m A;
}.


(** ** The properties that read the definition only *)

Section Definitional.
Context {T : Types}.

Definition RESOLUTION_8BIT : Z := 1.
Definition RESOLUTION_16BIT : Z := 2.
Definition RESOLUTION_24BIT : Z := 3.
Definition RESOLUTION_32BIT : Z := 4.

(** [this._jsonObject.name || this.key] *)
Definition name (d : ChannelDef) : string :=
  match j_name (def_jsonObject d) with
  | None | Some EmptyString => def_key d
  | Some n => n
  end.

(** [this._jsonObject.fineChannelAliases || []] *)
Definition fineChannelAliases (d : ChannelDef) : list string :=
  match j_fineChannelAliases (def_jsonObject d) with
  | Some aliases => aliases
  | None => []
  end.

Definition maxResolution (d : ChannelDef) : Z :=
  1 + Z.of_nat (length (fineChannelAliases d)).

(** [Math.pow(256, this.maxResolution) - 1] *)
Definition maxDmxBound (d : ChannelDef) : Number :=
  js_sub (Math_pow 256 (maxResolution d)) 1.

Definition hasDefaultValue (d : ChannelDef) : bool :=
  bool_decide (is_Some (j_defaultValue (def_jsonObject d))).

Definition hasHighlightValue (d : ChannelDef) : bool :=
  bool_decide (is_Some (j_highlightValue (def_jsonObject d))).

(** [`constant` in this._jsonObject && this._jsonObject.constant] *)
Definition isConstant (d : ChannelDef) : bool :=
  match j_constant (def_jsonObject d) with
  | Some constant => constant
  | None => false
  end.

Definition precedence (d : ChannelDef) : string :=
  match j_precedence (def_jsonObject d) with
  | Some p => p
  | None => "LTP"
  end.

(** The table [resolutionStringToResolution]. *)
Definition resolutionStringToResolution (s : ResolutionString) : Z :=
  match s with
  | res_8bit => RESOLUTION_8BIT
  | res_16bit => RESOLUTION_16BIT
  | res_24bit => RESOLUTION_24BIT
  end.

(** The resolution the values of the JSON are declared in. *)
Definition declaredResolution (d : ChannelDef) : Z :=
  match j_dmxValueResolution (def_jsonObject d) with
  | Some s => resolutionStringToResolution s
  | None => maxResolution d
  end.

(** [Math.pow(256, resolution) - 1] *)
Definition maxDmxBoundInResolution (resolution : Z) : Number :=
  js_sub (Math_pow 256 resolution) 1.

(** [Math.floor(percentage * (Math.pow(256, resolution) - 1))], with
    [percentage = entity.number / 100] *)
Definition percentOfMax (entity : Entity) (resolution : Z) : Number :=
  let percentage := js_div (number entity) 100 in
  Math_floor (js_mul percentage (maxDmxBoundInResolution resolution)).

End Definitional.

(** ** The classifier's table *)

Section Classifier.
Context {T : Types} {X : Collaborators}.

(** [Array.prototype.includes] on capability type tags. *)
Definition includes (tags : list string) (tag : string) : bool :=
  existsb (String.eqb tag) tags.

(** The predicates of the table, on the list [channel.capabilities]. *)
Definition multiColorPredicate (caps : list Capability) : bool :=
  forallb (fun cap =>
             negb (String.eqb (cap_type cap) "WheelSlot")
             || match cap_wheels cap with
                | Some wheel :: _ => String.eqb (wheel_type wheel) "Color"
                | _ => false
                end) caps.

Definition goboPredicate (caps : list Capability) : bool :=
  forallb (fun cap =>
             forallb (fun wheel =>
                        match wheel with
                        | Some w => String.eqb (wheel_type w) "Gobo"
                        | None => false
                        end) (cap_wheels cap)) caps.

Definition strobePredicate (caps : list Capability) : bool :=
  existsb (fun cap =>
             String.eqb (cap_type cap) "ShutterStrobe"
             && negb match cap_shutterEffect cap with
                     | Some effect => includes ["Open"; "Closed"] effect
                     | None => false
                     end) caps.

(** An object of constraints: the required tags and, when the property is
    there, the predicate.  The predicates of the table are handed the
    channel and read its [capabilities] and nothing else: the table holds
    what they compute from that list, and calling one reads the list. *)
Record Constraints : Type := {
  required : list string;
  predicate : option (list Capability -> bool);
}.

(** A value of the table: an array of tags or an object of constraints. *)
Inductive TableValue : Type :=
| TagArray (tags : list string)
| ConstraintsObject (constraints : Constraints).

Definition channelTypeConstraints : list (string * TableValue) :=
  [ ("Single Color", TagArray ["ColorIntensity"]);
    ("Multi-Color", ConstraintsObject
       {| required := ["ColorPreset"; "WheelSlot"];
          predicate := Some multiColorPredicate |});
    ("Pan", TagArray ["Pan"; "PanContinuous"]);
    ("Tilt", TagArray ["Tilt"; "TiltContinuous"]);
    ("Focus", TagArray ["Focus"]);
    ("Zoom", TagArray ["Zoom"]);
    ("Iris", TagArray ["Iris"; "IrisEffect"]);
    ("Gobo", ConstraintsObject
       {| required := ["WheelSlot"; "WheelShake"];
          predicate := Some goboPredicate |});
    ("Prism", TagArray ["Prism"]);
    ("Color Temperature", TagArray ["ColorTemperature"]);
    ("Effect", TagArray ["Effect"; "EffectParameter"; "Frost"; "FrostEffect";
                         "SoundSensitivity"; "WheelSlot"]);
    ("Strobe", ConstraintsObject
       {| required := ["ShutterStrobe"];
          predicate := Some strobePredicate |});
    ("Shutter", TagArray ["ShutterStrobe"; "BladeInsertion"; "BladeRotation";
                          "BladeSystemRotation"]);
    ("Fog", TagArray ["Fog"; "FogOutput"; "FogType"]);
    ("Speed", TagArray ["StrobeSpeed"; "StrobeDuration"; "PanTiltSpeed"; "EffectSpeed";
                        "EffectDuration"; "BeamAngle"; "BeamPosition"; "PrismRotation";
                        "Rotation"; "Speed"; "Time"; "WheelSlotRotation"; "WheelRotation";
                        "WheelShake"]);
    ("Maintenance", TagArray ["Maintenance"]);
    ("Intensity", TagArray ["Intensity"; "Generic"]);
    ("NoFunction", TagArray ["NoFunction"]) ].

(** [Array.isArray(constraints) ? { required: constraints } : constraints] *)
Definition normalize (value : TableValue) : Constraints :=
  match value with
  | TagArray tags => {| required := tags; predicate := None |}
  | ConstraintsObject constraints => constraints
  end.

(** [found || `Unknown`] *)
Definition or_Unknown (found : option (string * TableValue)) : string :=
  match found with
  | None | Some (EmptyString, _) => "Unknown"
  | Some (type, _) => type
  end.

(** The callback of [every] in [canCrossfade], which looks at the index
    and at the array; an index past the end is not reached. *)
Definition crossfadesToNext (arr : list Capability) (index : nat) (cap : Capability) : bool :=
  (index + 1 =? length arr)%nat
  || match arr !! (index + 1)%nat with
     | Some next => canCrossfadeTo cap next
     | None => false
     end.

End Classifier.

(** ** The getters and methods *)

Section Getters.
Context {T : Types} {X : Collaborators}.
Context {m : Type -> Type} {CM : ChannelMonad m}.

Notation "x <- c1 ;; c2" := (@bind T m CM _ _ c1 (fun x => c2))
  (at level 100, c1 at next level, right associativity).

(** [array.map] with a callback that has effects. *)
Fixpoint mapM {A B : Type} (f : A -> m B) (l : list A) : m (list B) :=
  match l with
  | [] => ret []
  | x :: rest => y <- f x ;; ys <- mapM f rest ;; ret (y :: ys)
  end.

(** [array.find] with a callback that has effects. *)
Fixpoint findM {A : Type} (f : A -> m bool) (l : list A) : m (option A) :=
  match l with
  | [] => ret None
  | x :: rest => found <- f x ;; if found then ret (Some x) else findM f rest
  end.

Definition ensureProperResolution (uncheckedResolution : Number) : m unit :=
  d <- this ;;
  if js_gt uncheckedResolution (Number_of_Z (maxResolution d))
     || js_lt uncheckedResolution (Number_of_Z RESOLUTION_8BIT)
     || js_mod1_nonzero uncheckedResolution
  then throw RangeError
  else ret tt.

Definition dmxValueResolution : m Z :=
  lazily slot_dmxValueResolution (
    d <- this ;;
    match j_dmxValueResolution (def_jsonObject d) with
    | Some s => ret (resolutionStringToResolution s)
    | None => ret (maxResolution d)
    end).

Definition capabilities : m (list Capability) :=
  lazily slot_capabilities (
    d <- this ;;
    match j_capability (def_jsonObject d) with
    | Some capability =>
        resolution <- dmxValueResolution ;;
        let capabilityData :=
          Object_assign_dmxRange
            (Number_of_Z 0, js_sub (Math_pow 256 resolution) 1) capability in
        resolution' <- dmxValueResolution ;;
        ret [new_Capability capabilityData resolution' d]
    | None =>
        match j_capabilities (def_jsonObject d) with
        | Some records =>
            mapM (fun cap =>
                    resolution <- dmxValueResolution ;;
                    ret (new_Capability cap resolution d)) records
        | None => throw TypeError
        end
    end).

(** The callback of [types.find]; the entries of the table stand for its
    keys, in the order of [Object.keys], each with its value. *)
Definition typeMatches (entry : string * TableValue) : m bool :=
  let constraints := normalize (snd entry) in
  caps <- capabilities ;;
  let requiredCapTypeUsed :=
    existsb (fun cap => includes (required constraints) (cap_type cap)) caps in
  predicateFulfilled <-
    match predicate constraints with
    | None => ret true
    | Some p => channelCaps <- capabilities ;; ret (p channelCaps)
    end ;;
  ret (requiredCapTypeUsed && predicateFulfilled).

Definition type : m string :=
  lazily slot_type (
    found <- findM typeMatches channelTypeConstraints ;;
    ret (or_Unknown found)).

Definition color : m (option string) :=
  lazily slot_color (
    caps <- capabilities ;;
    let colorCap := List.find (fun cap => String.eqb (cap_type cap) "ColorIntensity") caps in
    ret match colorCap with
        | Some cap => cap_color cap
        | None => None
        end).

Definition fineChannels : m (list FineChannel) :=
  lazily slot_fineChannels (
    d <- this ;;
    ret (List.map (fun alias => new_FineChannel alias d) (fineChannelAliases d))).

Definition isInverted : m bool :=
  lazily slot_isInverted (
    caps <- capabilities ;;
    let proportionalCaps := List.filter (fun cap => negb (cap_isStep cap)) caps in
    ret ((0 <? length proportionalCaps)%nat && forallb cap_isInverted proportionalCaps)).

Definition canCrossfade : m bool :=
  lazily slot_canCrossfade (
    caps <- capabilities ;;
    if (length caps =? 1)%nat then
      d <- this ;;
      if isConstant d then ret false
      else t <- type ;; ret (negb (String.eqb t "NoFunction"))
    else
      caps1 <- capabilities ;;
      if forallb (fun '(index, cap) => crossfadesToNext caps1 index cap)
                 (imap pair caps1)
      then caps2 <- capabilities ;; ret (existsb (fun cap => negb (cap_isStep cap)) caps2)
      else ret false).

Definition switchingChannelAliases : m (list string) :=
  lazily slot_switchingChannelAliases (
    caps <- capabilities ;;
    match caps with
    | first :: _ => ret (List.map fst (cap_switchChannels first))
    | [] => throw TypeError
    end).

Definition switchingChannels : m (list SwitchingChannel) :=
  lazily slot_switchingChannels (
    aliases <- switchingChannelAliases ;;
    d <- this ;;
    ret (List.map (fun alias => new_SwitchingChannel alias d) aliases)).

Definition switchToChannelKeys : m (list string) :=
  lazily slot_switchToChannelKeys (
    channels <- switchingChannels ;;
    ret (List.flat_map sc_switchToChannelKeys channels)).

Definition isHelpWanted : m bool :=
  lazily slot_isHelpWanted (
    caps <- capabilities ;;
    ret (existsb (fun cap => bool_decide (is_Some (cap_helpWanted cap))) caps)).

(** The outcome of a helper outside the class, inside a method. *)
Definition liftResult {A : Type} (r : Result A) : m A :=
  match r with
  | inl e => throw e
  | inr a => ret a
  end.

(** The statements of [getDefaultValueWithResolution] that compute
    [rawDefaultValue]. *)
Definition rawDefaultValue : m Number :=
  d <- this ;;
  match js_or_zero (j_defaultValue (def_jsonObject d)) with
  | JInt z => ret (Number_of_Z z)
  | JString s =>
      entity <- liftResult (createFromEntityString s) ;;
      let percentage := js_div (number entity) 100 in
      resolution <- dmxValueResolution ;;
      ret (Math_floor (js_mul percentage (js_sub (Math_pow 256 resolution) 1)))
  end.

(** The statements of [getHighlightValueWithResolution] that compute
    [rawHighlightValue]. *)
Definition rawHighlightValue : m Number :=
  d <- this ;;
  match j_highlightValue (def_jsonObject d) with
  | Some (JInt z) => ret (Number_of_Z z)
  | Some (JString s) =>
      resolution <- dmxValueResolution ;;
      let maxDmxBoundInResolution := js_sub (Math_pow 256 resolution) 1 in
      entity <- liftResult (createFromEntityString s) ;;
      let percentage := js_div (number entity) 100 in
      ret (Math_floor (js_mul percentage maxDmxBoundInResolution))
  | None =>
      resolution <- dmxValueResolution ;;
      let maxDmxBoundInResolution := js_sub (Math_pow 256 resolution) 1 in
      ret maxDmxBoundInResolution
  end.

End Getters.

(** ** The class as it runs: state and exceptions *)

Section Running.
Context {T : Types} {X : Collaborators}.

(** A method starts from the channel object and leaves it, possibly with
    more in its cache, with a result or an exception.  What a method did to
    the object before it threw stays done. *)
Definition M (A : Type) : Type := CoarseChannel -> CoarseChannel * Result A.

Definition M_ret {A : Type} (a : A) : M A := fun ch => (ch, inr a).

Definition M_bind {A B : Type} (c : M A) (f : A -> M B) : M B :=
  fun ch =>
    match c ch with
    | (ch', inr a) => f a ch'
    | (ch', inl e) => (ch', inl e)
    end.

Definition M_throw {A : Type} (e : JsError) : M A := fun ch => (ch, inl e).

Definition M_this : M ChannelDef := fun ch => (ch, inr (definition ch)).

(** [this._cache[slot]] *)
Definition read_cache {A : Type} (s : Slot A) : M (option A) :=
  fun ch => (ch, inr (slot_get s (_cache ch))).

(** [this._cache[slot] = v] *)
Definition write_cache {A : Type} (s : Slot A) (v : A) : M unit :=
  fun ch => (with_cache (slot_set s v (_cache ch)) ch, inr tt).

(** [if (!(slot in this._cache)) { this._cache[slot] = compute } return
    this._cache[slot]] *)
Definition M_lazily {A : Type} (s : Slot A) (compute : M A) : M A :=
  M_bind (read_cache s) (fun cached =>
    match cached with
    | Some v => M_ret v
    | None => M_bind compute (fun v => M_bind (write_cache s v) (fun _ => M_ret v))
    end).

#[export] Instance M_monad : ChannelMonad M :=
  {| ret := @M_ret; bind := @M_bind; throw := @M_throw; this := M_this;
     lazily := @M_lazily |}.

Notation "x <- c1 ;; c2" := (M_bind c1 (fun x => c2))
  (at level 100, c1 at next level, right associativity).

(** [for (let i = 1; i <= this.maxResolution; i++)], over the values [i]
    takes. *)
Fixpoint forM (l : list Z) (body : Z -> M unit) : M unit :=
  match l with
  | [] => M_ret tt
  | i :: rest => _ <- body i ;; forM rest body
  end.

(** [this._cache[slot][i] = v], on a slot that holds an object *)
Definition write_entry (s : Slot (gmap Z Number)) (i : Z) (v : Number) : M unit :=
  table <- read_cache s ;;
  match table with
  | Some t => write_cache s (<[i := v]> t)
  | None => M_throw TypeError
  end.

(** [this._cache[slot][n]] *)
Definition read_entry (s : Slot (gmap Z Number)) (n : Number) : M (option Number) :=
  table <- read_cache s ;;
  match table with
  | Some t => M_ret (js_index t n)
  | None => M_throw TypeError
  end.

(** The loop both value methods end with: every resolution from 1 to
    [maxResolution] gets the raw value scaled to it. *)
Definition fillPerResolution (s : Slot (gmap Z Number)) (rawValue : Number) : M unit :=
  _ <- write_cache s ∅ ;;
  d <- M_this ;;
  forM (seqZ 1 (maxResolution d)) (fun i =>
    resolution <- dmxValueResolution ;;
    scaled <- liftResult (scaleDmxValue rawValue resolution i) ;;
    write_entry s i scaled).

(** The result is [None] where JavaScript returns [undefined]. *)
Definition getDefaultValueWithResolution (desiredResolution : Number)
  : M (option Number) :=
  _ <- ensureProperResolution desiredResolution ;;
  cached <- read_cache slot_defaultValuePerResolution ;;
  _ <- match cached with
       | Some _ => M_ret tt
       | None =>
           raw <- rawDefaultValue ;;
           fillPerResolution slot_defaultValuePerResolution raw
       end ;;
  read_entry slot_defaultValuePerResolution desiredResolution.

Definition defaultValue : M (option Number) :=
  d <- M_this ;;
  getDefaultValueWithResolution (Number_of_Z (maxResolution d)).

Definition getHighlightValueWithResolution (desiredResolution : Number)
  : M (option Number) :=
  _ <- ensureProperResolution desiredResolution ;;
  cached <- read_cache slot_highlightValuePerResolution ;;
  _ <- match cached with
       | Some _ => M_ret tt
       | None =>
           raw <- rawHighlightValue ;;
           fillPerResolution slot_highlightValuePerResolution raw
       end ;;
  read_entry slot_highlightValuePerResolution desiredResolution.

Definition highlightValue : M (option Number) :=
  d <- M_this ;;
  getHighlightValueWithResolution (Number_of_Z (maxResolution d)).

(** The result of a call and the object it leaves. *)
Definition result {A : Type} (c : M A) (ch : CoarseChannel) : Result A := snd (c ch).
Definition after {A : Type} (c : M A) (ch : CoarseChannel) : CoarseChannel := fst (c ch).

End Running.

(** ** The class without its cache: what the properties are by definition *)

Section ByDefinition.
Context {T : Types} {X : Collaborators}.

(** A property by definition is a function of what defines the channel. *)
Definition P (A : Type) : Type := ChannelDef -> Result A.

Definition P_ret {A : Type} (a : A) : P A := fun _ => inr a.

Definition P_bind {A B : Type} (c : P A) (f : A -> P B) : P B :=
  fun d =>
    match c d with
    | inr a => f a d
    | inl e => inl e
    end.

Definition P_throw {A : Type} (e : JsError) : P A := fun _ => inl e.

Definition P_this : P ChannelDef := fun d => inr d.

(** Without a cache every read computes. *)
Definition P_lazily {A : Type} (s : Slot A) (compute : P A) : P A := compute.

#[export] Instance P_monad : ChannelMonad P :=
  {| ret := @P_ret; bind := @P_bind; throw := @P_throw; this := P_this;
     lazily := @P_lazily |}.

Notation "x <- c1 ;; c2" := (P_bind c1 (fun x => c2))
  (at level 100, c1 at next level, right associativity).

(** What [scaleDmxValue] returns on resolutions it accepts. *)
Definition scaled (rawValue : Number) (fromResolution toResolution : Z) : Number :=
  if fromResolution <=? toResolution
  then appendBytes rawValue (toResolution - fromResolution)
  else truncateBytes rawValue (fromResolution - toResolution).

(** The same on an integer. *)
Definition scaled_integer (rawValue fromResolution toResolution : Z) : Z :=
  if fromResolution <=? toResolution
  then rawValue * 256 ^ (toResolution - fromResolution)
  else rawValue / 256 ^ (fromResolution - toResolution).

(** The object the loop of the value methods builds, entry after entry. *)
Definition perResolution (rawValue : Number) (resolution : Z) (resolutions : list Z)
           (start : gmap Z Number) : gmap Z Number :=
  fold_left (fun table i => <[i := scaled rawValue resolution i]> table) resolutions start.

Definition valuePerResolution_def (rawValue : P Number) : P (gmap Z Number) :=
  raw <- rawValue ;;
  resolution <- dmxValueResolution ;;
  d <- P_this ;;
  P_ret (perResolution raw resolution (seqZ 1 (maxResolution d)) ∅).

Definition defaultValuePerResolution_def : P (gmap Z Number) :=
  valuePerResolution_def rawDefaultValue.

Definition highlightValuePerResolution_def : P (gmap Z Number) :=
  valuePerResolution_def rawHighlightValue.

(** The value methods by definition: the check, then the entry of the
    object of scaled values. *)
Definition getDefaultValueWithResolution_def (desiredResolution : Number)
  : P (option Number) :=
  _ <- ensureProperResolution desiredResolution ;;
  table <- defaultValuePerResolution_def ;;
  P_ret (js_index table desiredResolution).

Definition getHighlightValueWithResolution_def (desiredResolution : Number)
  : P (option Number) :=
  _ <- ensureProperResolution desiredResolution ;;
  table <- highlightValuePerResolution_def ;;
  P_ret (js_index table desiredResolution).

Definition defaultValue_def : P (option Number) :=
  d <- P_this ;;
  getDefaultValueWithResolution_def (Number_of_Z (maxResolution d)).

Definition highlightValue_def : P (option Number) :=
  d <- P_this ;;
  getHighlightValueWithResolution_def (Number_of_Z (maxResolution d)).

(** What each slot of the cache is meant to hold. *)
Definition slot_def {A : Type} (s : Slot A) : P A :=
  match s in Slot A return P A with
  | slot_type => type
  | slot_color => color
  | slot_fineChannels => fineChannels
  | slot_dmxValueResolution => dmxValueResolution
  | slot_defaultValuePerResolution => defaultValuePerResolution_def
  | slot_highlightValuePerResolution => highlightValuePerResolution_def
  | slot_isInverted => isInverted
  | slot_canCrossfade => canCrossfade
  | slot_switchingChannelAliases => switchingChannelAliases
  | slot_switchingChannels => switchingChannels
  | slot_switchToChannelKeys => switchToChannelKeys
  | slot_capabilities => capabilities
  | slot_isHelpWanted => isHelpWanted
  end.

(** A number for each slot, to tell slots of different types apart. *)
Definition slot_tag {A : Type} (s : Slot A) : nat :=
  match s with
  | slot_type => 0
  | slot_color => 1
  | slot_fineChannels => 2
  | slot_dmxValueResolution => 3
  | slot_defaultValuePerResolution => 4
  | slot_highlightValuePerResolution => 5
  | slot_isInverted => 6
  | slot_canCrossfade => 7
  | slot_switchingChannelAliases => 8
  | slot_switchingChannels => 9
  | slot_switchToChannelKeys => 10
  | slot_capabilities => 11
  | slot_isHelpWanted => 12
  end.

(** The invariant of the cache: whatever a slot other than the excepted
    one holds is the value the property has by definition. *)
Definition coherent_except (excepted : option nat) (ch : CoarseChannel) : Prop :=
  forall (A : Type) (s : Slot A) (v : A),
    slot_get s (_cache ch) = Some v ->
    excepted = Some (slot_tag s) \/ slot_def s (definition ch) = inr v.

Definition coherent (ch : CoarseChannel) : Prop := coherent_except None ch.

(** A method refines a property by definition when, on a coherent object,
    it returns the property's value (or throws what the definition throws)
    and leaves the object coherent and defined as before. *)
Definition refines {A : Type} (c : M A) (p : P A) : Prop :=
  forall ch, coherent ch ->
    exists ch', c ch = (ch', p (definition ch))
                /\ coherent ch' /\ definition ch' = definition ch.

(** ** The public interface and the objects it can produce *)

Inductive Call : Type :=
| get_type
| get_color
| get_fineChannels
| get_dmxValueResolution
| get_capabilities
| get_isInverted
| get_canCrossfade
| get_switchingChannelAliases
| get_switchingChannels
| get_switchToChannelKeys
| get_isHelpWanted
| get_defaultValue
| get_highlightValue
| call_ensureProperResolution (resolution : Number)
| call_getDefaultValueWithResolution (resolution : Number)
| call_getHighlightValueWithResolution (resolution : Number)
| assign_jsonObject (jsonObject : JsonObject).

(** The object a call leaves. *)
Definition exec (c : Call) (ch : CoarseChannel) : CoarseChannel :=
  match c with
  | get_type => after type ch
  | get_color => after color ch
  | get_fineChannels => after fineChannels ch
  | get_dmxValueResolution => after dmxValueResolution ch
  | get_capabilities => after capabilities ch
  | get_isInverted => after isInverted ch
  | get_canCrossfade => after canCrossfade ch
  | get_switchingChannelAliases => after switchingChannelAliases ch
  | get_switchingChannels => after switchingChannels ch
  | get_switchToChannelKeys => after switchToChannelKeys ch
  | get_isHelpWanted => after isHelpWanted ch
  | get_defaultValue => after defaultValue ch
  | get_highlightValue => after highlightValue ch
  | call_ensureProperResolution r => after (ensureProperResolution r) ch
  | call_getDefaultValueWithResolution r => after (getDefaultValueWithResolution r) ch
  | call_getHighlightValueWithResolution r => after (getHighlightValueWithResolution r) ch
  | assign_jsonObject jsonObject => set_jsonObject jsonObject ch
  end.

(** A channel object is one the constructor made, after any number of
    calls. *)
Inductive reachable : CoarseChannel -> Prop :=
| reachable_new key0 jsonObject fixture :
    reachable (new_CoarseChannel key0 jsonObject fixture)
| reachable_exec c ch :
    reachable ch -> reachable (exec c ch).

End ByDefinition.

(** ** What the properties are said to be *)

Section Statements.
Context {T : Types} {X : Collaborators}.

(** An entry of the table matches a capability list when one of the
    capabilities has a type among the entry's required tags and the
    entry's predicate, when it has one, holds of the list. *)
Definition entry_matches (caps : list Capability) (entry : string * TableValue) : Prop :=
  (exists cap, In cap caps /\ In (cap_type cap) (required (normalize (snd entry))))
  /\ (forall p, predicate (normalize (snd entry)) = Some p -> p caps = true).

(** The name of the first entry of a table that matches, [Unknown] when
    none does. *)
Definition first_match (caps : list Capability) (table : list (string * TableValue))
           (t : string) : Prop :=
  (exists before entry later,
      table = (before ++ entry :: later)%list
      /\ t = fst entry
      /\ entry_matches caps entry
      /\ (forall e, In e before -> ~ entry_matches caps e))
  \/ (t = "Unknown" /\ forall e, In e table -> ~ entry_matches caps e).

(** The test of one entry, without effects. *)
Definition entry_matchesb (caps : list Capability) (entry : string * TableValue) : bool :=
  existsb (fun cap => includes (required (normalize (snd entry))) (cap_type cap)) caps
  && match predicate (normalize (snd entry)) with
     | None => true
     | Some p => p caps
     end.

(** The type of a channel with the given capabilities. *)
Definition classify (caps : list Capability) : string :=
  or_Unknown (List.find (entry_matchesb caps) channelTypeConstraints).

(** The test of [ensureProperResolution]. *)
Definition improper (d : ChannelDef) (r : Number) : bool :=
  js_gt r (Number_of_Z (maxResolution d))
  || js_lt r (Number_of_Z RESOLUTION_8BIT)
  || js_mod1_nonzero r.

(** A number that is an integer from 1 to [maxResolution]. *)
Definition proper_resolution (d : ChannelDef) (r : Number) : Prop :=
  exists n : Z,
    1 <= n <= maxResolution d
    /\ match r with
       | Finite q => (q == inject_Z n)%Q
       | _ => False
       end.

(** A record whose value fields, where they are strings, are Entity
    strings.  An empty [defaultValue] is never parsed. *)
Definition well_formed_values (d : ChannelDef) : Prop :=
  (forall s, j_defaultValue (def_jsonObject d) = Some (JString s) -> s <> EmptyString ->
             exists e, createFromEntityString s = inr e)
  /\ (forall s, j_highlightValue (def_jsonObject d) = Some (JString s) ->
                exists e, createFromEntityString s = inr e).


(** The reading of the percentage rule in exact arithmetic: the raw
    default value of a channel whose [defaultValue] is the numeral p with
    the unit % is the floor of p/100 times (256 to the power
    [dmxValueResolution], minus one). *)
Definition exact_percentage (ch : CoarseChannel) : Prop :=
  forall s numeral,
    j_defaultValue (_jsonObject ch) = Some (JString s) ->
    EntityParser.parse s = Some numeral ->
    EntityParser.suffix numeral = "%" ->
    result rawDefaultValue ch
    = inr (Number_of_Z
             (Qfloor (EntityParser.magnitude numeral / inject_Z 100
                      * inject_Z (256 ^ declaredResolution (definition ch) - 1))%Q)).

(** The reading of the single-capability rule under which the range
    synthesized for a record without [dmxRange] is [0, maxDmxBound]. *)
Definition synthesizes_maxDmxBound (ch : CoarseChannel) : Prop :=
  forall capability,
    j_capability (_jsonObject ch) = Some capability ->
    dmxRange capability = None ->
    exists resolution,
      result capabilities ch
      = inr [new_Capability
               {| dmxRange := Some (Number_of_Z 0, maxDmxBound (definition ch));
                  fields := fields capability |}
               resolution (definition ch)].

End Statements.

(** ** A small fixture to run the model on *)

Module Demo.

(** The fields of a capability record, as far as the channel's view of a
    capability depends on them. *)
Record Fields : Type := {
  f_type : string;
  f_wheels : list (option Wheel);
  f_shutterEffect : option string;
  f_isStep : bool;
  f_isInverted : bool;
}.

(** A capability object: the data and the resolution it was made from. *)
Record Cap : Type := {
  data_dmxRange : option (Number * Number);
  data_fields : Fields;
  made_at : Z;
  owner : string;
}.

Definition types : Types :=
  {| Fixture := unit;
     CapabilityFields := Fields;
     Capability := Cap;
     FineChannel := string * string;
     SwitchingChannel := string * string |}.

#[local] Existing Instance types.

Definition type_of (c : Cap) : string := f_type (data_fields c).

Definition make (data : CapabilityJson) (resolution : Z) (d : ChannelDef) : Cap :=
  {| data_dmxRange := dmxRange data; data_fields := fields data;
     made_at := resolution; owner := def_key d |}.

Definition collaborators : Collaborators :=
  {| cap_type := type_of;
     cap_wheels := compose f_wheels data_fields;
     cap_shutterEffect := compose f_shutterEffect data_fields;
     cap_isStep := compose f_isStep data_fields;
     cap_isInverted := compose f_isInverted data_fields;
     cap_color := fun _ => None;
     cap_switchChannels := fun _ => [];
     cap_helpWanted := fun _ => None;
     canCrossfadeTo := fun a b => String.eqb (type_of a) (type_of b);
     new_Capability := make;
     new_FineChannel := fun alias d => (alias, def_key d);
     new_SwitchingChannel := fun alias d => (alias, def_key d);
     sc_switchToChannelKeys := fun _ => [] |}.

#[local] Existing Instance collaborators.

Definition plain (type : string) : Fields :=
  {| f_type := type; f_wheels := []; f_shutterEffect := None;
     f_isStep := false; f_isInverted := false |}.

Definition record (capability : CapabilityJson) : JsonObject :=
  {| j_name := None; j_fineChannelAliases := None; j_dmxValueResolution := None;
     j_defaultValue := None; j_highlightValue := None; j_constant := None;
     j_precedence := None; j_capability := Some capability; j_capabilities := None |}.

(** A gobo wheel channel. *)
Definition goboWheel : CoarseChannel :=
  new_CoarseChannel "Gobo Wheel"
    (record {| dmxRange := None;
               fields := {| f_type := "WheelSlot";
                            f_wheels := [Some {| wheel_type := "Gobo" |}];
                            f_shutterEffect := None;
                            f_isStep := true; f_isInverted := false |} |})
    tt.

(** A channel without function. *)
Definition reserved : CoarseChannel :=
  new_CoarseChannel "Reserved" (record {| dmxRange := None; fields := plain "NoFunction" |}) tt.

(** A 16 bit dimmer that defaults to half. *)
Definition dimmer : CoarseChannel :=
  new_CoarseChannel "Dimmer"
    {| j_name := None; j_fineChannelAliases := Some ["Dimmer fine"];
       j_dmxValueResolution := Some res_16bit;
       j_defaultValue := Some (JString "50%"); j_highlightValue := None;
       j_constant := None; j_precedence := None;
       j_capability := Some {| dmxRange := None; fields := plain "Intensity" |};
       j_capabilities := None |}
    tt.

(** A channel with a fine channel whose values are declared in 8 bit. *)
Definition pan : CoarseChannel :=
  new_CoarseChannel "Pan"
    {| j_name := None; j_fineChannelAliases := Some ["Pan fine"];
       j_dmxValueResolution := Some res_8bit;
       j_defaultValue := None; j_highlightValue := None;
       j_constant := None; j_precedence := None;
       j_capability := Some {| dmxRange := None; fields := plain "Pan" |};
       j_capabilities := None |}
    tt.

(** A channel of two capabilities that fade into each other. *)
Definition zoom : CoarseChannel :=
  new_CoarseChannel "Zoom"
    {| j_name := None; j_fineChannelAliases := None; j_dmxValueResolution := None;
       j_defaultValue := None; j_highlightValue := None;
       j_constant := None; j_precedence := None;
       j_capability := None;
       j_capabilities :=
         Some [ {| dmxRange := Some (Number_of_Z 0, Number_of_Z 127); fields := plain "Zoom" |};
                {| dmxRange := Some (Number_of_Z 128, Number_of_Z 255); fields := plain "Zoom" |} ] |}
    tt.

End Demo.

(** ** The channel in a mode *)

(** What the channel and the fixture features use of a mode: the index
    [getChannelIndex] reports for a channel key, -1 for a key the mode does
    not use.  The second argument is [None] where the caller passes none. *)
Class ModeView : Type := {
  Mode : Type;
  SwitchingChannelBehavior : Type;
  getChannelIndex : Mode -> string -> option SwitchingChannelBehavior -> Z;
}.

Section InMode.
Context {T : Types} {V : ModeView}.

Definition getResolutionInMode (d : ChannelDef) (mode : Mode)
           (switchingChannelBehavior : option SwitchingChannelBehavior) : Z :=
  let channelKeys := def_key d :: fineChannelAliases d in
  let usedChannels :=
    List.filter
      (fun chKey => negb (getChannelIndex mode chKey switchingChannelBehavior =? -1))
      channelKeys in
  Z.of_nat (length usedChannels).

(** What [fixture.getChannelByKey] returns. *)
Inductive ChannelObject : Type :=
| IsCoarseChannel (channel : CoarseChannel)
| IsFineChannel (channel : FineChannel)
| IsSwitchingChannel (channel : SwitchingChannel)
| IsNull.

End InMode.

(** What the fixture features use of a fixture, of its modes and of a fine
    channel. *)
Class FixtureView {T : Types} {V : ModeView} : Type := {
  modes : Fixture -> list Mode;
  channelKeys : Mode -> list string;
  getChannelByKey : Fixture -> string -> ChannelObject;
  fine_key : FineChannel -> string;
  coarseChannel : FineChannel -> CoarseChannel;
  coarserChannel : FineChannel -> CoarseChannel + FineChannel;
}.

(** ** The fixture features of [lib/fixture-features/fine-positions.js] *)

Section FinePositions.
Context {T : Types} {V : ModeView} {F : FixtureView}.

(** [channel.coarserChannel.key] *)
Definition coarserChannel_key (channel : FineChannel) : string :=
  match coarserChannel channel with
  | inl coarse => key coarse
  | inr fine => fine_key fine
  end.

(** The callback of the inner [some] of "Fine before coarse". *)
Definition fineBeforeCoarse_at (fixture : Fixture) (mode : Mode) (chPos : nat)
           (chKey : string) : bool :=
  match getChannelByKey fixture chKey with
  | IsFineChannel channel =>
      Z.of_nat chPos <? getChannelIndex mode (key (coarseChannel channel)) None
  | _ => false
  end.

(** [hasFeature] of "Fine before coarse". *)
Definition fineBeforeCoarse (fixture : Fixture) : bool :=
  existsb (fun mode =>
             existsb (fun '(chPos, chKey) => fineBeforeCoarse_at fixture mode chPos chKey)
                     (imap pair (channelKeys mode)))
          (modes fixture).

(** The callback of the inner [some] of "Fine not-adjacent after coarse". *)
Definition fineNotAdjacent_at (fixture : Fixture) (mode : Mode) (chPos : nat)
           (chKey : string) : bool :=
  match getChannelByKey fixture chKey with
  | IsFineChannel channel =>
      getChannelIndex mode (coarserChannel_key channel) None + 1 <? Z.of_nat chPos
  | _ => false
  end.

(** [hasFeature] of "Fine not-adjacent after coarse". *)
Definition fineNotAdjacent (fixture : Fixture) : bool :=
  existsb (fun mode =>
             existsb (fun '(chPos, chKey) => fineNotAdjacent_at fixture mode chPos chKey)
                     (imap pair (channelKeys mode)))
          (modes fixture).

End FinePositions.

(** ** More of what the properties are said to be *)

Section MoreStatements.
Context {T : Types} {X : Collaborators}.

(** Whether a call is the assignment of [jsonObject]. *)
Definition is_assignment (c : Call) : bool :=
  match c with
  | assign_jsonObject _ => true
  | _ => false
  end.

(** The object a sequence of calls leaves. *)
Definition execs (calls : list Call) (ch : CoarseChannel) : CoarseChannel :=
  fold_left (fun object c => exec c object) calls ch.

(** Every capability type the table mentions. *)
Definition allTags : list string :=
  List.flat_map (fun entry => required (normalize (snd entry))) channelTypeConstraints.

(** The names of the table. *)
Definition typeNames : list string := List.map fst channelTypeConstraints.

(** A value field that fits the declared resolution: an integer from 0
    to the maximum, a percentage from 0 to 100, or no value. *)
Definition fits_resolution (resolution : Z) (value : option JsonValue) : Prop :=
  match value with
  | None => True
  | Some (JInt z) => 0 <= z <= 256 ^ resolution - 1
  | Some (JString s) =>
      exists entity,
        createFromEntityString s = inr entity
        /\ exists p, number entity = Finite p /\ (0 <= p)%Q /\ (p <= inject_Z 100)%Q
  end.

End MoreStatements.

(** ** Modes for the small fixture *)

Module DemoModes.

#[local] Existing Instance Demo.types.
#[local] Existing Instance Demo.collaborators.

(** A mode is the list of its channel keys; the index of a key is its
    first position, -1 when it has none. *)
Fixpoint index_of (chKey : string) (keys : list string) (from : Z) : Z :=
  match keys with
  | [] => -1
  | k :: rest => if String.eqb k chKey then from else index_of chKey rest (from + 1)
  end.

Definition view : ModeView :=
  {| Mode := list string;
     SwitchingChannelBehavior := unit;
     getChannelIndex := fun mode chKey _ => index_of chKey mode 0 |}.

#[local] Existing Instance view.

Definition lookup_channel (fixture : unit) (chKey : string) : ChannelObject :=
  if String.eqb chKey "Pan" then IsCoarseChannel Demo.pan
  else if String.eqb chKey "Pan fine" then IsFineChannel ("Pan fine", "Pan")
  else if String.eqb chKey "Dimmer" then IsCoarseChannel Demo.dimmer
  else if String.eqb chKey "Dimmer fine" then IsFineChannel ("Dimmer fine", "Dimmer")
  else IsNull.

Definition owner_of (fine : string * string) : CoarseChannel :=
  if String.eqb (snd fine) "Pan" then Demo.pan else Demo.dimmer.

(** Three modes: the fine channel after its coarse channel, before it,
    and two positions after it. *)
Definition fixtureView : FixtureView :=
  {| modes := fun _ => [ ["Pan"; "Pan fine"];
                         ["Pan fine"; "Pan"];
                         ["Pan"; "Dimmer"; "Pan fine"] ];
     channelKeys := fun mode => mode;
     getChannelByKey := lookup_channel;
     fine_key := fst;
     coarseChannel := owner_of;
     coarserChannel := fun fine => inl (owner_of fine) |}.

(** A fixture whose only mode has the coarse channel alone. *)
Definition coarseOnlyView : FixtureView :=
  {| modes := fun _ => [ ["Pan"] ];
     channelKeys := fun mode => mode;
     getChannelByKey := lookup_channel;
     fine_key := fst;
     coarseChannel := owner_of;
     coarserChannel := fun fine => inl (owner_of fine) |}.

End DemoModes.

(** ** More channels for the small fixture *)

Module DemoChannels.

#[local] Existing Instance Demo.types.
#[local] Existing Instance Demo.collaborators.

Definition record_of (capabilities : option (list CapabilityJson)) : JsonObject :=
  {| j_name := None; j_fineChannelAliases := None; j_dmxValueResolution := None;
     j_defaultValue := None; j_highlightValue := None; j_constant := None;
     j_precedence := None; j_capability := None; j_capabilities := capabilities |}.

(** A record with neither [capability] nor [capabilities]. *)
Definition incomplete : CoarseChannel :=
  new_CoarseChannel "Incomplete" (record_of None) tt.

(** A record with an empty [capabilities] list. *)
Definition bare : CoarseChannel :=
  new_CoarseChannel "Bare" (record_of (Some [])) tt.

(** A red channel. *)
Definition red : CoarseChannel :=
  new_CoarseChannel "Red"
    (Demo.record {| dmxRange := None; fields := Demo.plain "ColorIntensity" |}) tt.

(** A default value the Entity parser rejects. *)
Definition unparsable : CoarseChannel :=
  new_CoarseChannel "Speed"
    {| j_name := None; j_fineChannelAliases := None; j_dmxValueResolution := None;
       j_defaultValue := Some (JString "fast!"); j_highlightValue := None;
       j_constant := None; j_precedence := None;
       j_capability := Some {| dmxRange := None; fields := Demo.plain "Speed" |};
       j_capabilities := None |}
    tt.

Definition shutterFields (effect : string) : Demo.Fields :=
  {| Demo.f_type := "ShutterStrobe"; Demo.f_wheels := [];
     Demo.f_shutterEffect := Some effect;
     Demo.f_isStep := true; Demo.f_isInverted := false |}.

(** A channel of seven bytes: six fine channels and no declared
    resolution. *)
Definition position : CoarseChannel :=
  new_CoarseChannel "Position"
    {| j_name := None;
       j_fineChannelAliases :=
         Some ["Position fine"; "Position fine^2"; "Position fine^3";
               "Position fine^4"; "Position fine^5"; "Position fine^6"];
       j_dmxValueResolution := None;
       j_defaultValue := None; j_highlightValue := None;
       j_constant := None; j_precedence := None;
       j_capability := Some {| dmxRange := None; fields := Demo.plain "Pan" |};
       j_capabilities := None |}
    tt.

(** An 8 bit channel that defaults to 162 of 255, written as the
    percentage 162/255*100 prints as. *)
Definition amber : CoarseChannel :=
  new_CoarseChannel "Amber"
    {| j_name := None; j_fineChannelAliases := None; j_dmxValueResolution := None;
       j_defaultValue := Some (JString "63.52941176470588%"); j_highlightValue := None;
       j_constant := None; j_precedence := None;
       j_capability := Some {| dmxRange := None; fields := Demo.plain "ColorIntensity" |};
       j_capabilities := None |}
    tt.

(** A shutter that opens and strobes, with integer values. *)
Definition shutter : CoarseChannel :=
  new_CoarseChannel "Shutter"
    {| j_name := None; j_fineChannelAliases := Some ["Shutter fine"];
       j_dmxValueResolution := Some res_8bit;
       j_defaultValue := Some (JInt 10); j_highlightValue := Some (JInt 255);
       j_constant := None; j_precedence := None;
       j_capability := None;
       j_capabilities :=
         Some [ {| dmxRange := Some (Number_of_Z 0, Number_of_Z 127); fields := shutterFields "Open" |};
                {| dmxRange := Some (Number_of_Z 128, Number_of_Z 255); fields := shutterFields "Strobe" |} ] |}
    tt.

End DemoChannels.

(** * JavaScript arithmetic *)

Section Arithmetic.

Lemma pow2_pos (e : Z) : (0 < pow2 e)%Q.
Proof. apply Qpower_0_lt. reflexivity. Qed.

Lemma pow2_plus (a b : Z) : (pow2 (a + b) == pow2 a * pow2 b)%Q.
Proof. apply Qpower_plus. discriminate. Qed.

Lemma pow2_le (a b : Z) : a <= b -> (pow2 a <= pow2 b)%Q.
Proof. intros H. apply Qpower_le_compat_l; [exact H | discriminate]. Qed.

Lemma pow2_Z (e : Z) : 0 <= e -> (pow2 e == inject_Z (2 ^ e))%Q.
Proof. intros H. unfold pow2. rewrite Zpower_Qpower by exact H. reflexivity. Qed.

Lemma Qfloor_log2_le (q : Q) : (0 < q)%Q -> (pow2 (Qfloor_log2 q) <= q)%Q.
Proof.
  intros Hq. unfold Qfloor_log2.
  destruct (Qle_bool _ q) eqn:Hle; [apply Qle_bool_iff, Hle |]. clear Hle.
  destruct q as [n d]. cbn [Qnum Qden].
  assert (Hn : 0 < n).
  { unfold Qlt in Hq. cbn in Hq. lia. }
  set (a := Z.log2 n). set (b := Z.log2 (Z.pos d)).
  assert (Ha : 2 ^ a <= n) by (apply Z.log2_spec; exact Hn).
  assert (Hb : Z.pos d < 2 ^ (b + 1)).
  { replace (b + 1) with (Z.succ b) by lia. apply Z.log2_spec. lia. }
  assert (Ha0 : 0 <= a) by apply Z.log2_nonneg.
  assert (Hb0 : 0 <= b) by apply Z.log2_nonneg.
  rewrite (Qmake_Qdiv n d).
  apply Qle_shift_div_l; [reflexivity |].
  apply Qle_trans with (pow2 (a - b - 1) * pow2 (b + 1))%Q.
  - apply Qmult_le_l; [apply pow2_pos |].
    rewrite pow2_Z by lia. rewrite <- Zle_Qle. lia.
  - rewrite <- pow2_plus. replace (a - b - 1 + (b + 1)) with a by lia.
    rewrite pow2_Z by lia. rewrite <- Zle_Qle. exact Ha.
Qed.

Lemma round_half_even_floor (x : Q) :
  Qfloor x <= round_half_even x <= Qfloor x + 1.
Proof.
  unfold round_half_even.
  destruct (_ ?= _)%Q; [destruct (Z.even _) | |]; lia.
Qed.

Lemma round_half_even_ge (x : Q) (N : Z) : (inject_Z N <= x)%Q -> N <= round_half_even x.
Proof.
  intros H. pose proof (round_half_even_floor x) as [Hf _].
  apply Qfloor_resp_le in H. rewrite Qfloor_Z in H. lia.
Qed.

Lemma round_half_even_le (x : Q) (N : Z) : (x <= inject_Z N)%Q -> round_half_even x <= N.
Proof.
  intros H. pose proof (round_half_even_floor x) as [_ Hf].
  pose proof (Qfloor_resp_le _ _ H) as Hfl. rewrite Qfloor_Z in Hfl.
  destruct (Z.eq_dec (Qfloor x) N) as [Heq | Hne]; [| lia].
  unfold round_half_even.
  assert (Hlt : (x - inject_Z (Qfloor x) ?= 1 # 2)%Q = Lt).
  { apply Qlt_alt. rewrite Heq.
    apply Qle_lt_trans with 0%Q; [| reflexivity].
    apply (Qplus_le_l _ _ (inject_Z N)). ring_simplify. exact H. }
  rewrite Hlt. lia.
Qed.

Lemma round64_positive_overflow (q : Q) :
  (0 < q)%Q -> (pow2 1024 <= q)%Q -> round64_positive q = Infinity.
Proof.
  intros Hq Hbig. unfold round64_positive.
  set (e := Z.max (Qfloor_log2 q - 52) (-1074)).
  set (m := round_half_even (q / pow2 e)).
  assert (Hr : (pow2 1024 <= inject_Z m * pow2 e)%Q).
  { destruct (Z_le_gt_dec e 1024) as [Hsmall | Hlarge].
    - assert (Hm : 2 ^ (1024 - e) <= m).
      { apply round_half_even_ge. rewrite <- pow2_Z by lia.
        apply Qle_shift_div_l; [apply pow2_pos |].
        rewrite <- pow2_plus. replace (1024 - e + e) with 1024 by lia. exact Hbig. }
      apply Qle_trans with (inject_Z (2 ^ (1024 - e)) * pow2 e)%Q.
      + rewrite <- pow2_Z by lia. rewrite <- pow2_plus.
        replace (1024 - e + e) with 1024 by lia. apply Qle_refl.
      + apply Qmult_le_compat_r; [| apply Qlt_le_weak, pow2_pos].
        rewrite <- Zle_Qle. exact Hm.
    - assert (He : e = Qfloor_log2 q - 52) by (subst e; lia).
      assert (Hm : 1 <= m).
      { apply round_half_even_ge.
        apply Qle_shift_div_l; [apply pow2_pos |].
        rewrite Qmult_1_l.
        apply Qle_trans with (pow2 (Qfloor_log2 q)); [apply pow2_le; lia |].
        apply Qfloor_log2_le, Hq. }
      apply Qle_trans with (1 * pow2 e)%Q.
      + rewrite Qmult_1_l. apply pow2_le. lia.
      + apply Qmult_le_compat_r; [| apply Qlt_le_weak, pow2_pos].
        change 1%Q with (inject_Z 1). rewrite <- Zle_Qle. exact Hm. }
  apply Qle_bool_iff in Hr. rewrite Hr. reflexivity.
Qed.

Lemma round64_positive_le (q : Q) (d : Z) :
  (0 < q)%Q -> (q <= inject_Z d)%Q -> d < 2 ^ 53 ->
  exists r, round64_positive q = Finite r /\ (0 <= r)%Q /\ (r <= inject_Z d)%Q.
Proof.
  intros Hq Hd Hsmall. unfold round64_positive.
  set (e := Z.max (Qfloor_log2 q - 52) (-1074)).
  set (m := round_half_even (q / pow2 e)).
  assert (He : e <= 0).
  { destruct (Z_le_gt_dec (Qfloor_log2 q) 52) as [Hfl | Hfl]; [subst e; lia |].
    exfalso.
    assert (H53 : (pow2 53 <= inject_Z d)%Q).
    { apply Qle_trans with (pow2 (Qfloor_log2 q)); [apply pow2_le; lia |].
      apply Qle_trans with q; [apply Qfloor_log2_le, Hq | exact Hd]. }
    rewrite pow2_Z in H53 by lia. rewrite <- Zle_Qle in H53. lia. }
  assert (Hscale : (inject_Z d == inject_Z (d * 2 ^ (- e)) * pow2 e)%Q).
  { rewrite inject_Z_mult, <- pow2_Z by lia.
    rewrite <- Qmult_assoc, <- pow2_plus. replace (- e + e) with 0 by lia.
    unfold pow2. rewrite Qpower_0_r. ring. }
  assert (Hm : m <= d * 2 ^ (- e)).
  { apply round_half_even_le. apply Qle_shift_div_r; [apply pow2_pos |].
    rewrite <- Hscale. exact Hd. }
  assert (Hm0 : 0 <= m).
  { apply round_half_even_ge. apply Qle_shift_div_l; [apply pow2_pos |].
    rewrite Qmult_0_l. apply Qlt_le_weak, Hq. }
  assert (Hr0 : (0 <= inject_Z m * pow2 e)%Q).
  { apply Qmult_le_0_compat; [| apply Qlt_le_weak, pow2_pos].
    change 0%Q with (inject_Z 0). rewrite <- Zle_Qle. exact Hm0. }
  assert (Hrd : (inject_Z m * pow2 e <= inject_Z d)%Q).
  { rewrite Hscale. apply Qmult_le_compat_r; [| apply Qlt_le_weak, pow2_pos].
    rewrite <- Zle_Qle. exact Hm. }
  destruct (Qle_bool (pow2 1024) _) eqn:Hover.
  - exfalso. apply Qle_bool_iff in Hover.
    assert (H : (pow2 1024 <= inject_Z d)%Q) by (eapply Qle_trans; eassumption).
    rewrite pow2_Z in H by lia. rewrite <- Zle_Qle in H.
    assert (2 ^ 53 <= 2 ^ 1024) by (apply Z.pow_le_mono_r; lia). lia.
  - eexists. split; [reflexivity |]. rewrite Qred_correct. split; assumption.
Qed.

Lemma round64_proper (q q' : Q) : (q == q')%Q -> round64 q = round64 q'.
Proof. intros H. unfold round64. rewrite (Qred_complete q q' H). reflexivity. Qed.

Lemma round64_overflow (q : Q) : (pow2 1024 <= q)%Q -> round64 q = Infinity.
Proof.
  intros Hbig. unfold round64.
  assert (Hpos : (0 < Qred q)%Q).
  { rewrite Qred_correct. eapply Qlt_le_trans; [apply (pow2_pos 1024) | exact Hbig]. }
  assert (Hgt : (Qred q ?= 0)%Q = Gt) by (apply Qgt_alt, Hpos).
  rewrite Hgt. apply round64_positive_overflow; [exact Hpos |].
  rewrite Qred_correct. exact Hbig.
Qed.

Lemma round64_le (q : Q) (d : Z) :
  (0 <= q)%Q -> (q <= inject_Z d)%Q -> d < 2 ^ 53 ->
  exists r, round64 q = Finite r /\ (0 <= r)%Q /\ (r <= inject_Z d)%Q.
Proof.
  intros Hq Hd Hsmall. unfold round64.
  destruct (Qred q ?= 0)%Q eqn:Hcmp.
  - exists 0%Q. split; [reflexivity |]. split; [apply Qle_refl |].
    eapply Qle_trans; eassumption.
  - exfalso. apply Qlt_alt in Hcmp. rewrite Qred_correct in Hcmp.
    apply (Qlt_not_le _ _ Hcmp Hq).
  - apply Qgt_alt in Hcmp. apply round64_positive_le; [exact Hcmp | | exact Hsmall].
    rewrite Qred_correct. exact Hd.
Qed.

Lemma Number_eqb_eq (a b : Number) : Number_eqb a b = true -> a = b.
Proof.
  destruct a as [[n d] | | |], b as [[n' d'] | | |]; cbn; try discriminate; try reflexivity.
  rewrite andb_true_iff, Z.eqb_eq, Pos.eqb_eq. intros [-> ->]. reflexivity.
Qed.

(** A test that holds of every integer of a range. *)
Lemma forallb_seqZ (f : Z -> bool) (first count i : Z) :
  forallb f (seqZ first count) = true -> first <= i < first + count -> f i = true.
Proof.
  intros Hall Hi. rewrite forallb_forall in Hall. apply Hall.
  apply list_elem_of_In, elem_of_seqZ. exact Hi.
Qed.

(** *** Bytes appended and truncated *)

Lemma appendBytes_integer (z count : Z) :
  appendBytes (Number_of_Z z) count = Number_of_Z (z * 256 ^ count).
Proof. reflexivity. Qed.

Lemma truncateBytes_integer (z count : Z) :
  0 <= count -> truncateBytes (Number_of_Z z) count = Number_of_Z (z / 256 ^ count).
Proof.
  intros Hcount. unfold truncateBytes, Number_of_Z. f_equal. f_equal.
  assert (Hpos : 0 < 256 ^ count) by (apply Z.pow_pos_nonneg; lia).
  destruct (256 ^ count) as [| c | c]; try lia.
  unfold Qfloor, Qdiv, Qinv, Qmult, inject_Z. cbn.
  rewrite Z.mul_1_r. reflexivity.
Qed.

Lemma scaled_integer_spec (z fromResolution toResolution : Z) :
  scaled (Number_of_Z z) fromResolution toResolution
  = Number_of_Z (scaled_integer z fromResolution toResolution).
Proof.
  unfold scaled, scaled_integer.
  destruct (Z.leb_spec fromResolution toResolution).
  - apply appendBytes_integer.
  - apply truncateBytes_integer. lia.
Qed.

(** *** The highest value of a resolution *)

(** [Math.pow(256, n) - 1] is the integer it is written as up to six
    bytes.  From seven bytes on, the integer has more than 53 bits and
    the subtraction returns the power itself; from 128 bytes on the power
    is [Infinity]. *)
Lemma maxDmxBoundInResolution_exact (n : Z) :
  1 <= n <= 6 -> maxDmxBoundInResolution n = Number_of_Z (256 ^ n - 1).
Proof.
  intros Hn. apply Number_eqb_eq.
  apply (forallb_seqZ
           (fun n => Number_eqb (maxDmxBoundInResolution n) (Number_of_Z (256 ^ n - 1)))
           1 6); [vm_compute; reflexivity | lia].
Qed.

Lemma maxDmxBoundInResolution_rounded (n : Z) :
  7 <= n <= 127 -> maxDmxBoundInResolution n = Number_of_Z (256 ^ n).
Proof.
  intros Hn. apply Number_eqb_eq.
  apply (forallb_seqZ
           (fun n => Number_eqb (maxDmxBoundInResolution n) (Number_of_Z (256 ^ n)))
           7 121); [vm_compute; reflexivity | lia].
Qed.

Lemma Math_pow_256_overflow (n : Z) : 128 <= n -> Math_pow 256 n = Infinity.
Proof.
  intros Hn. unfold Math_pow. apply round64_overflow.
  rewrite <- Zpower_Qpower by lia. rewrite pow2_Z by lia. rewrite <- Zle_Qle.
  change (2 ^ 1024) with (256 ^ 128). apply Z.pow_le_mono_r; lia.
Qed.

Lemma maxDmxBoundInResolution_overflow (n : Z) :
  128 <= n -> maxDmxBoundInResolution n = Infinity.
Proof.
  intros Hn. unfold maxDmxBoundInResolution. rewrite Math_pow_256_overflow by exact Hn.
  reflexivity.
Qed.

(** *** Percentages *)

Lemma Qfloor_bounds (x : Q) (lo hi : Z) :
  (inject_Z lo <= x)%Q -> (x <= inject_Z hi)%Q -> lo <= Qfloor x <= hi.
Proof.
  intros Hlo Hhi. apply Qfloor_resp_le in Hlo, Hhi. rewrite Qfloor_Z in Hlo, Hhi. lia.
Qed.

(** A percentage from 0 to 100 of the highest value of a resolution of
    up to six bytes is an integer from 0 to that value, rounding
    included: the quotient by 100 is rounded to at most 1, which is a
    double, and the product to at most the highest value, which is one. *)
Lemma percentOfMax_bounds (entity : Entity) (p : Q) (resolution : Z) :
  number entity = Finite p -> (0 <= p)%Q -> (p <= inject_Z 100)%Q ->
  1 <= resolution <= 6 ->
  exists z : Z,
    percentOfMax entity resolution = Number_of_Z z /\ 0 <= z <= 256 ^ resolution - 1.
Proof.
  intros Hnumber Hlo Hhi Hres. unfold percentOfMax. cbv zeta.
  rewrite Hnumber, (maxDmxBoundInResolution_exact resolution Hres).
  assert (Hmax : 0 <= 256 ^ resolution - 1 < 2 ^ 53).
  { assert (0 < 256 ^ resolution) by (apply Z.pow_pos_nonneg; lia).
    assert (256 ^ resolution <= 256 ^ 6) by (apply Z.pow_le_mono_r; lia).
    change (256 ^ 6) with (2 ^ 48) in *.
    assert (2 ^ 48 < 2 ^ 53) by (apply Z.pow_lt_mono_r; lia). lia. }
  destruct (round64_le (p / inject_Z 100) 1) as (x & Hx & Hx0 & Hx1).
  { apply Qle_shift_div_l; [reflexivity |]. rewrite Qmult_0_l. exact Hlo. }
  { apply Qle_shift_div_r; [reflexivity |]. rewrite Qmult_1_l. exact Hhi. }
  { reflexivity. }
  assert (Hdiv : js_div (Finite p) (Number_of_Z 100) = Finite x).
  { unfold js_div, Number_of_Z. cbn [Qeq_bool inject_Z]. exact Hx. }
  rewrite Hdiv.
  destruct (round64_le (x * inject_Z (256 ^ resolution - 1)) (256 ^ resolution - 1))
    as (y & Hy & Hy0 & Hy1).
  { apply Qmult_le_0_compat; [exact Hx0 |].
    change 0%Q with (inject_Z 0). rewrite <- Zle_Qle. lia. }
  { rewrite <- (Qmult_1_l (inject_Z (256 ^ resolution - 1))) at 2.
    apply Qmult_le_compat_r; [exact Hx1 |].
    change 0%Q with (inject_Z 0). rewrite <- Zle_Qle. lia. }
  { lia. }
  unfold js_mul, Number_of_Z at 1. rewrite Hy. cbn [Math_floor].
  exists (Qfloor y). split; [reflexivity |].
  apply Qfloor_bounds; assumption.
Qed.

(** On the whole percentages from 0 to 100 and up to six bytes the
    rounding does not show: the result is the floor of the exact
    product. *)
Lemma percentOfMax_whole (k resolution : Z) (unitString : string) :
  0 <= k <= 100 -> 1 <= resolution <= 6 ->
  percentOfMax {| number := Number_of_Z k; unitString := unitString |} resolution
  = Number_of_Z (k * (256 ^ resolution - 1) / 100).
Proof.
  intros Hk Hres. apply Number_eqb_eq.
  apply (forallb_seqZ
           (fun resolution =>
              Number_eqb
                (percentOfMax {| number := Number_of_Z k; unitString := unitString |}
                   resolution)
                (Number_of_Z (k * (256 ^ resolution - 1) / 100)))
           1 6); [| lia].
  apply (forallb_seqZ
           (fun k =>
              forallb
                (fun resolution =>
                   Number_eqb
                     (percentOfMax
                        {| number := Number_of_Z k; unitString := unitString |}
                        resolution)
                     (Number_of_Z (k * (256 ^ resolution - 1) / 100)))
                (seqZ 1 6))
           0 101); [vm_compute; reflexivity | lia].
Qed.

(** *** The operations against the Standard Library's floats *)

(** The quotient, the product and the difference of the model are those
    [SpecFloat] computes for binary64, at the numbers the examples of
    this development turn on: 63.52941176470588 / 100, that quotient
    times 255, and 2^56 - 1. *)
Example js_div_as_SpecFloat :
  js_div (round64 (6352941176470588 # 100000000000000)) (Number_of_Z 100)
  = Number_of_spec
      (SFdiv 53 1024
         (SFdiv 53 1024 (S754_finite false 6352941176470588 0)
            (S754_finite false 100000000000000 0))
         (spec_of_Z 100)).
Proof. vm_compute. reflexivity. Qed.

Example js_mul_as_SpecFloat :
  js_mul (js_div (round64 (6352941176470588 # 100000000000000)) (Number_of_Z 100))
         (Number_of_Z 255)
  = Number_of_spec
      (SFmul 53 1024
         (SFdiv 53 1024
            (SFdiv 53 1024 (S754_finite false 6352941176470588 0)
               (S754_finite false 100000000000000 0))
            (spec_of_Z 100))
         (spec_of_Z 255)).
Proof. vm_compute. reflexivity. Qed.

Example js_sub_as_SpecFloat :
  js_sub (Math_pow 256 7) (Number_of_Z 1)
  = Number_of_spec (SFsub 53 1024 (spec_of_Z (256 ^ 7)) (spec_of_Z 1)).
Proof. vm_compute. reflexivity. Qed.

Example one_tenth : round64 (1 # 10) = Finite (3602879701896397 # 36028797018963968).
Proof. vm_compute. reflexivity. Qed.

Example largest_double :
  round64 (inject_Z (2 ^ 1024 - 2 ^ 970 - 1)) = Number_of_Z (2 ^ 1024 - 2 ^ 971)
  /\ round64 (inject_Z (2 ^ 1024 - 2 ^ 970)) = Infinity.
Proof. split; vm_compute; reflexivity. Qed.

End Arithmetic.

(** * The cache is transparent *)

Section Refinement.
Context {T : Types} {X : Collaborators}.

Lemma slot_get_set_same {A : Type} (s : Slot A) (v : A) (c : Cache) :
  slot_get s (slot_set s v c) = Some v.
Proof. destruct s; reflexivity. Qed.

Lemma slot_get_set_other {A B : Type} (s : Slot A) (s' : Slot B) (v : A) (c : Cache) :
  slot_tag s' <> slot_tag s ->
  slot_get s' (slot_set s v c) = slot_get s' c.
Proof. destruct s, s'; simpl; intros H; try reflexivity; exfalso; apply H; reflexivity. Qed.

Lemma definition_with_cache (c : Cache) (ch : CoarseChannel) :
  definition (with_cache c ch) = definition ch.
Proof. reflexivity. Qed.

(** Storing the value a property has by definition keeps the cache
    coherent. *)
Lemma coherent_store {A : Type} (s : Slot A) (v : A) (E : option nat) (ch : CoarseChannel) :
  coherent_except E ch ->
  slot_def s (definition ch) = inr v ->
  coherent_except E (with_cache (slot_set s v (_cache ch)) ch).
Proof.
  intros Hc Hv B s' w Hget. rewrite definition_with_cache.
  specialize (Hc B s' w).
  destruct s, s'; simpl in Hget;
    first [ exact (Hc Hget)
          | injection Hget as <-; right; exact Hv ].
Qed.

Lemma coherent_empty (E : option nat) (ch : CoarseChannel) :
  _cache ch = empty_cache -> coherent_except E ch.
Proof. intros Hc A s v. rewrite Hc. destruct s; discriminate. Qed.

Lemma refines_ret {A : Type} (a : A) : refines (ret a) (ret a).
Proof. intros ch Hc. exists ch. auto. Qed.

Lemma refines_throw {A : Type} (e : JsError) : refines (throw (A := A) e) (throw e).
Proof. intros ch Hc. exists ch. auto. Qed.

Lemma refines_this : refines this this.
Proof. intros ch Hc. exists ch. auto. Qed.

Lemma refines_bind {A B : Type} (c : M A) (p : P A) (f : A -> M B) (q : A -> P B) :
  refines c p ->
  (forall a, refines (f a) (q a)) ->
  refines (bind c f) (bind p q).
Proof.
  intros Hc Hf ch Hcoh. simpl. unfold M_bind, P_bind.
  destruct (Hc ch Hcoh) as (ch1 & -> & Hcoh1 & Hdef1).
  destruct (p (definition ch)) as [e | a].
  - exists ch1. auto.
  - destruct (Hf a ch1 Hcoh1) as (ch2 & -> & Hcoh2 & Hdef2).
    exists ch2. rewrite Hdef1, Hdef2 in *. auto.
Qed.

Lemma refines_lazily {A : Type} (s : Slot A) (c : M A) (p : P A) :
  refines c p ->
  (forall d, slot_def s d = p d) ->
  refines (lazily s c) (lazily s p).
Proof.
  intros Hc Hs ch Hcoh. simpl. unfold M_lazily, M_bind, read_cache, P_lazily.
  destruct (slot_get s (_cache ch)) as [v |] eqn:Hget.
  - exists ch. destruct (Hcoh _ s v Hget) as [? | Hv]; [discriminate |].
    rewrite <- Hs, Hv. auto.
  - destruct (Hc ch Hcoh) as (ch1 & -> & Hcoh1 & Hdef1).
    destruct (p (definition ch)) as [e | v] eqn:Hp.
    + exists ch1. auto.
    + simpl. eexists. split; [reflexivity |]. split.
      * apply coherent_store; [assumption |]. rewrite Hdef1, Hs. exact Hp.
      * rewrite definition_with_cache. exact Hdef1.
Qed.

Lemma refines_mapM {A B : Type} (f : A -> M B) (q : A -> P B) (l : list A) :
  (forall a, refines (f a) (q a)) ->
  refines (mapM f l) (mapM q l).
Proof.
  intros Hf. induction l as [| x l IH]; simpl.
  - apply (refines_ret []).
  - apply (refines_bind (f x) (q x)); [apply Hf |]. intros y.
    apply (refines_bind (mapM f l) (mapM q l)); [exact IH |]. intros ys.
    apply (refines_ret (y :: ys)).
Qed.

Lemma refines_findM {A : Type} (f : A -> M bool) (q : A -> P bool) (l : list A) :
  (forall a, refines (f a) (q a)) ->
  refines (findM f l) (findM q l).
Proof.
  intros Hf. induction l as [| x l IH]; simpl.
  - apply (refines_ret None).
  - apply (refines_bind (f x) (q x)); [apply Hf |]. intros [|].
    + apply (refines_ret (Some x)).
    + exact IH.
Qed.

(** One step of a refinement proof that follows the code. *)
Ltac refines_step :=
  first [ apply refines_ret
        | apply refines_throw
        | apply refines_this
        | apply refines_lazily; [| reflexivity]
        | apply refines_mapM; intros ?
        | apply refines_findM; intros ?
        | apply refines_bind; [| intros ?]
        | assumption
        | match goal with
          | |- refines (match ?x with _ => _ end) _ => destruct x
          end ].

Lemma refines_ensureProperResolution (r : Number) :
  refines (ensureProperResolution r) (ensureProperResolution r).
Proof. unfold ensureProperResolution. repeat refines_step. Qed.

Lemma refines_dmxValueResolution : refines dmxValueResolution dmxValueResolution.
Proof. unfold dmxValueResolution. repeat refines_step. Qed.

Lemma refines_capabilities : refines capabilities capabilities.
Proof.
  pose proof refines_dmxValueResolution.
  unfold capabilities. repeat refines_step.
Qed.

Lemma refines_typeMatches (entry : string * TableValue) :
  refines (typeMatches entry) (typeMatches entry).
Proof.
  pose proof refines_capabilities.
  unfold typeMatches. repeat refines_step.
Qed.

Lemma refines_type : refines type type.
Proof.
  pose proof refines_typeMatches.
  unfold type. repeat refines_step.
Qed.

Lemma refines_color : refines color color.
Proof.
  pose proof refines_capabilities.
  unfold color. repeat refines_step.
Qed.

Lemma refines_fineChannels : refines fineChannels fineChannels.
Proof. unfold fineChannels. repeat refines_step. Qed.

Lemma refines_isInverted : refines isInverted isInverted.
Proof.
  pose proof refines_capabilities.
  unfold isInverted. repeat refines_step.
Qed.

Lemma refines_canCrossfade : refines canCrossfade canCrossfade.
Proof.
  pose proof refines_capabilities. pose proof refines_type.
  unfold canCrossfade. repeat refines_step.
Qed.

Lemma refines_switchingChannelAliases :
  refines switchingChannelAliases switchingChannelAliases.
Proof.
  pose proof refines_capabilities.
  unfold switchingChannelAliases. repeat refines_step.
Qed.

Lemma refines_switchingChannels : refines switchingChannels switchingChannels.
Proof.
  pose proof refines_switchingChannelAliases.
  unfold switchingChannels. repeat refines_step.
Qed.

Lemma refines_switchToChannelKeys : refines switchToChannelKeys switchToChannelKeys.
Proof.
  pose proof refines_switchingChannels.
  unfold switchToChannelKeys. repeat refines_step.
Qed.

Lemma refines_isHelpWanted : refines isHelpWanted isHelpWanted.
Proof.
  pose proof refines_capabilities.
  unfold isHelpWanted. repeat refines_step.
Qed.

Lemma refines_liftResult {A : Type} (r : Result A) : refines (liftResult r) (liftResult r).
Proof. unfold liftResult. repeat refines_step. Qed.

Lemma refines_rawDefaultValue : refines rawDefaultValue rawDefaultValue.
Proof.
  pose proof refines_dmxValueResolution.
  unfold rawDefaultValue. repeat (apply refines_liftResult || refines_step).
Qed.

Lemma refines_rawHighlightValue : refines rawHighlightValue rawHighlightValue.
Proof.
  pose proof refines_dmxValueResolution.
  unfold rawHighlightValue. repeat (apply refines_liftResult || refines_step).
Qed.

(** *** The resolution the values are declared in *)

Lemma dmxValueResolution_def (d : ChannelDef) :
  dmxValueResolution (m := P) d = inr (declaredResolution d).
Proof.
  unfold dmxValueResolution, declaredResolution. simpl.
  unfold P_lazily, P_bind, P_this.
  destruct (j_dmxValueResolution (def_jsonObject d)); reflexivity.
Qed.

Lemma maxResolution_pos (d : ChannelDef) : 1 <= maxResolution d.
Proof. unfold maxResolution. lia. Qed.

Lemma declaredResolution_pos (d : ChannelDef) : 1 <= declaredResolution d.
Proof.
  unfold declaredResolution.
  destruct (j_dmxValueResolution (def_jsonObject d)) as [[]|]; simpl;
    unfold RESOLUTION_8BIT, RESOLUTION_16BIT, RESOLUTION_24BIT;
    try lia; apply maxResolution_pos.
Qed.

(** [scaleDmxValue] accepts the resolutions the loop hands it. *)
Lemma scaleDmxValue_scaled (rawValue : Number) (fromResolution toResolution : Z) :
  1 <= fromResolution -> 1 <= toResolution ->
  scaleDmxValue rawValue fromResolution toResolution
  = inr (scaled rawValue fromResolution toResolution).
Proof.
  intros Hf Ht. unfold scaleDmxValue, scaled.
  destruct (Z.leb_spec fromResolution 0); [lia |].
  destruct (Z.leb_spec toResolution 0); [lia |]. simpl.
  destruct (fromResolution <=? toResolution); reflexivity.
Qed.

(** *** The loop that fills a slot with scaled values *)

Lemma M_bind_value {A B : Type} (c : M A) (f : A -> M B) (ch ch' : CoarseChannel) (a : A) :
  c ch = (ch', inr a) -> M_bind c f ch = f a ch'.
Proof. intros H. unfold M_bind. rewrite H. reflexivity. Qed.

Lemma M_bind_error {A B : Type} (c : M A) (f : A -> M B) (ch ch' : CoarseChannel)
      (e : JsError) :
  c ch = (ch', inl e) -> M_bind c f ch = (ch', inl e).
Proof. intros H. unfold M_bind. rewrite H. reflexivity. Qed.

Lemma coherent_weaken (E : option nat) (ch : CoarseChannel) :
  coherent ch -> coherent_except E ch.
Proof.
  intros Hc A s v Hget. destruct (Hc A s v Hget) as [? | ?]; [discriminate | auto].
Qed.

Lemma coherent_except_overwrite {A : Type} (s : Slot A) (v : A) (ch : CoarseChannel) :
  coherent_except (Some (slot_tag s)) ch ->
  coherent_except (Some (slot_tag s)) (with_cache (slot_set s v (_cache ch)) ch).
Proof.
  intros Hc B s' w Hget. rewrite definition_with_cache.
  destruct (decide (slot_tag s' = slot_tag s)) as [Heq | Hne].
  - left. rewrite Heq. reflexivity.
  - simpl in Hget. rewrite slot_get_set_other in Hget by assumption.
    exact (Hc B s' w Hget).
Qed.

Lemma coherent_restore {A : Type} (s : Slot A) (ch : CoarseChannel) :
  coherent_except (Some (slot_tag s)) ch ->
  (forall v, slot_get s (_cache ch) = Some v -> slot_def s (definition ch) = inr v) ->
  coherent ch.
Proof.
  intros Hc Hs B s' w Hget. right.
  destruct (Hc B s' w Hget) as [Heq | Hv]; [| exact Hv].
  destruct s, s'; simpl in Heq; try discriminate Heq; exact (Hs w Hget).
Qed.

(** Reading [dmxValueResolution] while a slot of scaled values is being
    filled: the value is the declared resolution and the slot is left
    alone. *)
Lemma dmxValueResolution_run (E : option nat) (ch : CoarseChannel) :
  coherent_except E ch ->
  E <> Some (slot_tag slot_dmxValueResolution) ->
  exists ch',
    dmxValueResolution (m := M) ch = (ch', inr (declaredResolution (definition ch)))
    /\ coherent_except E ch'
    /\ definition ch' = definition ch
    /\ c_defaultValuePerResolution (_cache ch') = c_defaultValuePerResolution (_cache ch)
    /\ c_highlightValuePerResolution (_cache ch') = c_highlightValuePerResolution (_cache ch).
Proof.
  intros Hc HE. unfold dmxValueResolution. simpl.
  unfold M_lazily, M_bind, read_cache, M_this. simpl.
  destruct (c_dmxValueResolution (_cache ch)) as [v |] eqn:Hget.
  - exists ch. destruct (Hc _ slot_dmxValueResolution v Hget) as [? | Hv]; [congruence |].
    assert (Heq : inr v = @inr JsError Z (declaredResolution (definition ch))).
    { rewrite <- Hv. apply dmxValueResolution_def. }
    injection Heq as ->. auto.
  - assert (Hrun : forall r : Z,
               (match j_dmxValueResolution (_jsonObject ch) with
                | Some s => M_ret (resolutionStringToResolution s)
                | None => M_ret (maxResolution (definition ch))
                end : M Z) ch
               = (ch, inr (declaredResolution (definition ch)))).
    { intros _. unfold declaredResolution. simpl.
      destruct (j_dmxValueResolution (_jsonObject ch)); reflexivity. }
    rewrite (Hrun 0). simpl. eexists. split; [reflexivity |].
    split; [| auto].
    apply (coherent_store slot_dmxValueResolution); [assumption |].
    simpl. apply dmxValueResolution_def.
Qed.

Section Fill.
Variable s : Slot (gmap Z Number).
Hypothesis table_slot :
  s = slot_defaultValuePerResolution \/ s = slot_highlightValuePerResolution.
Variable rawValue : Number.

Lemma table_slot_kept (ch ch' : CoarseChannel) :
  c_defaultValuePerResolution (_cache ch') = c_defaultValuePerResolution (_cache ch) ->
  c_highlightValuePerResolution (_cache ch') = c_highlightValuePerResolution (_cache ch) ->
  slot_get s (_cache ch') = slot_get s (_cache ch).
Proof. destruct table_slot as [-> | ->]; simpl; auto. Qed.

Lemma table_slot_not_resolution :
  Some (slot_tag s) <> Some (slot_tag slot_dmxValueResolution).
Proof. destruct table_slot as [-> | ->]; discriminate. Qed.

Lemma fill_loop (l : list Z) :
  forall (ch : CoarseChannel) (t : gmap Z Number),
    coherent_except (Some (slot_tag s)) ch ->
    slot_get s (_cache ch) = Some t ->
    Forall (fun i => 1 <= i) l ->
    exists ch',
      forM l (fun i =>
                M_bind dmxValueResolution (fun resolution =>
                M_bind (liftResult (scaleDmxValue rawValue resolution i)) (fun scaled =>
                write_entry s i scaled))) ch
      = (ch', inr tt)
      /\ coherent_except (Some (slot_tag s)) ch'
      /\ definition ch' = definition ch
      /\ slot_get s (_cache ch')
         = Some (perResolution rawValue (declaredResolution (definition ch)) l t).
Proof.
  induction l as [| i l IH]; intros ch t Hc Hget Hl.
  - exists ch. simpl. auto.
  - inversion Hl as [| ? ? Hi Hl']; subst.
    destruct (dmxValueResolution_run _ ch Hc table_slot_not_resolution)
      as (ch1 & Hrun & Hc1 & Hd1 & Hk1 & Hk1').
    pose proof (table_slot_kept ch ch1 Hk1 Hk1') as Hget1. rewrite Hget in Hget1.
    set (r := declaredResolution (definition ch)) in *.
    set (ch2 := with_cache (slot_set s (<[i := scaled rawValue r i]> t) (_cache ch1)) ch1).
    destruct (IH ch2 (<[i := scaled rawValue r i]> t))
      as (ch3 & Hrun3 & Hc3 & Hd3 & Hget3); [| | assumption |].
    + apply coherent_except_overwrite. assumption.
    + apply slot_get_set_same.
    + exists ch3. cbn [forM].
      rewrite (M_bind_value _ _ ch ch2 tt).
      * subst ch2. rewrite definition_with_cache, Hd1 in *. auto.
      * rewrite (M_bind_value _ _ ch ch1 r Hrun).
        rewrite scaleDmxValue_scaled by (subst r; auto using declaredResolution_pos).
        rewrite (M_bind_value _ _ ch1 ch1 (scaled rawValue r i)) by reflexivity.
        unfold write_entry.
        rewrite (M_bind_value _ _ ch1 ch1 (Some t))
          by (unfold read_cache; rewrite Hget1; reflexivity).
        reflexivity.
Qed.

Lemma fillPerResolution_run (ch : CoarseChannel) :
  coherent ch ->
  slot_def s (definition ch)
  = inr (perResolution rawValue (declaredResolution (definition ch))
           (seqZ 1 (maxResolution (definition ch))) ∅) ->
  exists ch',
    fillPerResolution s rawValue ch = (ch', inr tt)
    /\ coherent ch'
    /\ definition ch' = definition ch
    /\ slot_get s (_cache ch')
       = Some (perResolution rawValue (declaredResolution (definition ch))
                 (seqZ 1 (maxResolution (definition ch))) ∅).
Proof.
  intros Hc Hdef. unfold fillPerResolution.
  set (ch0 := with_cache (slot_set s ∅ (_cache ch)) ch).
  rewrite (M_bind_value _ _ ch ch0 tt) by reflexivity.
  rewrite (M_bind_value _ _ ch0 ch0 (definition ch0)) by reflexivity.
  destruct (fill_loop (seqZ 1 (maxResolution (definition ch0))) ch0 ∅)
    as (ch1 & Hrun & Hc1 & Hd1 & Hget1).
  - apply coherent_except_overwrite, coherent_weaken, Hc.
  - apply slot_get_set_same.
  - apply Forall_forall. intros i Hi. apply elem_of_seqZ in Hi. lia.
  - exists ch1. rewrite Hrun. subst ch0. rewrite definition_with_cache in *.
    repeat split; try assumption.
    apply (coherent_restore s); [assumption |].
    intros v Hv. rewrite Hget1 in Hv. injection Hv as <-. rewrite Hd1. exact Hdef.
Qed.

End Fill.

Section ValueMethods.
Variable s : Slot (gmap Z Number).
Hypothesis table_slot :
  s = slot_defaultValuePerResolution \/ s = slot_highlightValuePerResolution.
Variable rawM : M Number.
Variable rawP : P Number.
Hypothesis refines_raw : refines rawM rawP.
Hypothesis slot_def_table : forall d, slot_def s d = valuePerResolution_def rawP d.

Lemma valuePerResolution_def_value (d : ChannelDef) (raw : Number) :
  rawP d = inr raw ->
  valuePerResolution_def rawP d
  = inr (perResolution raw (declaredResolution d) (seqZ 1 (maxResolution d)) ∅).
Proof.
  intros H. unfold valuePerResolution_def, P_bind.
  rewrite H, dmxValueResolution_def. reflexivity.
Qed.

Lemma valuePerResolution_def_error (d : ChannelDef) (e : JsError) :
  rawP d = inl e -> valuePerResolution_def rawP d = inl e.
Proof. intros H. unfold valuePerResolution_def, P_bind. rewrite H. reflexivity. Qed.

(** The shape both value methods have. *)
Lemma refines_valueWithResolution (r : Number) :
  refines
    (M_bind (ensureProperResolution r) (fun _ =>
     M_bind (read_cache s) (fun cached =>
     M_bind match cached with
            | Some _ => M_ret tt
            | None => M_bind rawM (fun raw => fillPerResolution s raw)
            end (fun _ =>
     read_entry s r))))
    (P_bind (ensureProperResolution r) (fun _ =>
     P_bind (valuePerResolution_def rawP) (fun table =>
     P_ret (js_index table r)))).
Proof.
  intros ch Hcoh.
  destruct (refines_ensureProperResolution r ch Hcoh) as (ch0 & Hrun0 & Hc0 & Hd0).
  unfold P_bind at 1.
  destruct (ensureProperResolution (m := P) r (definition ch)) as [e | []].
  { exists ch0. rewrite (M_bind_error _ _ _ _ _ Hrun0). auto. }
  rewrite (M_bind_value _ _ _ _ _ Hrun0).
  rewrite (M_bind_value _ _ ch0 ch0 (slot_get s (_cache ch0))) by reflexivity.
  unfold P_bind. rewrite <- Hd0.
  destruct (slot_get s (_cache ch0)) as [t |] eqn:Hget.
  - destruct (Hc0 _ s t Hget) as [? | Ht]; [discriminate |].
    rewrite slot_def_table in Ht. rewrite Ht.
    rewrite (M_bind_value _ _ ch0 ch0 tt) by reflexivity.
    exists ch0. unfold read_entry.
    rewrite (M_bind_value _ _ ch0 ch0 (Some t))
      by (unfold read_cache; rewrite Hget; reflexivity).
    auto.
  - destruct (refines_raw ch0 Hc0) as (ch1 & Hrun1 & Hc1 & Hd1).
    destruct (rawP (definition ch0)) as [e | raw] eqn:Hraw.
    + exists ch1. rewrite (valuePerResolution_def_error _ _ Hraw).
      rewrite (M_bind_error _ _ ch0 ch1 e)
        by (apply M_bind_error; exact Hrun1).
      rewrite Hd1. auto.
    + rewrite (valuePerResolution_def_value _ _ Hraw).
      destruct (fillPerResolution_run s table_slot raw ch1 Hc1)
        as (ch2 & Hrun2 & Hc2 & Hd2 & Hget2).
      { rewrite slot_def_table, Hd1. apply valuePerResolution_def_value, Hraw. }
      exists ch2.
      rewrite (M_bind_value _ _ ch0 ch2 tt)
        by (rewrite (M_bind_value _ _ _ _ _ Hrun1); exact Hrun2).
      unfold read_entry.
      rewrite (M_bind_value _ _ ch2 ch2 _ eq_refl).
      rewrite Hd1 in Hget2. rewrite Hget2.
      split; [reflexivity |]. split; [assumption | congruence].
Qed.

End ValueMethods.

Lemma refines_getDefaultValueWithResolution (r : Number) :
  refines (getDefaultValueWithResolution r) (getDefaultValueWithResolution_def r).
Proof.
  apply (refines_valueWithResolution slot_defaultValuePerResolution);
    auto using refines_rawDefaultValue.
Qed.

Lemma refines_getHighlightValueWithResolution (r : Number) :
  refines (getHighlightValueWithResolution r) (getHighlightValueWithResolution_def r).
Proof.
  apply (refines_valueWithResolution slot_highlightValuePerResolution);
    auto using refines_rawHighlightValue.
Qed.

Lemma refines_defaultValue : refines defaultValue defaultValue_def.
Proof.
  apply (refines_bind M_this P_this
           (fun d => getDefaultValueWithResolution (Number_of_Z (maxResolution d)))
           (fun d => getDefaultValueWithResolution_def (Number_of_Z (maxResolution d))));
    [apply refines_this |].
  intros d. apply refines_getDefaultValueWithResolution.
Qed.

Lemma refines_highlightValue : refines highlightValue highlightValue_def.
Proof.
  apply (refines_bind M_this P_this
           (fun d => getHighlightValueWithResolution (Number_of_Z (maxResolution d)))
           (fun d => getHighlightValueWithResolution_def (Number_of_Z (maxResolution d))));
    [apply refines_this |].
  intros d. apply refines_getHighlightValueWithResolution.
Qed.

(** *** Every channel object is coherent *)

Lemma refines_after {A : Type} (c : M A) (p : P A) (ch : CoarseChannel) :
  refines c p -> coherent ch ->
  coherent (after c ch) /\ definition (after c ch) = definition ch.
Proof.
  intros Hr Hc. destruct (Hr ch Hc) as (ch' & Hrun & Hc' & Hd').
  unfold after. rewrite Hrun. auto.
Qed.

Lemma refines_after_coherent {A : Type} (c : M A) (p : P A) (ch : CoarseChannel) :
  refines c p -> coherent ch -> coherent (after c ch).
Proof. intros Hr Hc. apply (refines_after c p ch Hr Hc). Qed.

Lemma refines_result {A : Type} (c : M A) (p : P A) (ch : CoarseChannel) :
  refines c p -> coherent ch -> result c ch = p (definition ch).
Proof.
  intros Hr Hc. destruct (Hr ch Hc) as (ch' & Hrun & _).
  unfold result. rewrite Hrun. reflexivity.
Qed.

Lemma exec_coherent (c : Call) (ch : CoarseChannel) :
  coherent ch -> coherent (exec c ch).
Proof.
  intros Hc. destruct c; cbn [exec];
    try (eapply refines_after_coherent; [| exact Hc];
         eauto using refines_type, refines_color, refines_fineChannels,
           refines_dmxValueResolution, refines_capabilities, refines_isInverted,
           refines_canCrossfade, refines_switchingChannelAliases,
           refines_switchingChannels, refines_switchToChannelKeys,
           refines_isHelpWanted, refines_defaultValue, refines_highlightValue,
           refines_ensureProperResolution, refines_getDefaultValueWithResolution,
           refines_getHighlightValueWithResolution).
  apply coherent_empty. reflexivity.
Qed.

Lemma reachable_coherent (ch : CoarseChannel) : reachable ch -> coherent ch.
Proof.
  induction 1 as [key0 jsonObject fixture | c ch _ IH].
  - apply coherent_empty. reflexivity.
  - apply exec_coherent, IH.
Qed.

End Refinement.

(** Unfolds the effects of a property by definition, leaving the getters
    it reads folded. *)
Ltac by_definition :=
  cbn [bind ret throw this lazily P_monad];
  unfold P_lazily, P_bind, P_ret, P_throw, P_this.

(** * The type of a channel *)

Section Classification.
Context {T : Types} {X : Collaborators}.

Lemma includes_In (tags : list string) (tag : string) :
  includes tags tag = true <-> In tag tags.
Proof.
  unfold includes. rewrite existsb_exists. split.
  - intros (x & Hx & Heq). apply String.eqb_eq in Heq. subst. exact Hx.
  - intros H. exists tag. split; [exact H | apply String.eqb_refl].
Qed.

Lemma entry_matchesb_spec (caps : list Capability) (entry : string * TableValue) :
  entry_matchesb caps entry = true <-> entry_matches caps entry.
Proof.
  unfold entry_matchesb, entry_matches.
  rewrite andb_true_iff, existsb_exists.
  split; intros [Hreq Hpred]; split.
  - destruct Hreq as (cap & Hin & Hinc). exists cap. split; [exact Hin |].
    apply includes_In. exact Hinc.
  - intros p Hp. rewrite Hp in Hpred. exact Hpred.
  - destruct Hreq as (cap & Hin & Hinc). exists cap. split; [exact Hin |].
    apply includes_In. exact Hinc.
  - destruct (predicate (normalize (snd entry))) as [p |]; [apply Hpred |]; reflexivity.
Qed.

Lemma find_first {A : Type} (f : A -> bool) (l : list A) :
  match List.find f l with
  | Some x =>
      exists before later,
        l = (before ++ x :: later)%list /\ f x = true
        /\ forall y, In y before -> f y = false
  | None => forall y, In y l -> f y = false
  end.
Proof.
  induction l as [| a l IH]; simpl.
  - intros y [].
  - destruct (f a) eqn:Ha.
    + exists [], l. split; [reflexivity |]. split; [exact Ha |]. intros y [].
    + destruct (List.find f l) as [x |].
      * destruct IH as (before & later & -> & Hx & Hb).
        exists (a :: before), later. split; [reflexivity |]. split; [exact Hx |].
        intros y [<- | Hy]; auto.
      * intros y [<- | Hy]; auto.
Qed.

(** What [type] computes is the first match of the table. *)
Lemma classify_first_match (caps : list Capability) :
  first_match caps channelTypeConstraints (classify caps).
Proof.
  unfold classify.
  pose proof (find_first (entry_matchesb caps) channelTypeConstraints) as H.
  destruct (List.find (entry_matchesb caps) channelTypeConstraints) as [entry |].
  - destruct H as (before & later & Htable & Hm & Hb). left.
    exists before, entry, later. split; [exact Htable |]. split.
    + assert (Hin : In entry channelTypeConstraints).
      { rewrite Htable. apply in_or_app. right. left. reflexivity. }
      clear -Hin. unfold channelTypeConstraints in Hin. simpl in Hin.
      repeat (destruct Hin as [<- | Hin]; [reflexivity |]). destruct Hin.
    + split; [apply entry_matchesb_spec, Hm |].
      intros e He Hmatch. apply entry_matchesb_spec in Hmatch.
      rewrite (Hb e He) in Hmatch. discriminate.
  - right. split; [reflexivity |].
    intros e He Hmatch. apply entry_matchesb_spec in Hmatch.
    rewrite (H e He) in Hmatch. discriminate.
Qed.

Lemma typeMatches_def (d : ChannelDef) (caps : list Capability)
      (entry : string * TableValue) :
  capabilities (m := P) d = inr caps ->
  typeMatches (m := P) entry d = inr (entry_matchesb caps entry).
Proof.
  intros Hcaps. unfold typeMatches, entry_matchesb. by_definition.
  rewrite Hcaps.
  destruct (predicate (normalize (snd entry))) as [p |]; [rewrite Hcaps |]; reflexivity.
Qed.

Lemma findM_typeMatches_def (d : ChannelDef) (caps : list Capability)
      (table : list (string * TableValue)) :
  capabilities (m := P) d = inr caps ->
  findM (m := P) typeMatches table d = inr (List.find (entry_matchesb caps) table).
Proof.
  intros Hcaps. induction table as [| entry table IH]; [reflexivity |].
  cbn [findM List.find]. by_definition. rewrite (typeMatches_def d caps entry Hcaps).
  destruct (entry_matchesb caps entry); [reflexivity | exact IH].
Qed.

Lemma type_def (d : ChannelDef) (caps : list Capability) :
  capabilities (m := P) d = inr caps ->
  type (m := P) d = inr (classify caps).
Proof.
  intros Hcaps. unfold type, classify. by_definition.
  rewrite (findM_typeMatches_def d caps _ Hcaps). reflexivity.
Qed.

(** On a channel object, the properties are the ones by definition. *)
Lemma reachable_capabilities (ch : CoarseChannel) :
  reachable ch ->
  result capabilities ch = capabilities (m := P) (definition ch).
Proof.
  intros Hr. apply refines_result; [apply refines_capabilities |].
  apply reachable_coherent, Hr.
Qed.

Lemma reachable_type (ch : CoarseChannel) (caps : list Capability) :
  reachable ch ->
  result capabilities ch = inr caps ->
  result type ch = inr (classify caps).
Proof.
  intros Hr Hcaps. rewrite reachable_capabilities in Hcaps by assumption.
  rewrite (refines_result type type ch refines_type (reachable_coherent ch Hr)).
  apply type_def, Hcaps.
Qed.

(** C1: on every channel, the type getter returns the name of the first
    entry of the rule table, taken in its declaration order (Single Color,
    Multi-Color, Pan, Tilt, Focus, Zoom, Iris, Gobo, Prism, Color
    Temperature, Effect, Strobe, Shutter, Fog, Speed, Maintenance,
    Intensity, NoFunction), for which some capability of the channel has a
    type among the entry's required tags and the entry's predicate, when it
    has one, holds of the channel's capability list; when no entry matches,
    the type is Unknown. *)
Theorem type_is_first_match (ch : CoarseChannel) (caps : list Capability) :
  reachable ch ->
  result capabilities ch = inr caps ->
  List.map fst channelTypeConstraints
  = ["Single Color"; "Multi-Color"; "Pan"; "Tilt"; "Focus"; "Zoom"; "Iris"; "Gobo";
     "Prism"; "Color Temperature"; "Effect"; "Strobe"; "Shutter"; "Fog"; "Speed";
     "Maintenance"; "Intensity"; "NoFunction"]
  /\ exists t,
      result type ch = inr t
      /\ first_match caps channelTypeConstraints t.
Proof.
  intros Hr Hcaps. split; [reflexivity |].
  exists (classify caps). split.
  - apply reachable_type; assumption.
  - apply classify_first_match.
Qed.

End Classification.

Section GoboScenario.
Context {T : Types} {X : Collaborators}.

Lemma classify_gobo (cap : Capability) :
  cap_type cap = "WheelSlot" ->
  cap_wheels cap = [Some {| wheel_type := "Gobo" |}] ->
  classify [cap] = "Gobo".
Proof.
  intros Htype Hwheels.
  unfold classify, channelTypeConstraints, entry_matchesb, multiColorPredicate,
    goboPredicate, includes.
  cbn. rewrite Htype, Hwheels. reflexivity.
Qed.

(** C7: a channel whose only capability is a WheelSlot with the wheels
    [{type: 'Gobo'}] (so it has no ColorPreset capability) is of type Gobo
    and not Effect, although the Effect entry lists WheelSlot too: the
    Gobo entry comes before the Effect entry, its predicate holds, and the
    predicate of Multi-Color, the one entry before it that requires
    WheelSlot, fails. *)
Theorem wheel_slot_of_gobos_is_Gobo (ch : CoarseChannel) (cap : Capability) :
  reachable ch ->
  result capabilities ch = inr [cap] ->
  cap_type cap = "WheelSlot" ->
  cap_wheels cap = [Some {| wheel_type := "Gobo" |}] ->
  result type ch = inr "Gobo"
  /\ result type ch <> inr "Effect"
  /\ goboPredicate [cap] = true
  /\ multiColorPredicate [cap] = false
  /\ (exists before between after tags,
        channelTypeConstraints
        = (before ++ ("Gobo", ConstraintsObject
                                {| required := ["WheelSlot"; "WheelShake"];
                                   predicate := Some goboPredicate |})
             :: between ++ ("Effect", TagArray tags) :: after)%list
        /\ In "WheelSlot" tags).
Proof.
  intros Hr Hcaps Htype Hwheels.
  assert (Ht : result type ch = inr "Gobo").
  { rewrite (reachable_type ch [cap] Hr Hcaps).
    rewrite (classify_gobo cap Htype Hwheels). reflexivity. }
  split; [exact Ht |]. split; [rewrite Ht; discriminate |].
  split; [unfold goboPredicate; cbn; rewrite Hwheels; reflexivity |].
  split; [unfold multiColorPredicate; cbn; rewrite Htype, Hwheels; reflexivity |].
  exists (firstn 7 channelTypeConstraints),
         [("Prism", TagArray ["Prism"]);
          ("Color Temperature", TagArray ["ColorTemperature"])],
         (skipn 11 channelTypeConstraints),
         ["Effect"; "EffectParameter"; "Frost"; "FrostEffect"; "SoundSensitivity";
          "WheelSlot"].
  split; [reflexivity |]. cbn. auto 10.
Qed.

End GoboScenario.

(** * Inversion and crossfading *)

Section Fading.
Context {T : Types} {X : Collaborators}.

Lemma isInverted_def (d : ChannelDef) (caps : list Capability) :
  capabilities (m := P) d = inr caps ->
  isInverted (m := P) d
  = inr (let proportionalCaps := List.filter (fun cap => negb (cap_isStep cap)) caps in
         (0 <? length proportionalCaps)%nat && forallb cap_isInverted proportionalCaps).
Proof. intros Hcaps. unfold isInverted. by_definition. rewrite Hcaps. reflexivity. Qed.

Lemma canCrossfade_def (d : ChannelDef) (caps : list Capability) :
  capabilities (m := P) d = inr caps ->
  canCrossfade (m := P) d
  = inr (if (length caps =? 1)%nat
         then negb (isConstant d) && negb (String.eqb (classify caps) "NoFunction")
         else forallb (fun '(index, cap) => crossfadesToNext caps index cap)
                      (imap pair caps)
              && existsb (fun cap => negb (cap_isStep cap)) caps).
Proof.
  intros Hcaps. unfold canCrossfade. by_definition. rewrite Hcaps.
  destruct (length caps =? 1)%nat.
  - destruct (isConstant d); [reflexivity |].
    rewrite (type_def d caps Hcaps). reflexivity.
  - rewrite Hcaps.
    destruct (forallb _ _); [rewrite Hcaps |]; reflexivity.
Qed.

(** The callback of [every] holds at every index exactly when every
    capability crossfades to the one after it. *)
Lemma every_crossfadesToNext (caps : list Capability) :
  forallb (fun '(index, cap) => crossfadesToNext caps index cap) (imap pair caps) = true
  <-> forall i cap next,
        caps !! i = Some cap -> caps !! S i = Some next -> canCrossfadeTo cap next = true.
Proof.
  rewrite forallb_forall. split.
  - intros H i cap next Hi Hn.
    specialize (H (i, cap)). cbn beta iota in H.
    assert (Hin : In (i, cap) (imap pair caps)).
    { apply list_elem_of_In. apply (elem_of_lookup_imap_2 pair caps cap i Hi). }
    specialize (H Hin). unfold crossfadesToNext in H.
    replace (i + 1)%nat with (S i) in H by lia. rewrite Hn in H.
    apply lookup_lt_Some in Hn.
    destruct (Nat.eqb_spec (S i) (length caps)); [lia |]. exact H.
  - intros H [i cap] Hin.
    apply list_elem_of_In, elem_of_lookup_imap in Hin.
    destruct Hin as (j & c & Heq & Hj). injection Heq as -> ->.
    unfold crossfadesToNext. replace (j + 1)%nat with (S j) by lia.
    destruct (Nat.eqb_spec (S j) (length caps)) as [| Hne]; [reflexivity |].
    destruct (caps !! S j) as [next |] eqn:Hn.
    + apply (H j c next Hj Hn).
    + apply lookup_ge_None in Hn. apply lookup_lt_Some in Hj. lia.
Qed.

Lemma classify_NoFunction (cap : Capability) :
  cap_type cap = "NoFunction" -> classify [cap] = "NoFunction".
Proof.
  intros Htype.
  unfold classify, channelTypeConstraints, entry_matchesb, includes.
  cbn. rewrite Htype. reflexivity.
Qed.

Lemma reachable_canCrossfade (ch : CoarseChannel) (caps : list Capability) :
  reachable ch ->
  result capabilities ch = inr caps ->
  result canCrossfade ch
  = inr (if (length caps =? 1)%nat
         then negb (isConstant (definition ch))
              && negb (String.eqb (classify caps) "NoFunction")
         else forallb (fun '(index, cap) => crossfadesToNext caps index cap)
                      (imap pair caps)
              && existsb (fun cap => negb (cap_isStep cap)) caps).
Proof.
  intros Hr Hcaps. rewrite reachable_capabilities in Hcaps by assumption.
  rewrite (refines_result canCrossfade canCrossfade ch refines_canCrossfade
             (reachable_coherent ch Hr)).
  apply canCrossfade_def, Hcaps.
Qed.

(** C5: a channel with exactly one capability can crossfade exactly when
    it is not constant and its type is not NoFunction; a channel with two
    or more capabilities can crossfade exactly when every capability
    crossfades to the next one and at least one capability is not a step.
    In particular a channel whose only capability is of type NoFunction
    cannot crossfade. *)
Theorem canCrossfade_characterised (ch : CoarseChannel) (caps : list Capability) :
  reachable ch ->
  result capabilities ch = inr caps ->
  exists fades t,
    result canCrossfade ch = inr fades
    /\ result type ch = inr t
    /\ (length caps = 1%nat ->
        (fades = true <-> isConstant (definition ch) = false /\ t <> "NoFunction"))
    /\ ((2 <= length caps)%nat ->
        (fades = true <->
         (forall i cap next,
             caps !! i = Some cap -> caps !! S i = Some next ->
             canCrossfadeTo cap next = true)
         /\ exists cap, In cap caps /\ cap_isStep cap = false))
    /\ (forall cap, caps = [cap] -> cap_type cap = "NoFunction" -> fades = false).
Proof.
  intros Hr Hcaps. eexists. exists (classify caps).
  split; [apply (reachable_canCrossfade ch caps Hr Hcaps) |].
  split; [apply (reachable_type ch caps Hr Hcaps) |].
  split; [| split].
  - intros Hlen. rewrite Hlen. cbn [Nat.eqb].
    rewrite andb_true_iff, !negb_true_iff. split.
    + intros [Hconst Hneq]. split; [exact Hconst |].
      intros Heq. rewrite Heq in Hneq. discriminate.
    + intros [Hconst Hneq]. split; [exact Hconst |].
      apply String.eqb_neq. exact Hneq.
  - intros Hlen.
    destruct (Nat.eqb_spec (length caps) 1) as [Heq | _]; [lia |].
    rewrite andb_true_iff, every_crossfadesToNext, existsb_exists.
    split; intros [Hadj (cap & Hin & Hstep)]; (split; [exact Hadj |]);
      exists cap; (split; [exact Hin |]).
    + apply negb_true_iff. exact Hstep.
    + apply negb_true_iff. exact Hstep.
  - intros cap -> Htype. cbn [length Nat.eqb].
    rewrite (classify_NoFunction cap Htype). cbn. apply andb_false_r.
Qed.

Lemma no_proportional_caps (caps : list Capability) :
  (forall cap, In cap caps -> cap_isStep cap = true) ->
  List.filter (fun cap => negb (cap_isStep cap)) caps = [].
Proof.
  induction caps as [| cap caps IH]; intros Hsteps; [reflexivity |].
  simpl. rewrite (Hsteps cap (or_introl eq_refl)). simpl.
  apply IH. intros c Hc. apply Hsteps. right. exact Hc.
Qed.

Lemma reachable_isInverted (ch : CoarseChannel) (caps : list Capability) :
  reachable ch ->
  result capabilities ch = inr caps ->
  result isInverted ch
  = inr (let proportionalCaps := List.filter (fun cap => negb (cap_isStep cap)) caps in
         (0 <? length proportionalCaps)%nat && forallb cap_isInverted proportionalCaps).
Proof.
  intros Hr Hcaps. rewrite reachable_capabilities in Hcaps by assumption.
  rewrite (refines_result isInverted isInverted ch refines_isInverted
             (reachable_coherent ch Hr)).
  apply isInverted_def, Hcaps.
Qed.

(** C6: a channel is inverted exactly when the list of its capabilities
    that are not steps is not empty and every capability of that list is
    inverted; in particular a channel with no capabilities, or with step
    capabilities only, is not inverted, whatever the inverted flags of the
    step capabilities are. *)
Theorem isInverted_characterised (ch : CoarseChannel) (caps : list Capability) :
  reachable ch ->
  result capabilities ch = inr caps ->
  exists inverted,
    result isInverted ch = inr inverted
    /\ (let proportionalCaps := List.filter (fun cap => negb (cap_isStep cap)) caps in
        inverted = true <->
        proportionalCaps <> []
        /\ forall cap, In cap proportionalCaps -> cap_isInverted cap = true)
    /\ ((forall cap, In cap caps -> cap_isStep cap = true) -> inverted = false).
Proof.
  intros Hr Hcaps. eexists.
  split; [apply (reachable_isInverted ch caps Hr Hcaps) |].
  cbv zeta. set (proportionalCaps := List.filter _ caps).
  split.
  - rewrite andb_true_iff, forallb_forall, Nat.ltb_lt.
    split; intros [Hne Hall]; (split; [| exact Hall]).
    + intros Heq. rewrite Heq in Hne. simpl in Hne. lia.
    + destruct proportionalCaps; [congruence | simpl; lia].
  - intros Hsteps.
    subst proportionalCaps. rewrite (no_proportional_caps caps Hsteps). reflexivity.
Qed.

End Fading.

(** * Resolutions *)

Section Resolutions.
Context {T : Types} {X : Collaborators}.


Lemma ensureProperResolution_def (d : ChannelDef) (r : Number) :
  ensureProperResolution (m := P) r d
  = if improper d r then inl RangeError else inr tt.
Proof.
  unfold ensureProperResolution, improper. by_definition.
  destruct (_ || _ || _); reflexivity.
Qed.

Lemma Qtrunc_integer (q : Q) (n : Z) : (q == inject_Z n)%Q -> Qtrunc q = n.
Proof.
  destruct q as [num den]. unfold Qeq, Qtrunc. simpl. intros H.
  rewrite Z.mul_1_r in H. subst num. apply Z.quot_mul. discriminate.
Qed.

Lemma improper_spec (d : ChannelDef) (r : Number) :
  improper d r = false <-> proper_resolution d r.
Proof.
  unfold improper, proper_resolution, js_lt, RESOLUTION_8BIT.
  destruct r as [q | | |]; cbn.
  - rewrite !orb_false_iff, !negb_false_iff. rewrite !Qle_bool_iff, Qeq_bool_iff.
    split.
    + intros [[Hmax Hmin] Hint]. exists (Qtrunc q).
      assert (Hq : (q == inject_Z (Qtrunc q))%Q).
      { rewrite <- (Qplus_0_r (inject_Z (Qtrunc q))), <- Hint. ring. }
      split; [| exact Hq]. rewrite Hq in Hmax, Hmin.
      rewrite <- !Zle_Qle in *. lia.
    + intros (n & [Hmin Hmax] & Hq). rewrite (Qtrunc_integer q n Hq), Hq.
      rewrite <- !Zle_Qle. repeat split; try assumption. ring.
  - split; [discriminate | intros (n & _ & [])].
  - split; [discriminate | intros (n & _ & [])].
  - split; [discriminate | intros (n & _ & [])].
Qed.

(** An entry of the object of scaled values. *)
Lemma perResolution_lookup (rawValue : Number) (resolution : Z) (l : list Z)
      (start : gmap Z Number)
      (i : Z) :
  perResolution rawValue resolution l start !! i
  = if decide (i ∈ l) then Some (scaled rawValue resolution i) else start !! i.
Proof.
  unfold perResolution. revert start.
  induction l as [| a l IH]; intros start; cbn [fold_left].
  - destruct (decide (i ∈ [])) as [Hin |]; [inversion Hin | reflexivity].
  - rewrite IH. destruct (decide (i ∈ l)) as [Hin | Hnin].
    + rewrite decide_True by (right; exact Hin). reflexivity.
    + destruct (decide (a = i)) as [-> | Hne].
      * rewrite decide_True by left. apply lookup_insert_eq.
      * rewrite decide_False by (intros Hin; inversion Hin; subst; auto).
        apply lookup_insert_ne. exact Hne.
Qed.

Lemma js_index_perResolution (d : ChannelDef) (rawValue : Number) (q : Q) (n : Z) :
  1 <= n <= maxResolution d ->
  (q == inject_Z n)%Q ->
  js_index (perResolution rawValue (declaredResolution d) (seqZ 1 (maxResolution d)) ∅)
    (Finite q)
  = Some (scaled rawValue (declaredResolution d) n).
Proof.
  intros Hn Hq. unfold js_index.
  assert (Hfloor : Qfloor q = n) by (rewrite Hq; apply Qfloor_Z).
  rewrite Hfloor.
  assert (Hint : Qeq_bool (inject_Z n) q = true)
    by (apply Qeq_bool_iff; symmetry; exact Hq).
  rewrite Hint, perResolution_lookup.
  apply decide_True. apply elem_of_seqZ. lia.
Qed.

(** What a value method returns by definition, from the raw value. *)
Lemma valueWithResolution_def (rawP : P Number) (d : ChannelDef) (r : Number) :
  let value :=
    P_bind (ensureProperResolution r) (fun _ =>
    P_bind (valuePerResolution_def rawP) (fun table =>
    P_ret (js_index table r))) d in
  (~ proper_resolution d r -> value = inl RangeError)
  /\ (forall q n, r = Finite q -> 1 <= n <= maxResolution d -> (q == inject_Z n)%Q ->
      value = match rawP d with
              | inl e => inl e
              | inr raw => inr (Some (scaled raw (declaredResolution d) n))
              end).
Proof.
  intros value.
  assert (Hv : value
               = if improper d r then inl RangeError
                 else match rawP d with
                      | inl e => inl e
                      | inr raw =>
                          inr (js_index (perResolution raw (declaredResolution d)
                                           (seqZ 1 (maxResolution d)) ∅) r)
                      end).
  { subst value. unfold valuePerResolution_def, P_bind.
    rewrite ensureProperResolution_def.
    destruct (improper d r); [reflexivity |].
    destruct (rawP d) as [e | raw]; [reflexivity |].
    rewrite dmxValueResolution_def. reflexivity. }
  rewrite Hv. clear Hv value.
  pose proof (improper_spec d r) as Hspec.
  destruct (improper d r).
  - split; [reflexivity |]. intros q n -> Hn Hq.
    destruct Hspec as [_ Hspec].
    assert (Hfalse : true = false) by (apply Hspec; exists n; auto). discriminate.
  - split; [intros Hnot; exfalso; apply Hnot, Hspec; reflexivity |].
    intros q n -> Hn Hq.
    destruct (rawP d) as [e | raw]; [reflexivity |].
    rewrite (js_index_perResolution d raw q n Hn Hq). reflexivity.
Qed.

End Resolutions.

(** * Default and highlight values *)

Section Values.
Context {T : Types} {X : Collaborators}.

Lemma rawDefaultValue_absent (d : ChannelDef) :
  j_defaultValue (def_jsonObject d) = None ->
  rawDefaultValue (m := P) d = inr (Number_of_Z 0).
Proof. intros H. unfold rawDefaultValue. by_definition. rewrite H. reflexivity. Qed.

Lemma rawDefaultValue_percent (d : ChannelDef) (s : string) (e : Entity) :
  j_defaultValue (def_jsonObject d) = Some (JString s) ->
  createFromEntityString s = inr e ->
  rawDefaultValue (m := P) d = inr (percentOfMax e (declaredResolution d)).
Proof.
  intros H He. unfold rawDefaultValue. by_definition. rewrite H.
  destruct s as [| a s]; [discriminate He |].
  cbn [js_or_zero]. unfold liftResult. rewrite He. by_definition.
  rewrite dmxValueResolution_def. reflexivity.
Qed.

Lemma rawDefaultValue_well_formed (d : ChannelDef) :
  well_formed_values d -> exists raw, rawDefaultValue (m := P) d = inr raw.
Proof.
  intros [Hwf _]. unfold rawDefaultValue. by_definition.
  destruct (j_defaultValue (def_jsonObject d)) as [[z | s] |] eqn:Hv.
  - destruct z; cbn; eauto.
  - destruct s as [| a s]; [cbn; eauto |].
    destruct (Hwf _ eq_refl) as [e He]; [discriminate |].
    cbn [js_or_zero]. unfold liftResult. rewrite He. by_definition.
    rewrite dmxValueResolution_def. eauto.
  - cbn. eauto.
Qed.

Lemma rawHighlightValue_well_formed (d : ChannelDef) :
  well_formed_values d -> exists raw, rawHighlightValue (m := P) d = inr raw.
Proof.
  intros [_ Hwf]. unfold rawHighlightValue. by_definition.
  destruct (j_highlightValue (def_jsonObject d)) as [[z | s] |] eqn:Hv.
  - eauto.
  - destruct (Hwf _ eq_refl) as [e He].
    rewrite dmxValueResolution_def. unfold liftResult. rewrite He. by_definition. eauto.
  - rewrite dmxValueResolution_def. eauto.
Qed.

Lemma reachable_getDefaultValueWithResolution (ch : CoarseChannel) (r : Number) :
  reachable ch ->
  result (getDefaultValueWithResolution r) ch
  = getDefaultValueWithResolution_def r (definition ch).
Proof.
  intros Hr. apply refines_result; [apply refines_getDefaultValueWithResolution |].
  apply reachable_coherent, Hr.
Qed.

Lemma reachable_getHighlightValueWithResolution (ch : CoarseChannel) (r : Number) :
  reachable ch ->
  result (getHighlightValueWithResolution r) ch
  = getHighlightValueWithResolution_def r (definition ch).
Proof.
  intros Hr. apply refines_result; [apply refines_getHighlightValueWithResolution |].
  apply reachable_coherent, Hr.
Qed.

Lemma reachable_dmxValueResolution (ch : CoarseChannel) :
  reachable ch ->
  result dmxValueResolution ch = inr (declaredResolution (definition ch)).
Proof.
  intros Hr.
  rewrite (refines_result dmxValueResolution dmxValueResolution ch
             refines_dmxValueResolution (reachable_coherent ch Hr)).
  apply dmxValueResolution_def.
Qed.

(** The check as a value method performs it. *)
Lemma value_method_check (rawP : P Number) (d : ChannelDef) (r : Number) :
  (exists raw, rawP d = inr raw) ->
  let value :=
    P_bind (ensureProperResolution r) (fun _ =>
    P_bind (valuePerResolution_def rawP) (fun table =>
    P_ret (js_index table r))) d in
  (value = inl RangeError <-> ~ proper_resolution d r)
  /\ (proper_resolution d r -> exists v, value = inr (Some v)).
Proof.
  intros [raw Hraw] value.
  destruct (valueWithResolution_def rawP d r) as [Hout Hin]. fold value in Hout, Hin.
  assert (Hproper : proper_resolution d r -> exists v, value = inr (Some v)).
  { intros (n & Hn & Hq). destruct r as [q | | |]; try contradiction.
    rewrite (Hin q n eq_refl Hn Hq), Hraw. eauto. }
  split; [| exact Hproper]. split.
  - intros Herr Hp. destruct (Hproper Hp) as [v Hv]. congruence.
  - exact Hout.
Qed.

(** C4: on a channel with a well-formed record and for every number,
    [getDefaultValueWithResolution] and [getHighlightValueWithResolution]
    throw a RangeError exactly when the number is not an integer from 1 to
    [maxResolution], as [ensureProperResolution] does; for an integer in
    that range they throw nothing and return a value. *)
Theorem resolution_is_checked (ch : CoarseChannel) (r : Number) :
  reachable ch ->
  well_formed_values (definition ch) ->
  (result (ensureProperResolution r) ch = inl RangeError
   <-> ~ proper_resolution (definition ch) r)
  /\ (result (getDefaultValueWithResolution r) ch = inl RangeError
      <-> ~ proper_resolution (definition ch) r)
  /\ (result (getHighlightValueWithResolution r) ch = inl RangeError
      <-> ~ proper_resolution (definition ch) r)
  /\ (proper_resolution (definition ch) r ->
      result (ensureProperResolution r) ch = inr tt
      /\ exists v w,
          result (getDefaultValueWithResolution r) ch = inr (Some v)
          /\ result (getHighlightValueWithResolution r) ch = inr (Some w)).
Proof.
  intros Hr Hwf.
  rewrite (refines_result (ensureProperResolution r) (ensureProperResolution r) ch
             (refines_ensureProperResolution r) (reachable_coherent ch Hr)).
  rewrite reachable_getDefaultValueWithResolution by assumption.
  rewrite reachable_getHighlightValueWithResolution by assumption.
  rewrite ensureProperResolution_def.
  pose proof (improper_spec (definition ch) r) as Hspec.
  destruct (value_method_check rawDefaultValue (definition ch) r
              (rawDefaultValue_well_formed _ Hwf)) as [Hd1 Hd2].
  destruct (value_method_check rawHighlightValue (definition ch) r
              (rawHighlightValue_well_formed _ Hwf)) as [Hh1 Hh2].
  split; [| split; [exact Hd1 | split; [exact Hh1 |]]].
  - destruct (improper (definition ch) r).
    + split; [| reflexivity]. intros _ Hp. apply Hspec in Hp. discriminate.
    + split; [discriminate |]. intros Hnp. exfalso. apply Hnp, Hspec. reflexivity.
  - intros Hp. split.
    + apply Hspec in Hp. rewrite Hp. reflexivity.
    + destruct (Hd2 Hp) as [v Hv]. destruct (Hh2 Hp) as [w Hw]. exists v, w. auto.
Qed.

(** C2: on a channel whose [defaultValue] is the percentage Entity string
    of p with the unit %, the raw default value is what [Math.floor(p /
    100 * (Math.pow(256, dmxValueResolution) - 1))] is in double
    precision, the quotient and the product each rounded to the nearest
    double, and at every integer resolution from 1 to [maxResolution]
    [getDefaultValueWithResolution] returns that raw value scaled from the
    declared resolution: multiplied by 256 to the power of the difference
    when the resolution is not below the declared one, divided by it and
    floored when it is below.  For a whole percentage from 0 to 100 and a
    declared resolution of at most six bytes the raw value is the floor of
    p/100 times (256 to the power [dmxValueResolution], minus one) in
    exact arithmetic.  In particular 50% at a declared 16 bit resolution
    is 32767 before it is scaled. *)
Theorem percentage_default_value (ch : CoarseChannel) (s : string) (p : Number)
        (declared : Z) (q : Q) (n : Z) :
  reachable ch ->
  j_defaultValue (_jsonObject ch) = Some (JString s) ->
  createFromEntityString s = inr {| number := p; unitString := "%" |} ->
  result dmxValueResolution ch = inr declared ->
  1 <= n <= maxResolution (definition ch) ->
  (q == inject_Z n)%Q ->
  let raw :=
    Math_floor (js_mul (js_div p (Number_of_Z 100))
                       (js_sub (Math_pow 256 declared) (Number_of_Z 1))) in
  result rawDefaultValue ch = inr raw
  /\ (declared <= n ->
      result (getDefaultValueWithResolution (Finite q)) ch
      = inr (Some (appendBytes raw (n - declared))))
  /\ (n < declared ->
      result (getDefaultValueWithResolution (Finite q)) ch
      = inr (Some (truncateBytes raw (declared - n))))
  /\ (forall z : Z,
         raw = Number_of_Z z ->
         (declared <= n ->
          result (getDefaultValueWithResolution (Finite q)) ch
          = inr (Some (Number_of_Z (z * 256 ^ (n - declared)))))
         /\ (n < declared ->
             result (getDefaultValueWithResolution (Finite q)) ch
             = inr (Some (Number_of_Z (z / 256 ^ (declared - n))))))
  /\ (forall k : Z,
         p = Number_of_Z k -> 0 <= k <= 100 -> declared <= 6 ->
         raw = Number_of_Z (Qfloor (inject_Z k / inject_Z 100
                                    * inject_Z (256 ^ declared - 1))%Q))
  /\ (p = Number_of_Z 50 -> declared = RESOLUTION_16BIT -> raw = Number_of_Z 32767).
Proof.
  intros Hr Hs Hp Hdecl Hn Hq raw.
  rewrite reachable_dmxValueResolution in Hdecl by assumption.
  injection Hdecl as Hdecl.
  pose proof (rawDefaultValue_percent (definition ch) s _ Hs Hp) as Hraw.
  rewrite Hdecl in Hraw.
  change (percentOfMax _ declared) with raw in Hraw.
  rewrite (refines_result rawDefaultValue rawDefaultValue ch refines_rawDefaultValue
             (reachable_coherent ch Hr)).
  rewrite reachable_getDefaultValueWithResolution by assumption.
  destruct (valueWithResolution_def rawDefaultValue (definition ch) (Finite q))
    as [_ Hin].
  specialize (Hin q n eq_refl Hn Hq). rewrite Hraw, Hdecl in Hin.
  unfold getDefaultValueWithResolution_def, defaultValuePerResolution_def.
  rewrite Hin. unfold scaled.
  split; [exact Hraw |]. split; [| split; [| split; [| split]]].
  - intros Hle. destruct (Z.leb_spec declared n); [reflexivity | exfalso; lia].
  - intros Hlt. destruct (Z.leb_spec declared n); [exfalso; lia | reflexivity].
  - intros z Hz. rewrite Hz. split.
    + intros Hle. destruct (Z.leb_spec declared n); [| exfalso; lia].
      rewrite appendBytes_integer. reflexivity.
    + intros Hlt. destruct (Z.leb_spec declared n); [exfalso; lia |].
      rewrite truncateBytes_integer by lia. reflexivity.
  - intros k -> Hk Hsix.
    pose proof (declaredResolution_pos (definition ch)) as Hpos. rewrite Hdecl in Hpos.
    subst raw.
    transitivity (percentOfMax {| number := Number_of_Z k; unitString := "%" |} declared);
      [reflexivity |].
    rewrite (percentOfMax_whole k declared "%" Hk (conj Hpos Hsix)).
    unfold Number_of_Z. f_equal. f_equal.
    unfold Qfloor, Qdiv, Qinv, Qmult, inject_Z. cbn.
    rewrite !Z.mul_1_r. reflexivity.
  - intros -> ->. vm_compute. reflexivity.
Qed.

(** C10: on a channel whose record has no [defaultValue], [hasDefaultValue]
    is false, [getDefaultValueWithResolution] returns 0 at every integer
    resolution from 1 to [maxResolution], and [defaultValue] is 0: the
    absent field counts as the raw value 0. *)
Theorem absent_default_value (ch : CoarseChannel) :
  reachable ch ->
  j_defaultValue (_jsonObject ch) = None ->
  hasDefaultValue (definition ch) = false
  /\ result rawDefaultValue ch = inr (Number_of_Z 0)
  /\ (forall q n,
         1 <= n <= maxResolution (definition ch) ->
         (q == inject_Z n)%Q ->
         result (getDefaultValueWithResolution (Finite q)) ch
         = inr (Some (Number_of_Z 0)))
  /\ result defaultValue ch = inr (Some (Number_of_Z 0)).
Proof.
  intros Hr Hnone.
  pose proof (rawDefaultValue_absent (definition ch) Hnone) as Hraw.
  assert (Hzero : forall resolution n,
             scaled (Number_of_Z 0) resolution n = Number_of_Z 0).
  { intros resolution n. rewrite scaled_integer_spec. f_equal. unfold scaled_integer.
    destruct (resolution <=? n); [apply Z.mul_0_l | apply Zdiv_0_l]. }
  assert (Hall : forall q n,
             1 <= n <= maxResolution (definition ch) ->
             (q == inject_Z n)%Q ->
             getDefaultValueWithResolution_def (Finite q) (definition ch)
             = inr (Some (Number_of_Z 0))).
  { intros q n Hn Hq.
    destruct (valueWithResolution_def rawDefaultValue (definition ch) (Finite q))
      as [_ Hin].
    specialize (Hin q n eq_refl Hn Hq). rewrite Hraw, Hzero in Hin. exact Hin. }
  split; [| split; [| split]].
  - unfold hasDefaultValue. cbn. rewrite Hnone. reflexivity.
  - rewrite (refines_result rawDefaultValue rawDefaultValue ch refines_rawDefaultValue
               (reachable_coherent ch Hr)). exact Hraw.
  - intros q n Hn Hq. rewrite reachable_getDefaultValueWithResolution by assumption.
    apply (Hall q n Hn Hq).
  - rewrite (refines_result defaultValue defaultValue_def ch refines_defaultValue
               (reachable_coherent ch Hr)).
    unfold defaultValue_def, P_bind, P_this.
    apply (Hall _ (maxResolution (definition ch))); [| reflexivity].
    pose proof (maxResolution_pos (definition ch)). lia.
Qed.

End Values.

(** * The single capability *)

Section SingleCapability.
Context {T : Types} {X : Collaborators}.

Lemma capabilities_single_def (d : ChannelDef) (capability : CapabilityJson) :
  j_capability (def_jsonObject d) = Some capability ->
  capabilities (m := P) d
  = inr [new_Capability
           (Object_assign_dmxRange
              (Number_of_Z 0, maxDmxBoundInResolution (declaredResolution d)) capability)
           (declaredResolution d) d].
Proof.
  intros H. unfold capabilities. by_definition. rewrite H.
  rewrite dmxValueResolution_def. reflexivity.
Qed.

(** C8, as the code has it: on a channel whose record declares a singular
    [capability], the capabilities getter returns exactly one capability,
    made from the record at the resolution [dmxValueResolution]; the DMX
    range synthesized for a record without [dmxRange] is the full range
    at that resolution, from 0 to [Math.pow(256, dmxValueResolution) - 1],
    which is 256 to the power [dmxValueResolution] minus one at each
    resolution a record can declare and at every resolution of at most
    six bytes; a range the record declares is kept.  The synthesized
    range is [0, maxDmxBound] when the record declares no
    [dmxValueResolution]. *)
Theorem single_capability_range (ch : CoarseChannel) (capability : CapabilityJson) :
  reachable ch ->
  j_capability (_jsonObject ch) = Some capability ->
  exists declared,
    result dmxValueResolution ch = inr declared
    /\ (let capabilityData :=
          Object_assign_dmxRange (Number_of_Z 0, maxDmxBoundInResolution declared)
            capability in
        result capabilities ch
        = inr [new_Capability capabilityData declared (definition ch)]
        /\ (dmxRange capability = None ->
            dmxRange capabilityData
            = Some (Number_of_Z 0, maxDmxBoundInResolution declared))
        /\ (forall range, dmxRange capability = Some range ->
                          dmxRange capabilityData = Some range))
    /\ (declared <= 6 ->
        maxDmxBoundInResolution declared = Number_of_Z (256 ^ declared - 1))
    /\ (forall declaration,
           j_dmxValueResolution (_jsonObject ch) = Some declaration ->
           declared = resolutionStringToResolution declaration
           /\ maxDmxBoundInResolution declared = Number_of_Z (256 ^ declared - 1))
    /\ (j_dmxValueResolution (_jsonObject ch) = None ->
        declared = maxResolution (definition ch)
        /\ maxDmxBoundInResolution declared = maxDmxBound (definition ch)).
Proof.
  intros Hr Hcap. exists (declaredResolution (definition ch)).
  pose proof (declaredResolution_pos (definition ch)) as Hpos.
  split; [apply reachable_dmxValueResolution, Hr |].
  split; [split; [| split] | split; [| split]].
  - rewrite reachable_capabilities by assumption.
    apply capabilities_single_def, Hcap.
  - intros Hnone. cbn. rewrite Hnone. reflexivity.
  - intros range Hsome. cbn. rewrite Hsome. reflexivity.
  - intros Hsix. apply maxDmxBoundInResolution_exact. lia.
  - intros declaration Hsome. unfold declaredResolution. cbn. rewrite Hsome.
    split; [reflexivity |]. destruct declaration; reflexivity.
  - intros Hnone. unfold declaredResolution. cbn. rewrite Hnone.
    split; reflexivity.
Qed.

End SingleCapability.

(** * Replacing the definition *)

Section Replacement.
Context {T : Types} {X : Collaborators}.

Lemma fresh_result {A : Type} (c : M A) (p : P A) (ch : CoarseChannel) :
  refines c p -> _cache ch = empty_cache -> result c ch = p (definition ch).
Proof.
  intros Hr Hc. apply refines_result; [exact Hr |]. apply coherent_empty, Hc.
Qed.

(** C9: assigning a new [jsonObject] replaces the definition and empties
    the cache, and changes nothing else: the key and the fixture stay, the
    object is the one the constructor makes from the key, the new
    [jsonObject] and the fixture, and every derived property (type, color,
    capabilities, fine channels, [dmxValueResolution], the default and
    highlight values at every resolution, inversion, crossfading, the
    switching channel data) has the value the new definition gives it;
    nothing computed from the old definition is left to observe. *)
Theorem assigning_jsonObject (ch : CoarseChannel) (jsonObject : JsonObject) :
  let ch' := set_jsonObject jsonObject ch in
  let fresh := new_CoarseChannel (key ch) jsonObject (_fixture ch) in
  let d := {| def_key := key ch; def_jsonObject := jsonObject;
              def_fixture := _fixture ch |} in
  key ch' = key ch
  /\ _fixture ch' = _fixture ch
  /\ _jsonObject ch' = jsonObject
  /\ _cache ch' = empty_cache
  /\ (forall (A : Type) (s : Slot A), slot_get s (_cache ch') = None)
  /\ ch' = fresh
  /\ (forall (A : Type) (c : M A), c ch' = c fresh)
  /\ result type ch' = type (m := P) d
  /\ result color ch' = color (m := P) d
  /\ result capabilities ch' = capabilities (m := P) d
  /\ result fineChannels ch' = fineChannels (m := P) d
  /\ result dmxValueResolution ch' = dmxValueResolution (m := P) d
  /\ (forall r, result (getDefaultValueWithResolution r) ch'
                = getDefaultValueWithResolution_def r d)
  /\ (forall r, result (getHighlightValueWithResolution r) ch'
                = getHighlightValueWithResolution_def r d)
  /\ result defaultValue ch' = defaultValue_def d
  /\ result highlightValue ch' = highlightValue_def d
  /\ result isInverted ch' = isInverted (m := P) d
  /\ result canCrossfade ch' = canCrossfade (m := P) d
  /\ result switchingChannelAliases ch' = switchingChannelAliases (m := P) d
  /\ result switchingChannels ch' = switchingChannels (m := P) d
  /\ result switchToChannelKeys ch' = switchToChannelKeys (m := P) d
  /\ result isHelpWanted ch' = isHelpWanted (m := P) d.
Proof.
  cbv zeta. set (ch' := set_jsonObject jsonObject ch).
  change {| def_key := key ch; def_jsonObject := jsonObject; def_fixture := _fixture ch |}
    with (definition ch').
  assert (Hfresh : ch' = new_CoarseChannel (key ch) jsonObject (_fixture ch))
    by (destruct ch as [[k] j c f]; reflexivity).
  repeat match goal with |- _ /\ _ => split end;
    try reflexivity;
    try exact Hfresh;
    try (intros A s; destruct s; reflexivity);
    try (intros A c; rewrite Hfresh; reflexivity);
    try intros r;
    (apply (fresh_result _ _ ch'); [| reflexivity]);
    auto using refines_type, refines_color, refines_fineChannels,
      refines_dmxValueResolution, refines_capabilities, refines_isInverted,
      refines_canCrossfade, refines_switchingChannelAliases,
      refines_switchingChannels, refines_switchToChannelKeys,
      refines_isHelpWanted, refines_defaultValue, refines_highlightValue,
      refines_getDefaultValueWithResolution, refines_getHighlightValueWithResolution.
Qed.

End Replacement.

(** * The model at work on the small fixture *)

Section Runs.
#[local] Existing Instance Demo.types.
#[local] Existing Instance Demo.collaborators.

Example entity_50_percent :
  createFromEntityString "50%" = inr {| number := Number_of_Z 50; unitString := "%" |}.
Proof. reflexivity. Qed.

Example entity_garbage : createFromEntityString "fast!" = inl ParseError.
Proof. reflexivity. Qed.

Example goboWheel_type : result type Demo.goboWheel = inr "Gobo".
Proof. reflexivity. Qed.

Example dimmer_default_16bit :
  result (getDefaultValueWithResolution (Number_of_Z 2)) Demo.dimmer
  = inr (Some (Number_of_Z 32767)).
Proof. vm_compute. reflexivity. Qed.

Example dimmer_default_8bit :
  result (getDefaultValueWithResolution (Number_of_Z 1)) Demo.dimmer
  = inr (Some (Number_of_Z 127)).
Proof. vm_compute. reflexivity. Qed.

Example dimmer_highlight :
  result highlightValue Demo.dimmer = inr (Some (Number_of_Z 65535)).
Proof. vm_compute. reflexivity. Qed.

Example dimmer_resolution_3 :
  result (getDefaultValueWithResolution (Number_of_Z 3)) Demo.dimmer = inl RangeError.
Proof. vm_compute. reflexivity. Qed.

Example dimmer_resolution_half :
  result (getDefaultValueWithResolution (Finite (3 # 2))) Demo.dimmer = inl RangeError.
Proof. vm_compute. reflexivity. Qed.

Example zoom_canCrossfade : result canCrossfade Demo.zoom = inr true.
Proof. vm_compute. reflexivity. Qed.

(** The getters read the cache: a second read returns what the first one
    stored, and a type computed before the definition is replaced is gone
    after it. *)
Example type_is_cached :
  c_type (_cache (exec get_type Demo.goboWheel)) = Some "Gobo".
Proof. reflexivity. Qed.

Example type_after_replacement :
  result type (exec (assign_jsonObject (_jsonObject Demo.reserved))
                    (exec get_type Demo.goboWheel))
  = inr "NoFunction".
Proof. reflexivity. Qed.

End Runs.

(** * The theorems at concrete channels *)

Section Instances.
#[local] Existing Instance Demo.types.
#[local] Existing Instance Demo.collaborators.

Lemma type_is_first_match_witness :
  reachable Demo.goboWheel
  /\ exists caps,
      result capabilities Demo.goboWheel = inr caps
      /\ exists t,
          result type Demo.goboWheel = inr t
          /\ first_match caps channelTypeConstraints t.
Proof.
  split; [apply reachable_new |].
  eexists. split; [reflexivity |].
  exact (proj2 (type_is_first_match Demo.goboWheel _ (reachable_new _ _ _) eq_refl)).
Defined.

Lemma wheel_slot_of_gobos_is_Gobo_witness :
  reachable Demo.goboWheel
  /\ exists cap,
      result capabilities Demo.goboWheel = inr [cap]
      /\ cap_type cap = "WheelSlot"
      /\ cap_wheels cap = [Some {| wheel_type := "Gobo" |}]
      /\ result type Demo.goboWheel = inr "Gobo".
Proof.
  split; [apply reachable_new |].
  eexists. split; [reflexivity |]. split; [reflexivity |]. split; [reflexivity |].
  exact (proj1 (wheel_slot_of_gobos_is_Gobo Demo.goboWheel _ (reachable_new _ _ _)
                  eq_refl eq_refl eq_refl)).
Defined.

Lemma canCrossfade_characterised_witness :
  reachable Demo.reserved
  /\ exists caps,
      result capabilities Demo.reserved = inr caps
      /\ exists fades t,
          result canCrossfade Demo.reserved = inr fades
          /\ result type Demo.reserved = inr t
          /\ (forall cap, caps = [cap] -> cap_type cap = "NoFunction" -> fades = false).
Proof.
  split; [apply reachable_new |].
  eexists. split; [reflexivity |].
  destruct (canCrossfade_characterised Demo.reserved _ (reachable_new _ _ _) eq_refl)
    as (fades & t & Hf & Ht & _ & _ & Hno).
  exists fades, t. auto.
Defined.

Lemma isInverted_characterised_witness :
  reachable Demo.zoom
  /\ exists caps,
      result capabilities Demo.zoom = inr caps
      /\ exists inverted,
          result isInverted Demo.zoom = inr inverted
          /\ ((forall cap, In cap caps -> cap_isStep cap = true) -> inverted = false).
Proof.
  split; [apply reachable_new |].
  eexists. split; [reflexivity |].
  destruct (isInverted_characterised Demo.zoom _ (reachable_new _ _ _) eq_refl)
    as (inverted & Hi & _ & Hsteps).
  exists inverted. auto.
Defined.

Lemma dimmer_well_formed : well_formed_values (definition Demo.dimmer).
Proof.
  split; intros s Hs.
  - intros _. injection Hs as <-. eexists. reflexivity.
  - discriminate Hs.
Defined.

Lemma resolution_is_checked_witness :
  reachable Demo.dimmer
  /\ well_formed_values (definition Demo.dimmer)
  /\ (result (getDefaultValueWithResolution (Number_of_Z 3)) Demo.dimmer = inl RangeError
      <-> ~ proper_resolution (definition Demo.dimmer) (Number_of_Z 3)).
Proof.
  split; [apply reachable_new |]. split; [exact dimmer_well_formed |].
  apply (resolution_is_checked Demo.dimmer (Number_of_Z 3) (reachable_new _ _ _)
           dimmer_well_formed).
Defined.

Lemma percentage_default_value_witness :
  reachable Demo.dimmer
  /\ j_defaultValue (_jsonObject Demo.dimmer) = Some (JString "50%")
  /\ createFromEntityString "50%" = inr {| number := Number_of_Z 50; unitString := "%" |}
  /\ result dmxValueResolution Demo.dimmer = inr 2
  /\ 1 <= 1 <= maxResolution (definition Demo.dimmer)
  /\ (inject_Z 1 == inject_Z 1)%Q
  /\ result rawDefaultValue Demo.dimmer = inr (Number_of_Z 32767)
  /\ result (getDefaultValueWithResolution (Finite (inject_Z 1))) Demo.dimmer
     = inr (Some (Number_of_Z (32767 / 256 ^ (2 - 1)))).
Proof.
  assert (Hn : 1 <= 1 <= maxResolution (definition Demo.dimmer)) by (vm_compute; split; discriminate).
  split; [apply reachable_new |]. split; [reflexivity |]. split; [reflexivity |].
  split; [reflexivity |]. split; [exact Hn |]. split; [reflexivity |].
  destruct (percentage_default_value Demo.dimmer "50%" (Number_of_Z 50) 2 (inject_Z 1) 1
              (reachable_new _ _ _) eq_refl eq_refl eq_refl Hn (Qeq_refl _))
    as (Hraw & _ & _ & Hscaled & _ & _).
  split; [exact Hraw |].
  apply (Hscaled 32767); [reflexivity | reflexivity].
Defined.

Lemma absent_default_value_witness :
  reachable Demo.pan
  /\ j_defaultValue (_jsonObject Demo.pan) = None
  /\ result defaultValue Demo.pan = inr (Some (Number_of_Z 0)).
Proof.
  split; [apply reachable_new |]. split; [reflexivity |].
  apply (absent_default_value Demo.pan (reachable_new _ _ _) eq_refl).
Defined.

Lemma single_capability_range_witness :
  reachable Demo.pan
  /\ exists capability,
      j_capability (_jsonObject Demo.pan) = Some capability
      /\ exists declared,
          result dmxValueResolution Demo.pan = inr declared
          /\ result capabilities Demo.pan
             = inr [new_Capability
                      (Object_assign_dmxRange
                         (Number_of_Z 0, Number_of_Z (256 ^ declared - 1)) capability)
                      declared (definition Demo.pan)].
Proof.
  split; [apply reachable_new |].
  eexists. split; [reflexivity |].
  destruct (single_capability_range Demo.pan _ (reachable_new _ _ _) eq_refl)
    as (declared & Hd & (Hc & _) & _ & Hdeclared & _).
  exists declared. split; [exact Hd |].
  destruct (Hdeclared res_8bit eq_refl) as [_ Hmax]. rewrite <- Hmax. exact Hc.
Defined.

(** The range synthesized for the capability of [Demo.pan], whose values
    are declared in 8 bit while it has a fine channel, is [0, 255] and not
    [0, maxDmxBound] = [0, 65535]. *)
Lemma pan_range_is_not_maxDmxBound : ~ synthesizes_maxDmxBound Demo.pan.
Proof.
  intros H. destruct (H _ eq_refl eq_refl) as [resolution Heq].
  vm_compute in Heq. discriminate Heq.
Qed.

Example position_maxDmxBound :
  maxResolution (definition DemoChannels.position) = 7
  /\ maxDmxBound (definition DemoChannels.position) = Number_of_Z (2 ^ 56).
Proof. split; vm_compute; reflexivity. Qed.


Example amber_default :
  result rawDefaultValue DemoChannels.amber = inr (Number_of_Z 162)
  /\ result defaultValue DemoChannels.amber = inr (Some (Number_of_Z 162))
  /\ Qfloor ((6352941176470588 # 100000000000000) / inject_Z 100 * inject_Z 255)%Q = 161.
Proof. repeat split; vm_compute; reflexivity. Qed.

(** The same with the double the numeral is read as in place of the
    numeral: the floor of the exact product is 161 again. *)
Example amber_number :
  exists p : Q,
    createFromEntityString "63.52941176470588%"
    = inr {| number := Finite p; unitString := "%" |}
    /\ (p < 6352941176470588 # 100000000000000)%Q
    /\ Qfloor (p / inject_Z 100 * inject_Z 255)%Q = 161.
Proof.
  exists (8940969848456131 # 140737488355328).
  repeat split; vm_compute; reflexivity.
Qed.

(** The default value of [DemoChannels.amber] is 63.52941176470588% of
    255.  The quotient by 100 and the product with 255 are each rounded
    to the nearest double and the product comes out as 162, where the
    floor of the exact product is 161. *)
Lemma amber_default_is_not_exact : ~ exact_percentage DemoChannels.amber.
Proof.
  intros H. specialize (H _ _ eq_refl eq_refl eq_refl).
  vm_compute in H. discriminate H.
Qed.

End Instances.

(** * More on the cache *)

Section Memoization.
Context {T : Types} {X : Collaborators}.

Lemma exec_definition (c : Call) (ch : CoarseChannel) :
  coherent ch -> is_assignment c = false -> definition (exec c ch) = definition ch.
Proof.
  intros Hc Hna. destruct c; cbn [exec]; try discriminate Hna;
    (eapply refines_after; [| exact Hc]);
    eauto using refines_type, refines_color, refines_fineChannels,
      refines_dmxValueResolution, refines_capabilities, refines_isInverted,
      refines_canCrossfade, refines_switchingChannelAliases,
      refines_switchingChannels, refines_switchToChannelKeys,
      refines_isHelpWanted, refines_defaultValue, refines_highlightValue,
      refines_ensureProperResolution, refines_getDefaultValueWithResolution,
      refines_getHighlightValueWithResolution.
Qed.

Lemma execs_reachable (calls : list Call) (ch : CoarseChannel) :
  reachable ch -> reachable (execs calls ch).
Proof.
  unfold execs. revert ch. induction calls as [| c calls IH]; intros ch Hr; [exact Hr |].
  cbn [fold_left]. apply IH. apply reachable_exec, Hr.
Qed.

Lemma execs_definition (calls : list Call) (ch : CoarseChannel) :
  reachable ch ->
  forallb (fun c => negb (is_assignment c)) calls = true ->
  definition (execs calls ch) = definition ch.
Proof.
  unfold execs. revert ch. induction calls as [| c calls IH]; intros ch Hr Hall;
    [reflexivity |].
  cbn [fold_left forallb] in *. apply andb_true_iff in Hall as [Hc Hall].
  rewrite IH by (try apply reachable_exec; assumption).
  apply exec_definition; [apply reachable_coherent, Hr |].
  apply negb_true_iff, Hc.
Qed.

Lemma result_after_calls {A : Type} (m : M A) (p : P A) (calls : list Call)
      (ch : CoarseChannel) :
  refines m p ->
  reachable ch ->
  forallb (fun c => negb (is_assignment c)) calls = true ->
  result m (execs calls ch) = result m ch.
Proof.
  intros Hm Hr Hall.
  rewrite (refines_result m p (execs calls ch) Hm)
    by (apply reachable_coherent, execs_reachable, Hr).
  rewrite (refines_result m p ch Hm) by (apply reachable_coherent, Hr).
  rewrite execs_definition by assumption. reflexivity.
Qed.

(** X1: on a channel object, whatever getters and methods were called in
    between (any sequence of calls without an assignment of [jsonObject]),
    every derived property returns what it returned before: filling the
    cache is not observable. *)
Theorem reads_do_not_interfere (ch : CoarseChannel) (calls : list Call) :
  reachable ch ->
  forallb (fun c => negb (is_assignment c)) calls = true ->
  let ch' := execs calls ch in
  result type ch' = result type ch
  /\ result color ch' = result color ch
  /\ result capabilities ch' = result capabilities ch
  /\ result fineChannels ch' = result fineChannels ch
  /\ result dmxValueResolution ch' = result dmxValueResolution ch
  /\ (forall r, result (getDefaultValueWithResolution r) ch'
                = result (getDefaultValueWithResolution r) ch)
  /\ (forall r, result (getHighlightValueWithResolution r) ch'
                = result (getHighlightValueWithResolution r) ch)
  /\ result defaultValue ch' = result defaultValue ch
  /\ result highlightValue ch' = result highlightValue ch
  /\ result isInverted ch' = result isInverted ch
  /\ result canCrossfade ch' = result canCrossfade ch
  /\ result switchingChannelAliases ch' = result switchingChannelAliases ch
  /\ result switchingChannels ch' = result switchingChannels ch
  /\ result switchToChannelKeys ch' = result switchToChannelKeys ch
  /\ result isHelpWanted ch' = result isHelpWanted ch.
Proof.
  intros Hr Hall. cbv zeta.
  repeat match goal with |- _ /\ _ => split end; try intros r;
    eapply result_after_calls; try eassumption;
    eauto using refines_type, refines_color, refines_fineChannels,
      refines_dmxValueResolution, refines_capabilities, refines_isInverted,
      refines_canCrossfade, refines_switchingChannelAliases,
      refines_switchingChannels, refines_switchToChannelKeys,
      refines_isHelpWanted, refines_defaultValue, refines_highlightValue,
      refines_getDefaultValueWithResolution, refines_getHighlightValueWithResolution.
Qed.

(** X2: no getter and no method changes what the channel is defined by:
    after any sequence of calls without an assignment of [jsonObject] the
    key, the [jsonObject] and the fixture are the ones before, and so are
    the properties read from them. *)
Theorem calls_keep_the_definition (ch : CoarseChannel) (calls : list Call) :
  reachable ch ->
  forallb (fun c => negb (is_assignment c)) calls = true ->
  let ch' := execs calls ch in
  key ch' = key ch
  /\ _jsonObject ch' = _jsonObject ch
  /\ _fixture ch' = _fixture ch
  /\ name (definition ch') = name (definition ch)
  /\ maxResolution (definition ch') = maxResolution (definition ch)
  /\ maxDmxBound (definition ch') = maxDmxBound (definition ch).
Proof.
  intros Hr Hall. cbv zeta.
  pose proof (execs_definition calls ch Hr Hall) as Hd.
  rewrite Hd. unfold definition in Hd. injection Hd as Hk Hj Hf. auto 10.
Qed.

(** A cached getter that returned has its value in its slot, and returns
    it again without touching the object. *)
Lemma lazily_second_read {A : Type} (s : Slot A) (compute : M A) (ch : CoarseChannel)
      (v : A) :
  result (M_lazily s compute) ch = inr v ->
  slot_get s (_cache (after (M_lazily s compute) ch)) = Some v
  /\ M_lazily s compute (after (M_lazily s compute) ch)
     = (after (M_lazily s compute) ch, inr v).
Proof.
  unfold result, after, M_lazily, M_bind, read_cache, write_cache, M_ret.
  destruct (slot_get s (_cache ch)) as [w |] eqn:Hget; cbn.
  - intros Hv. injection Hv as ->. rewrite Hget. auto.
  - destruct (compute ch) as [ch1 [e | w]]; cbn; [discriminate |].
    intros Hv. injection Hv as ->. rewrite slot_get_set_same. auto.
Qed.

(** X3: memoization.  On any channel object, when a cached getter
    returns a value, the value is in the getter's slot of the cache
    afterwards, and reading the getter again returns the same value and
    leaves the object exactly as it is. *)
Theorem second_read_is_served_from_cache (ch : CoarseChannel) :
  (forall v, result type ch = inr v ->
             c_type (_cache (after type ch)) = Some v
             /\ type (m := M) (after type ch) = (after type ch, inr v))
  /\ (forall v, result color ch = inr v ->
                c_color (_cache (after color ch)) = Some v
                /\ color (m := M) (after color ch) = (after color ch, inr v))
  /\ (forall v, result capabilities ch = inr v ->
                c_capabilities (_cache (after capabilities ch)) = Some v
                /\ capabilities (m := M) (after capabilities ch)
                   = (after capabilities ch, inr v))
  /\ (forall v, result fineChannels ch = inr v ->
                c_fineChannels (_cache (after fineChannels ch)) = Some v
                /\ fineChannels (m := M) (after fineChannels ch)
                   = (after fineChannels ch, inr v))
  /\ (forall v, result dmxValueResolution ch = inr v ->
                c_dmxValueResolution (_cache (after dmxValueResolution ch)) = Some v
                /\ dmxValueResolution (m := M) (after dmxValueResolution ch)
                   = (after dmxValueResolution ch, inr v))
  /\ (forall v, result isInverted ch = inr v ->
                c_isInverted (_cache (after isInverted ch)) = Some v
                /\ isInverted (m := M) (after isInverted ch) = (after isInverted ch, inr v))
  /\ (forall v, result canCrossfade ch = inr v ->
                c_canCrossfade (_cache (after canCrossfade ch)) = Some v
                /\ canCrossfade (m := M) (after canCrossfade ch)
                   = (after canCrossfade ch, inr v))
  /\ (forall v, result switchingChannelAliases ch = inr v ->
                c_switchingChannelAliases (_cache (after switchingChannelAliases ch))
                = Some v
                /\ switchingChannelAliases (m := M) (after switchingChannelAliases ch)
                   = (after switchingChannelAliases ch, inr v))
  /\ (forall v, result switchingChannels ch = inr v ->
                c_switchingChannels (_cache (after switchingChannels ch)) = Some v
                /\ switchingChannels (m := M) (after switchingChannels ch)
                   = (after switchingChannels ch, inr v))
  /\ (forall v, result switchToChannelKeys ch = inr v ->
                c_switchToChannelKeys (_cache (after switchToChannelKeys ch)) = Some v
                /\ switchToChannelKeys (m := M) (after switchToChannelKeys ch)
                   = (after switchToChannelKeys ch, inr v))
  /\ (forall v, result isHelpWanted ch = inr v ->
                c_isHelpWanted (_cache (after isHelpWanted ch)) = Some v
                /\ isHelpWanted (m := M) (after isHelpWanted ch)
                   = (after isHelpWanted ch, inr v)).
Proof.
  repeat match goal with |- _ /\ _ => split end; intros v Hv;
    first [ exact (lazily_second_read slot_type _ ch v Hv)
          | exact (lazily_second_read slot_color _ ch v Hv)
          | exact (lazily_second_read slot_capabilities _ ch v Hv)
          | exact (lazily_second_read slot_fineChannels _ ch v Hv)
          | exact (lazily_second_read slot_dmxValueResolution _ ch v Hv)
          | exact (lazily_second_read slot_isInverted _ ch v Hv)
          | exact (lazily_second_read slot_canCrossfade _ ch v Hv)
          | exact (lazily_second_read slot_switchingChannelAliases _ ch v Hv)
          | exact (lazily_second_read slot_switchingChannels _ ch v Hv)
          | exact (lazily_second_read slot_switchToChannelKeys _ ch v Hv)
          | exact (lazily_second_read slot_isHelpWanted _ ch v Hv) ].
Qed.

End Memoization.

(** * More on errors *)

(** Unfolds the effects of a method as it runs, leaving the getters it
    calls folded. *)
Ltac as_it_runs :=
  cbn [bind ret throw this lazily M_monad];
  unfold M_bind, M_ret, M_throw, M_this.

Section Errors.
Context {T : Types} {X : Collaborators}.

Lemma ensureProperResolution_run (ch : CoarseChannel) (r : Number) :
  ensureProperResolution (m := M) r ch
  = (ch, if improper (definition ch) r then inl RangeError else inr tt).
Proof.
  unfold ensureProperResolution, improper. as_it_runs.
  destruct (_ || _ || _); reflexivity.
Qed.

Lemma improper_not_proper (d : ChannelDef) (r : Number) :
  ~ proper_resolution d r -> improper d r = true.
Proof.
  intros Hnp. destruct (improper d r) eqn:Hi; [reflexivity |].
  exfalso. apply Hnp, improper_spec, Hi.
Qed.

(** X4: on any channel object, in whatever state its cache is, a
    resolution that is not an integer from 1 to [maxResolution] makes
    [ensureProperResolution] and both value methods throw a RangeError
    before they do anything else: the object, its cache included, is left
    exactly as it was. *)
Theorem improper_resolution_changes_nothing (ch : CoarseChannel) (r : Number) :
  ~ proper_resolution (definition ch) r ->
  ensureProperResolution (m := M) r ch = (ch, inl RangeError)
  /\ getDefaultValueWithResolution r ch = (ch, inl RangeError)
  /\ getHighlightValueWithResolution r ch = (ch, inl RangeError).
Proof.
  intros Hnp. apply improper_not_proper in Hnp.
  assert (Hrun : ensureProperResolution (m := M) r ch = (ch, inl RangeError))
    by (rewrite ensureProperResolution_run, Hnp; reflexivity).
  split; [exact Hrun |].
  split; apply M_bind_error; exact Hrun.
Qed.

Lemma rawDefaultValue_unparsable_run (ch : CoarseChannel) (s : string) (e : JsError) :
  j_defaultValue (_jsonObject ch) = Some (JString s) ->
  s <> EmptyString ->
  createFromEntityString s = inl e ->
  rawDefaultValue (m := M) ch = (ch, inl e)
  /\ rawDefaultValue (m := P) (definition ch) = inl e.
Proof.
  intros Hs Hne He. unfold rawDefaultValue, liftResult.
  destruct s as [| a s]; [congruence |]. split.
  - as_it_runs. cbn. rewrite Hs. cbn [js_or_zero]. rewrite He. reflexivity.
  - by_definition. cbn. rewrite Hs. cbn [js_or_zero]. rewrite He. reflexivity.
Qed.

(** X5: the error of the Entity parser surfaces when the value is asked
    for and is not cached.  On a channel whose [defaultValue] is a
    non-empty string the parser rejects, [getDefaultValueWithResolution]
    at a proper resolution and [defaultValue] throw the parser's error and
    leave the object as it was, with no object of default values in its
    cache, so that a later call throws again; [dmxValueResolution] is
    still returned. *)
Theorem unparsable_default_value (ch : CoarseChannel) (s : string) (e : JsError)
        (r : Number) :
  reachable ch ->
  j_defaultValue (_jsonObject ch) = Some (JString s) ->
  s <> EmptyString ->
  createFromEntityString s = inl e ->
  proper_resolution (definition ch) r ->
  getDefaultValueWithResolution r ch = (ch, inl e)
  /\ c_defaultValuePerResolution (_cache ch) = None
  /\ defaultValue ch = (ch, inl e)
  /\ result dmxValueResolution ch = inr (declaredResolution (definition ch)).
Proof.
  intros Hr Hs Hne He Hp.
  destruct (rawDefaultValue_unparsable_run ch s e Hs Hne He) as [HrunM HrunP].
  assert (Hnone : c_defaultValuePerResolution (_cache ch) = None).
  { destruct (c_defaultValuePerResolution (_cache ch)) as [t |] eqn:Hget; [| reflexivity].
    destruct (reachable_coherent ch Hr _ slot_defaultValuePerResolution t Hget)
      as [? | Hdef]; [discriminate |].
    cbn [slot_def] in Hdef. unfold defaultValuePerResolution_def in Hdef.
    rewrite (valuePerResolution_def_error _ _ _ HrunP) in Hdef. discriminate. }
  assert (Hall : forall r', proper_resolution (definition ch) r' ->
                            getDefaultValueWithResolution r' ch = (ch, inl e)).
  { intros r' Hp'. unfold getDefaultValueWithResolution.
    apply improper_spec in Hp'.
    rewrite (M_bind_value _ _ ch ch tt)
      by (rewrite ensureProperResolution_run, Hp'; reflexivity).
    rewrite (M_bind_value _ _ ch ch None)
      by (unfold read_cache; cbn [slot_get]; rewrite Hnone; reflexivity).
    apply M_bind_error. apply M_bind_error. exact HrunM. }
  split; [apply Hall, Hp |]. split; [exact Hnone |]. split.
  - unfold defaultValue. rewrite (M_bind_value _ _ ch ch (definition ch)) by reflexivity.
    apply Hall. exists (maxResolution (definition ch)).
    pose proof (maxResolution_pos (definition ch)). split; [lia | reflexivity].
  - apply reachable_dmxValueResolution, Hr.
Qed.

End Errors.

(** * More on default and highlight values *)

Section MoreValues.
Context {T : Types} {X : Collaborators}.

Lemma pow256_pos (n : Z) : 0 <= n -> 0 < 256 ^ n.
Proof. intros Hn. apply Z.pow_pos_nonneg; lia. Qed.

Lemma pow256_split (n d : Z) : 0 <= n <= d -> 256 ^ d = 256 ^ n * 256 ^ (d - n).
Proof. intros Hn. rewrite <- Z.pow_add_r by lia. f_equal. lia. Qed.

(** The maximum of a resolution, truncated to a coarser one, is the
    maximum of the coarser one. *)
Lemma max_truncated (n d : Z) :
  0 <= n <= d -> (256 ^ d - 1) / 256 ^ (d - n) = 256 ^ n - 1.
Proof.
  intros Hn. pose proof (pow256_pos (d - n)) as Hk. pose proof (pow256_pos n) as Ha.
  rewrite (pow256_split n d Hn). set (k := 256 ^ (d - n)) in *. set (a := 256 ^ n) in *.
  symmetry. apply (Z.div_unique _ k (a - 1) (k - 1)); lia.
Qed.

Lemma scaled_bounds (rawValue d n : Z) :
  0 <= d -> 0 <= n ->
  0 <= rawValue <= 256 ^ d - 1 ->
  0 <= scaled_integer rawValue d n <= 256 ^ n - 1.
Proof.
  intros Hd Hn Hraw. unfold scaled_integer. destruct (Z.leb_spec d n) as [Hle | Hlt].
  - pose proof (pow256_pos (n - d)) as Hk. pose proof (pow256_pos d) as Ha.
    rewrite (pow256_split d n) by lia.
    set (k := 256 ^ (n - d)) in *. set (a := 256 ^ d) in *. nia.
  - pose proof (pow256_pos (d - n)) as Hk.
    rewrite <- (max_truncated n d) by lia. split.
    + apply Z.div_pos; lia.
    + apply Z.div_le_mono; lia.
Qed.

(** The value at a resolution is the value at the next finer resolution
    without its low byte. *)
Lemma scaled_coarser (rawValue d n : Z) :
  1 <= n -> scaled_integer rawValue d n = scaled_integer rawValue d (n + 1) / 256.
Proof.
  intros Hn. unfold scaled_integer.
  destruct (Z.leb_spec d n) as [Hle | Hlt].
  - destruct (Z.leb_spec d (n + 1)); [| lia].
    replace (n + 1 - d) with (n - d + 1) by lia.
    rewrite Z.pow_add_r by lia. rewrite Z.mul_assoc.
    change (256 ^ 1) with 256. rewrite Z.div_mul by discriminate. reflexivity.
  - destruct (Z.leb_spec d (n + 1)) as [Hle' | Hlt'].
    + assert (d = n + 1) by lia. subst d.
      replace (n + 1 - n) with 1 by lia. replace (n + 1 - (n + 1)) with 0 by lia.
      change (256 ^ 0) with 1. change (256 ^ 1) with 256. rewrite Z.mul_1_r. reflexivity.
    + pose proof (pow256_pos (d - (n + 1))) as Hk.
      rewrite Z.div_div by lia.
      replace (d - n) with (d - (n + 1) + 1) by lia.
      rewrite Z.pow_add_r by lia. reflexivity.
Qed.

Lemma appendBytes_0 (a : Number) : appendBytes a 0 = a.
Proof.
  destruct a as [[num den] | | |]; try reflexivity.
  unfold appendBytes, Qmult. cbn. rewrite Z.mul_1_r, Pos.mul_1_r. reflexivity.
Qed.

Lemma scaled_same (raw : Number) (d : Z) : scaled raw d d = raw.
Proof. unfold scaled. rewrite Z.leb_refl, Z.sub_diag. apply appendBytes_0. Qed.

Lemma Math_floor_integer (a : Number) : integer_or_not_finite (Math_floor a).
Proof.
  destruct a as [q | | |]; [left; eexists; reflexivity | right | right | right];
    intros q; discriminate.
Qed.

Lemma maxDmxBoundInResolution_integer (n : Z) :
  1 <= n -> integer_or_not_finite (maxDmxBoundInResolution n).
Proof.
  intros Hn.
  destruct (Z_le_gt_dec n 6); [left; eexists; apply maxDmxBoundInResolution_exact; lia |].
  destruct (Z_le_gt_dec n 127);
    [left; eexists; apply maxDmxBoundInResolution_rounded; lia |].
  right. rewrite maxDmxBoundInResolution_overflow by lia. discriminate.
Qed.

Lemma scaled_is_integer (raw : Number) (d n : Z) :
  integer_or_not_finite raw -> integer_or_not_finite (scaled raw d n).
Proof.
  intros [[z ->] | Hnot].
  - left. eexists. apply scaled_integer_spec.
  - right. destruct raw as [x | | |]; [exfalso; apply (Hnot x); reflexivity | | |];
      unfold scaled; destruct (_ <=? _); discriminate.
Qed.

Lemma rawHighlightValue_absent (d : ChannelDef) :
  j_highlightValue (def_jsonObject d) = None ->
  rawHighlightValue (m := P) d = inr (maxDmxBoundInResolution (declaredResolution d)).
Proof.
  intros H. unfold rawHighlightValue. by_definition. rewrite H.
  rewrite dmxValueResolution_def. reflexivity.
Qed.

Lemma rawDefaultValue_integer (d : ChannelDef) (z : Z) :
  j_defaultValue (def_jsonObject d) = Some (JInt z) ->
  rawDefaultValue (m := P) d = inr (Number_of_Z z).
Proof.
  intros H. unfold rawDefaultValue. by_definition. rewrite H. destruct z; reflexivity.
Qed.

Lemma rawHighlightValue_integer (d : ChannelDef) (z : Z) :
  j_highlightValue (def_jsonObject d) = Some (JInt z) ->
  rawHighlightValue (m := P) d = inr (Number_of_Z z).
Proof. intros H. unfold rawHighlightValue. by_definition. rewrite H. reflexivity. Qed.

Lemma rawHighlightValue_percent (d : ChannelDef) (s : string) (e : Entity) :
  j_highlightValue (def_jsonObject d) = Some (JString s) ->
  createFromEntityString s = inr e ->
  rawHighlightValue (m := P) d = inr (percentOfMax e (declaredResolution d)).
Proof.
  intros H He. unfold rawHighlightValue, liftResult. by_definition. rewrite H.
  rewrite dmxValueResolution_def, He. reflexivity.
Qed.

Lemma rawDefaultValue_is_integer (d : ChannelDef) (raw : Number) :
  rawDefaultValue (m := P) d = inr raw -> integer_or_not_finite raw.
Proof.
  destruct (j_defaultValue (def_jsonObject d)) as [[z | s] |] eqn:Hv.
  - rewrite (rawDefaultValue_integer d z Hv). intros [= <-]. left. eexists. reflexivity.
  - destruct s as [| a s].
    + unfold rawDefaultValue. by_definition. rewrite Hv. cbn.
      intros [= <-]. left. eexists. reflexivity.
    + destruct (createFromEntityString (String a s)) as [e | entity] eqn:He.
      * unfold rawDefaultValue, liftResult. by_definition. rewrite Hv.
        cbn [js_or_zero]. rewrite He. discriminate.
      * rewrite (rawDefaultValue_percent d _ entity Hv He). intros [= <-].
        apply Math_floor_integer.
  - rewrite (rawDefaultValue_absent d Hv). intros [= <-]. left. eexists. reflexivity.
Qed.

Lemma rawHighlightValue_is_integer (d : ChannelDef) (raw : Number) :
  rawHighlightValue (m := P) d = inr raw -> integer_or_not_finite raw.
Proof.
  destruct (j_highlightValue (def_jsonObject d)) as [[z | s] |] eqn:Hv.
  - rewrite (rawHighlightValue_integer d z Hv). intros [= <-]. left. eexists. reflexivity.
  - destruct (createFromEntityString s) as [e | entity] eqn:He.
    + unfold rawHighlightValue, liftResult. by_definition. rewrite Hv.
      rewrite dmxValueResolution_def, He. discriminate.
    + rewrite (rawHighlightValue_percent d _ entity Hv He). intros [= <-].
      apply Math_floor_integer.
  - rewrite (rawHighlightValue_absent d Hv). intros [= <-].
    apply maxDmxBoundInResolution_integer, declaredResolution_pos.
Qed.

Lemma declaredResolution_nonneg (d : ChannelDef) : 0 <= declaredResolution d.
Proof. pose proof (declaredResolution_pos d). lia. Qed.

Lemma rawDefaultValue_fits (d : ChannelDef) :
  declaredResolution d <= 6 ->
  fits_resolution (declaredResolution d) (j_defaultValue (def_jsonObject d)) ->
  exists raw : Z,
    rawDefaultValue (m := P) d = inr (Number_of_Z raw)
    /\ 0 <= raw <= 256 ^ declaredResolution d - 1.
Proof.
  intros Hsix. pose proof (declaredResolution_pos d) as Hpos. unfold fits_resolution.
  destruct (j_defaultValue (def_jsonObject d)) as [[z | s] |] eqn:Hv.
  - intros Hz. exists z. split; [apply rawDefaultValue_integer, Hv | exact Hz].
  - intros (e & He & p & Hp & Hlo & Hhi).
    destruct (percentOfMax_bounds e p (declaredResolution d) Hp Hlo Hhi (conj Hpos Hsix))
      as (z & Hz & Hb).
    exists z. rewrite <- Hz. split; [apply (rawDefaultValue_percent d s e Hv He) | exact Hb].
  - intros _. exists 0. split; [apply rawDefaultValue_absent, Hv |].
    pose proof (pow256_pos _ (declaredResolution_nonneg d)). lia.
Qed.

Lemma rawHighlightValue_fits (d : ChannelDef) :
  declaredResolution d <= 6 ->
  fits_resolution (declaredResolution d) (j_highlightValue (def_jsonObject d)) ->
  exists raw : Z,
    rawHighlightValue (m := P) d = inr (Number_of_Z raw)
    /\ 0 <= raw <= 256 ^ declaredResolution d - 1.
Proof.
  intros Hsix. pose proof (declaredResolution_pos d) as Hpos. unfold fits_resolution.
  destruct (j_highlightValue (def_jsonObject d)) as [[z | s] |] eqn:Hv.
  - intros Hz. exists z. split; [apply rawHighlightValue_integer, Hv | exact Hz].
  - intros (e & He & p & Hp & Hlo & Hhi).
    destruct (percentOfMax_bounds e p (declaredResolution d) Hp Hlo Hhi (conj Hpos Hsix))
      as (z & Hz & Hb).
    exists z. rewrite <- Hz.
    split; [apply (rawHighlightValue_percent d s e Hv He) | exact Hb].
  - intros _. exists (256 ^ declaredResolution d - 1).
    rewrite <- (maxDmxBoundInResolution_exact (declaredResolution d)) by lia.
    split; [apply rawHighlightValue_absent, Hv |].
    pose proof (pow256_pos _ (declaredResolution_nonneg d)). lia.
Qed.

(** The value a value method returns at a proper resolution. *)
Lemma reachable_default_at (ch : CoarseChannel) (q : Q) (n : Z) (raw : Number) :
  reachable ch ->
  1 <= n <= maxResolution (definition ch) ->
  (q == inject_Z n)%Q ->
  rawDefaultValue (m := P) (definition ch) = inr raw ->
  result (getDefaultValueWithResolution (Finite q)) ch
  = inr (Some (scaled raw (declaredResolution (definition ch)) n)).
Proof.
  intros Hr Hn Hq Hraw. rewrite reachable_getDefaultValueWithResolution by assumption.
  destruct (valueWithResolution_def rawDefaultValue (definition ch) (Finite q))
    as [_ Hin].
  specialize (Hin q n eq_refl Hn Hq). rewrite Hraw in Hin. exact Hin.
Qed.

Lemma reachable_highlight_at (ch : CoarseChannel) (q : Q) (n : Z) (raw : Number) :
  reachable ch ->
  1 <= n <= maxResolution (definition ch) ->
  (q == inject_Z n)%Q ->
  rawHighlightValue (m := P) (definition ch) = inr raw ->
  result (getHighlightValueWithResolution (Finite q)) ch
  = inr (Some (scaled raw (declaredResolution (definition ch)) n)).
Proof.
  intros Hr Hn Hq Hraw. rewrite reachable_getHighlightValueWithResolution by assumption.
  destruct (valueWithResolution_def rawHighlightValue (definition ch) (Finite q))
    as [_ Hin].
  specialize (Hin q n eq_refl Hn Hq). rewrite Hraw in Hin. exact Hin.
Qed.

(** X6: on a channel without [highlightValue], the highlight value at
    every resolution from 1 up to the declared one is the highest DMX
    value of that resolution, 256 to the power of the resolution minus
    one, as long as the declared resolution is at most six bytes; from
    seven bytes on, where [Math.pow(256, dmxValueResolution) - 1] is the
    power itself, it is 256 to the power of the resolution.  When the
    record declares no [dmxValueResolution] this holds at every proper
    resolution, and [highlightValue] is [maxDmxBound], whatever the
    resolution is. *)
Theorem absent_highlight_value (ch : CoarseChannel) (q : Q) (n : Z) :
  reachable ch ->
  j_highlightValue (_jsonObject ch) = None ->
  1 <= n <= maxResolution (definition ch) ->
  (q == inject_Z n)%Q ->
  hasHighlightValue (definition ch) = false
  /\ (n <= declaredResolution (definition ch) ->
      (declaredResolution (definition ch) <= 6 ->
       result (getHighlightValueWithResolution (Finite q)) ch
       = inr (Some (Number_of_Z (256 ^ n - 1))))
      /\ (7 <= declaredResolution (definition ch) <= 127 ->
          result (getHighlightValueWithResolution (Finite q)) ch
          = inr (Some (Number_of_Z (256 ^ n)))))
  /\ (j_dmxValueResolution (_jsonObject ch) = None ->
      (maxResolution (definition ch) <= 6 ->
       result (getHighlightValueWithResolution (Finite q)) ch
       = inr (Some (Number_of_Z (256 ^ n - 1))))
      /\ result highlightValue ch = inr (Some (maxDmxBound (definition ch)))).
Proof.
  intros Hr Hnone Hn Hq.
  pose proof (rawHighlightValue_absent (definition ch) Hnone) as Hraw.
  pose proof (declaredResolution_pos (definition ch)) as Hpos.
  assert (Hat : forall q' n',
             1 <= n' <= maxResolution (definition ch) ->
             (q' == inject_Z n')%Q ->
             n' <= declaredResolution (definition ch) ->
             declaredResolution (definition ch) <= 6 ->
             result (getHighlightValueWithResolution (Finite q')) ch
             = inr (Some (Number_of_Z (256 ^ n' - 1)))).
  { intros q' n' Hn' Hq' Hle Hsix.
    rewrite (reachable_highlight_at ch q' n' _ Hr Hn' Hq' Hraw).
    rewrite maxDmxBoundInResolution_exact by lia.
    rewrite scaled_integer_spec. unfold scaled_integer.
    destruct (Z.leb_spec (declaredResolution (definition ch)) n').
    - replace n' with (declaredResolution (definition ch)) by lia.
      rewrite Z.sub_diag. cbn. do 3 f_equal. lia.
    - rewrite max_truncated by lia. reflexivity. }
  split; [| split].
  - unfold hasHighlightValue. cbn. rewrite Hnone. reflexivity.
  - intros Hle. split; [apply (Hat q n Hn Hq Hle) |].
    intros Hseven.
    rewrite (reachable_highlight_at ch q n _ Hr Hn Hq Hraw).
    rewrite maxDmxBoundInResolution_rounded by lia.
    rewrite scaled_integer_spec. unfold scaled_integer.
    destruct (Z.leb_spec (declaredResolution (definition ch)) n).
    + replace n with (declaredResolution (definition ch)) by lia.
      rewrite Z.sub_diag. cbn. do 3 f_equal. lia.
    + rewrite (pow256_split n (declaredResolution (definition ch))) by lia.
      rewrite Z.div_mul; [reflexivity |].
      pose proof (pow256_pos (declaredResolution (definition ch) - n)). lia.
  - intros Hdecl.
    assert (Hd : declaredResolution (definition ch) = maxResolution (definition ch))
      by (unfold declaredResolution; cbn; rewrite Hdecl; reflexivity).
    split; [intros Hsix; apply (Hat q n Hn Hq); lia |].
    rewrite (refines_result highlightValue highlightValue_def ch refines_highlightValue
               (reachable_coherent ch Hr)).
    unfold highlightValue_def, P_bind, P_this.
    rewrite <- reachable_getHighlightValueWithResolution by assumption.
    pose proof (maxResolution_pos (definition ch)).
    pose proof (reachable_highlight_at ch _ (maxResolution (definition ch)) _ Hr
                  ltac:(lia) (Qeq_refl _) Hraw) as Hmax.
    fold (Number_of_Z (maxResolution (definition ch))) in Hmax.
    rewrite Hmax, Hd, scaled_same. reflexivity.
Qed.

(** X7: a value that fits the declared resolution stays in range at
    every resolution.  When the declared resolution is at most six bytes
    and [defaultValue] and [highlightValue] are absent, integers from 0 to
    the maximum of the declared resolution, or percentages from 0 to 100,
    both value methods return, at every proper resolution, an integer
    from 0 to 256 to the power of that resolution minus one. *)
Theorem values_stay_in_range (ch : CoarseChannel) (q : Q) (n : Z) :
  reachable ch ->
  declaredResolution (definition ch) <= 6 ->
  fits_resolution (declaredResolution (definition ch)) (j_defaultValue (_jsonObject ch)) ->
  fits_resolution (declaredResolution (definition ch))
    (j_highlightValue (_jsonObject ch)) ->
  1 <= n <= maxResolution (definition ch) ->
  (q == inject_Z n)%Q ->
  exists v w : Z,
    result (getDefaultValueWithResolution (Finite q)) ch = inr (Some (Number_of_Z v))
    /\ result (getHighlightValueWithResolution (Finite q)) ch
       = inr (Some (Number_of_Z w))
    /\ 0 <= v <= 256 ^ n - 1
    /\ 0 <= w <= 256 ^ n - 1.
Proof.
  intros Hr Hsix Hdef Hhigh Hn Hq.
  destruct (rawDefaultValue_fits (definition ch) Hsix Hdef) as (raw & Hraw & Hb).
  destruct (rawHighlightValue_fits (definition ch) Hsix Hhigh) as (raw' & Hraw' & Hb').
  exists (scaled_integer raw (declaredResolution (definition ch)) n),
         (scaled_integer raw' (declaredResolution (definition ch)) n).
  rewrite <- !scaled_integer_spec.
  split; [apply (reachable_default_at ch q n _ Hr Hn Hq Hraw) |].
  split; [apply (reachable_highlight_at ch q n _ Hr Hn Hq Hraw') |].
  split; apply scaled_bounds; auto using declaredResolution_nonneg; lia.
Qed.

Lemma Number_of_Z_inj (a b : Z) : Number_of_Z a = Number_of_Z b -> a = b.
Proof. intros [= H]. exact H. Qed.

Lemma coarser_value (rawP : P Number) (d : ChannelDef) (n v : Z) :
  (forall raw, rawP d = inr raw -> integer_or_not_finite raw) ->
  1 <= n -> n + 1 <= maxResolution d ->
  P_bind (ensureProperResolution (Number_of_Z (n + 1))) (fun _ =>
    P_bind (valuePerResolution_def rawP) (fun table =>
    P_ret (js_index table (Number_of_Z (n + 1))))) d = inr (Some (Number_of_Z v)) ->
  P_bind (ensureProperResolution (Number_of_Z n)) (fun _ =>
    P_bind (valuePerResolution_def rawP) (fun table =>
    P_ret (js_index table (Number_of_Z n)))) d = inr (Some (Number_of_Z (v / 256))).
Proof.
  intros Hint Hn Hn1 Hfine.
  destruct (valueWithResolution_def rawP d (Number_of_Z (n + 1))) as [_ Hin1].
  destruct (valueWithResolution_def rawP d (Number_of_Z n)) as [_ Hin].
  cbv zeta in Hin1, Hin.
  rewrite (Hin1 _ (n + 1) eq_refl) in Hfine by (lia || reflexivity).
  rewrite (Hin _ n eq_refl) by (lia || reflexivity).
  destruct (rawP d) as [e | raw]; [discriminate |].
  injection Hfine as Hfine.
  destruct (Hint raw eq_refl) as [[z ->] | Hnot].
  - rewrite scaled_integer_spec in *. apply Number_of_Z_inj in Hfine. subst v.
    rewrite <- scaled_coarser by lia. reflexivity.
  - exfalso. destruct raw as [x | | |]; [apply (Hnot x); reflexivity | | |];
      unfold scaled in Hfine; destruct (_ <=? _); discriminate Hfine.
Qed.

(** X8: the values at the resolutions of a channel agree.  At two
    neighbouring proper resolutions, the default value at the coarser one
    is the default value at the finer one without its low byte (divided
    by 256 and floored), and so for the highlight value. *)
Theorem coarser_value_is_truncated (ch : CoarseChannel) (n : Z) :
  reachable ch ->
  1 <= n ->
  n + 1 <= maxResolution (definition ch) ->
  (forall v : Z,
      result (getDefaultValueWithResolution (Number_of_Z (n + 1))) ch
      = inr (Some (Number_of_Z v)) ->
      result (getDefaultValueWithResolution (Number_of_Z n)) ch
      = inr (Some (Number_of_Z (v / 256))))
  /\ (forall w : Z,
         result (getHighlightValueWithResolution (Number_of_Z (n + 1))) ch
         = inr (Some (Number_of_Z w)) ->
         result (getHighlightValueWithResolution (Number_of_Z n)) ch
         = inr (Some (Number_of_Z (w / 256))))
  /\ (forall v : Number,
         result (getDefaultValueWithResolution (Number_of_Z (n + 1))) ch = inr (Some v) ->
         integer_or_not_finite v)
  /\ (forall w : Number,
         result (getHighlightValueWithResolution (Number_of_Z (n + 1))) ch
         = inr (Some w) ->
         integer_or_not_finite w).
Proof.
  intros Hr Hn Hn1. split; [| split; [| split]].
  - intros v. rewrite !reachable_getDefaultValueWithResolution by assumption.
    apply coarser_value; [apply rawDefaultValue_is_integer | assumption | assumption].
  - intros v. rewrite !reachable_getHighlightValueWithResolution by assumption.
    apply coarser_value; [apply rawHighlightValue_is_integer | assumption | assumption].
  - intros v.
    destruct (rawDefaultValue (m := P) (definition ch)) as [e | raw] eqn:Hraw.
    + rewrite reachable_getDefaultValueWithResolution by assumption.
      destruct (valueWithResolution_def rawDefaultValue (definition ch)
                  (Number_of_Z (n + 1))) as [_ Hin].
      unfold getDefaultValueWithResolution_def, defaultValuePerResolution_def.
      rewrite (Hin _ (n + 1) eq_refl) by (lia || reflexivity). rewrite Hraw.
      discriminate.
    + pose proof (reachable_default_at ch _ (n + 1) raw Hr ltac:(lia) (Qeq_refl _) Hraw)
        as Hat.
      fold (Number_of_Z (n + 1)) in Hat. rewrite Hat.
      intros [= <-]. apply scaled_is_integer, (rawDefaultValue_is_integer _ _ Hraw).
  - intros w.
    destruct (rawHighlightValue (m := P) (definition ch)) as [e | raw] eqn:Hraw.
    + rewrite reachable_getHighlightValueWithResolution by assumption.
      destruct (valueWithResolution_def rawHighlightValue (definition ch)
                  (Number_of_Z (n + 1))) as [_ Hin].
      unfold getHighlightValueWithResolution_def, highlightValuePerResolution_def.
      rewrite (Hin _ (n + 1) eq_refl) by (lia || reflexivity). rewrite Hraw.
      discriminate.
    + pose proof (reachable_highlight_at ch _ (n + 1) raw Hr ltac:(lia) (Qeq_refl _) Hraw)
        as Hat.
      fold (Number_of_Z (n + 1)) in Hat. rewrite Hat.
      intros [= <-]. apply scaled_is_integer, (rawHighlightValue_is_integer _ _ Hraw).
Qed.

(** X9: an integer [defaultValue] or [highlightValue] is taken as it is,
    whatever it is: at the declared resolution (when the channel has that
    many bytes) the value method returns the integer of the record, and at
    a finer resolution that integer times 256 for every added byte. *)
Theorem integer_values_are_kept (ch : CoarseChannel) (z : Z) (n : Z) :
  reachable ch ->
  declaredResolution (definition ch) <= n <= maxResolution (definition ch) ->
  (j_defaultValue (_jsonObject ch) = Some (JInt z) ->
   result (getDefaultValueWithResolution (Number_of_Z n)) ch
   = inr (Some (Number_of_Z (z * 256 ^ (n - declaredResolution (definition ch)))))
   /\ (n = declaredResolution (definition ch) ->
       result (getDefaultValueWithResolution (Number_of_Z n)) ch
       = inr (Some (Number_of_Z z))))
  /\ (j_highlightValue (_jsonObject ch) = Some (JInt z) ->
      result (getHighlightValueWithResolution (Number_of_Z n)) ch
      = inr (Some (Number_of_Z (z * 256 ^ (n - declaredResolution (definition ch)))))
      /\ (n = declaredResolution (definition ch) ->
          result (getHighlightValueWithResolution (Number_of_Z n)) ch
          = inr (Some (Number_of_Z z)))).
Proof.
  intros Hr Hn. pose proof (declaredResolution_pos (definition ch)) as Hd.
  assert (Hs : forall raw : Z,
             scaled (Number_of_Z raw) (declaredResolution (definition ch)) n
             = Number_of_Z (raw * 256 ^ (n - declaredResolution (definition ch)))).
  { intros raw. rewrite scaled_integer_spec. unfold scaled_integer.
    destruct (Z.leb_spec (declaredResolution (definition ch)) n); [reflexivity | lia]. }
  split; intros Hz.
  - pose proof (rawDefaultValue_integer (definition ch) z Hz) as Hraw.
    assert (Hat := reachable_default_at ch (inject_Z n) n _ Hr ltac:(lia)
                     (Qeq_refl _) Hraw).
    fold (Number_of_Z n) in Hat. rewrite Hs in Hat.
    split; [exact Hat |]. intros Heq. rewrite Hat, Heq, Z.sub_diag. cbn.
    do 3 f_equal. lia.
  - pose proof (rawHighlightValue_integer (definition ch) z Hz) as Hraw.
    assert (Hat := reachable_highlight_at ch (inject_Z n) n _ Hr ltac:(lia)
                     (Qeq_refl _) Hraw).
    fold (Number_of_Z n) in Hat. rewrite Hs in Hat.
    split; [exact Hat |]. intros Heq. rewrite Hat, Heq, Z.sub_diag. cbn.
    do 3 f_equal. lia.
Qed.

End MoreValues.

(** * More on the classifier *)

Section MoreClassification.
Context {T : Types} {X : Collaborators}.

Lemma classify_found (caps : list Capability) (t : string) :
  classify caps = t ->
  (exists entry, In entry channelTypeConstraints /\ entry_matchesb caps entry = true
                 /\ t = fst entry)
  \/ (t = "Unknown" /\ forall entry, In entry channelTypeConstraints ->
                                     entry_matchesb caps entry = false).
Proof.
  unfold classify. intros <-.
  destruct (List.find (entry_matchesb caps) channelTypeConstraints) as [entry |] eqn:Hfind.
  - left. apply find_some in Hfind as [Hin Hm]. exists entry.
    split; [exact Hin |]. split; [exact Hm |].
    clear -Hin. unfold channelTypeConstraints in Hin. cbn in Hin.
    repeat (destruct Hin as [<- | Hin]; [reflexivity |]). destruct Hin.
  - right. split; [reflexivity |]. intros entry Hin.
    apply (find_none _ _ Hfind entry Hin).
Qed.

Lemma classify_matching (caps : list Capability) (entry : string * TableValue) :
  In entry channelTypeConstraints ->
  entry_matchesb caps entry = true ->
  classify caps <> "Unknown".
Proof.
  intros Hin Hm Hu. apply classify_found in Hu as [(e & He & _ & Hname) | [_ Hnone]].
  - clear -He Hname. unfold channelTypeConstraints in He. cbn in He.
    repeat (destruct He as [<- | He]; [discriminate Hname |]). destruct He.
  - rewrite (Hnone entry Hin) in Hm. discriminate.
Qed.

Lemma tags_match (caps : list Capability) (cap : Capability) (name0 : string)
      (tags : list string) :
  In cap caps -> In (cap_type cap) tags ->
  entry_matchesb caps (name0, TagArray tags) = true.
Proof.
  intros Hin Htag. unfold entry_matchesb. cbn. rewrite andb_true_r.
  apply existsb_exists. exists cap. split; [exact Hin |]. apply includes_In, Htag.
Qed.

(** The predicate of Multi-Color holds of a list without WheelSlot
    capabilities. *)
Lemma multiColorPredicate_false (caps : list Capability) :
  multiColorPredicate caps = false ->
  exists cap, In cap caps /\ cap_type cap = "WheelSlot".
Proof.
  unfold multiColorPredicate. induction caps as [| cap caps IH]; [discriminate |].
  cbn [forallb]. intros H. apply andb_false_iff in H as [H | H].
  - exists cap. split; [left; reflexivity |].
    apply orb_false_iff in H as [H _]. apply negb_false_iff, String.eqb_eq in H. exact H.
  - destruct (IH H) as (c & Hin & Ht). exists c. split; [right; exact Hin | exact Ht].
Qed.

(** Tries the entry at a position of the table, an array of tags, as a
    match for a capability whose type is known. *)
Ltac try_entry i cap Hin Ht :=
  exists (nth i channelTypeConstraints (EmptyString, TagArray []));
  split; [apply nth_In; cbn; lia |];
  unfold channelTypeConstraints; cbn [nth];
  apply (tags_match _ cap); [exact Hin | rewrite <- Ht; apply includes_In; reflexivity].

Ltac covered cap Hin Ht :=
  first [ try_entry 0%nat cap Hin Ht | try_entry 2%nat cap Hin Ht
        | try_entry 3%nat cap Hin Ht | try_entry 4%nat cap Hin Ht
        | try_entry 5%nat cap Hin Ht | try_entry 6%nat cap Hin Ht
        | try_entry 8%nat cap Hin Ht | try_entry 9%nat cap Hin Ht
        | try_entry 10%nat cap Hin Ht | try_entry 12%nat cap Hin Ht
        | try_entry 13%nat cap Hin Ht | try_entry 14%nat cap Hin Ht
        | try_entry 15%nat cap Hin Ht | try_entry 16%nat cap Hin Ht
        | try_entry 17%nat cap Hin Ht ].

Lemma ColorPreset_matches (caps : list Capability) (cap : Capability) :
  In cap caps -> "ColorPreset" = cap_type cap ->
  exists entry, In entry channelTypeConstraints /\ entry_matchesb caps entry = true.
Proof.
  intros Hin Ht. destruct (multiColorPredicate caps) eqn:Hp.
  - exists (nth 1 channelTypeConstraints (EmptyString, TagArray [])).
    split; [apply nth_In; cbn; lia |].
    unfold channelTypeConstraints; cbn [nth]. unfold entry_matchesb.
    cbn [snd normalize required predicate]. rewrite Hp, andb_true_r.
    apply existsb_exists. exists cap. split; [exact Hin |]. rewrite <- Ht. reflexivity.
  - apply multiColorPredicate_false in Hp as (c & Hc & Hct). symmetry in Hct.
    try_entry 10%nat c Hc Hct.
Qed.

(** A capability whose type the table mentions makes some entry match. *)
Lemma listed_tag_matches (caps : list Capability) (cap : Capability) :
  In cap caps -> In (cap_type cap) allTags ->
  exists entry, In entry channelTypeConstraints /\ entry_matchesb caps entry = true.
Proof.
  intros Hin Htag. unfold allTags, channelTypeConstraints in Htag. cbn in Htag.
  repeat (destruct Htag as [Ht | Htag];
          [first [covered cap Hin Ht | exact (ColorPreset_matches caps cap Hin Ht)] |]).
  destruct Htag.
Qed.

(** X10: the type of a channel is one of the eighteen names of the table
    or Unknown, and it is Unknown exactly when no capability of the channel
    has a type the table mentions: a predicate that fails never leaves a
    channel without a type, because every tag of an entry with a predicate
    is covered by a later entry without one, or by the predicate holding.
    A channel without capabilities is of type Unknown. *)
Theorem type_is_Unknown (ch : CoarseChannel) (caps : list Capability) :
  reachable ch ->
  result capabilities ch = inr caps ->
  exists t,
    result type ch = inr t
    /\ (In t typeNames \/ t = "Unknown")
    /\ ~ In "Unknown" typeNames
    /\ (t = "Unknown" <-> forall cap, In cap caps -> ~ In (cap_type cap) allTags)
    /\ (caps = [] -> t = "Unknown").
Proof.
  intros Hr Hcaps. exists (classify caps).
  split; [apply (reachable_type ch caps Hr Hcaps) |].
  split; [| split; [| split]].
  - destruct (classify_found caps _ eq_refl) as [(e & He & _ & ->) | [-> _]];
      [left | right; reflexivity].
    unfold typeNames. apply in_map, He.
  - unfold typeNames, channelTypeConstraints. cbn.
    intros H. repeat (destruct H as [H | H]; [discriminate H |]). exact H.
  - split.
    + intros Hu cap Hin Htag.
      destruct (listed_tag_matches caps cap Hin Htag) as (e & He & Hm).
      exact (classify_matching caps e He Hm Hu).
    + intros Hno.
      destruct (classify_found caps _ eq_refl) as [(e & He & Hm & _) | [Hu _]];
        [| exact Hu].
      exfalso. unfold entry_matchesb in Hm. apply andb_true_iff in Hm as [Hm _].
      apply existsb_exists in Hm as (cap & Hin & Hinc). apply includes_In in Hinc.
      apply (Hno cap Hin). unfold allTags. apply in_flat_map. exists e. auto.
  - intros ->. reflexivity.
Qed.

End MoreClassification.

(** * More on capabilities *)

Section MoreCapabilities.
Context {T : Types} {X : Collaborators}.

Lemma P_bind_value {A B : Type} (c : P A) (f : A -> P B) (d : ChannelDef) (a : A) :
  c d = inr a -> bind (m := P) c f d = f a d.
Proof. intros H. cbn. unfold P_bind. rewrite H. reflexivity. Qed.

Lemma mapM_new_Capability (d : ChannelDef) (records : list CapabilityJson) :
  mapM (m := P)
       (fun cap => bind dmxValueResolution
                        (fun resolution => ret (new_Capability cap resolution d)))
       records d
  = inr (List.map (fun cap => new_Capability cap (declaredResolution d) d) records).
Proof.
  induction records as [| cap records IH]; [reflexivity |].
  cbn [mapM List.map].
  erewrite P_bind_value;
    [| erewrite P_bind_value; [reflexivity | apply dmxValueResolution_def]].
  erewrite P_bind_value; [| exact IH]. reflexivity.
Qed.

Lemma capabilities_list_def (d : ChannelDef) (records : list CapabilityJson) :
  j_capability (def_jsonObject d) = None ->
  j_capabilities (def_jsonObject d) = Some records ->
  capabilities (m := P) d
  = inr (List.map (fun cap => new_Capability cap (declaredResolution d) d) records).
Proof.
  intros H1 H2. unfold capabilities. cbn [lazily P_monad]. unfold P_lazily.
  erewrite P_bind_value; [| reflexivity]. cbn beta. rewrite H1, H2.
  apply mapM_new_Capability.
Qed.

Lemma capabilities_missing_def (d : ChannelDef) :
  j_capability (def_jsonObject d) = None ->
  j_capabilities (def_jsonObject d) = None ->
  capabilities (m := P) d = inl TypeError.
Proof. intros H1 H2. unfold capabilities. by_definition. rewrite H1, H2. reflexivity. Qed.

(** X11: on a channel whose record has a [capabilities] list and no
    singular [capability], the capabilities getter returns one capability
    for every record of the list, in the order of the list, each made from
    its record as it is (no range is synthesized) at the resolution
    [dmxValueResolution] with the channel as its owner. *)
Theorem capabilities_follow_the_list (ch : CoarseChannel) (records : list CapabilityJson) :
  reachable ch ->
  j_capability (_jsonObject ch) = None ->
  j_capabilities (_jsonObject ch) = Some records ->
  exists caps,
    result capabilities ch = inr caps
    /\ length caps = length records
    /\ (forall i cap,
           records !! i = Some cap ->
           caps !! i
           = Some (new_Capability cap (declaredResolution (definition ch))
                     (definition ch)))
    /\ (records = [] -> caps = []).
Proof.
  intros Hr H1 H2. eexists. split.
  - rewrite reachable_capabilities by assumption.
    apply (capabilities_list_def (definition ch) records H1 H2).
  - split; [apply length_map |]. split.
    + intros i cap Hi.
      change (List.map ?f records) with (f <$> records).
      rewrite list_lookup_fmap, Hi. reflexivity.
    + intros ->. reflexivity.
Qed.

Lemma type_error_def (d : ChannelDef) (e : JsError) :
  capabilities (m := P) d = inl e -> type (m := P) d = inl e.
Proof.
  intros H. unfold type, channelTypeConstraints. cbn [findM]. unfold typeMatches.
  by_definition. rewrite H. reflexivity.
Qed.

(** X12: on a channel whose record has neither [capability] nor
    [capabilities], every property derived from the capabilities throws a
    TypeError (capabilities, type, color, isInverted, canCrossfade,
    isHelpWanted and the switching channel data), while the properties
    that do not read them are returned: the resolutions, the fine channels
    and, for a well-formed record, the default and highlight values. *)
Theorem missing_capabilities (ch : CoarseChannel) :
  reachable ch ->
  j_capability (_jsonObject ch) = None ->
  j_capabilities (_jsonObject ch) = None ->
  result capabilities ch = inl TypeError
  /\ result type ch = inl TypeError
  /\ result color ch = inl TypeError
  /\ result isInverted ch = inl TypeError
  /\ result canCrossfade ch = inl TypeError
  /\ result isHelpWanted ch = inl TypeError
  /\ result switchingChannelAliases ch = inl TypeError
  /\ result switchingChannels ch = inl TypeError
  /\ result switchToChannelKeys ch = inl TypeError
  /\ result dmxValueResolution ch = inr (declaredResolution (definition ch))
  /\ (exists fine, result fineChannels ch = inr fine)
  /\ (well_formed_values (definition ch) ->
      exists v w, result defaultValue ch = inr (Some v)
                  /\ result highlightValue ch = inr (Some w)).
Proof.
  intros Hr H1 H2.
  pose proof (reachable_coherent ch Hr) as Hc.
  pose proof (capabilities_missing_def (definition ch) H1 H2) as Hcaps.
  rewrite (refines_result _ _ ch refines_capabilities Hc).
  rewrite (refines_result _ _ ch refines_type Hc).
  rewrite (refines_result _ _ ch refines_color Hc).
  rewrite (refines_result _ _ ch refines_isInverted Hc).
  rewrite (refines_result _ _ ch refines_canCrossfade Hc).
  rewrite (refines_result _ _ ch refines_isHelpWanted Hc).
  rewrite (refines_result _ _ ch refines_switchingChannelAliases Hc).
  rewrite (refines_result _ _ ch refines_switchingChannels Hc).
  rewrite (refines_result _ _ ch refines_switchToChannelKeys Hc).
  rewrite (refines_result _ _ ch refines_fineChannels Hc).
  assert (Hal : switchingChannelAliases (m := P) (definition ch) = inl TypeError).
  { unfold switchingChannelAliases. by_definition. rewrite Hcaps. reflexivity. }
  assert (Hsc : switchingChannels (m := P) (definition ch) = inl TypeError).
  { unfold switchingChannels. by_definition. rewrite Hal. reflexivity. }
  repeat match goal with |- _ /\ _ => split end.
  - exact Hcaps.
  - apply type_error_def, Hcaps.
  - unfold color. by_definition. rewrite Hcaps. reflexivity.
  - unfold isInverted. by_definition. rewrite Hcaps. reflexivity.
  - unfold canCrossfade. by_definition. rewrite Hcaps. reflexivity.
  - unfold isHelpWanted. by_definition. rewrite Hcaps. reflexivity.
  - exact Hal.
  - exact Hsc.
  - unfold switchToChannelKeys. by_definition. rewrite Hsc. reflexivity.
  - apply reachable_dmxValueResolution, Hr.
  - unfold fineChannels. by_definition. eauto.
  - intros Hwf.
    pose proof (maxResolution_pos (definition ch)) as Hmax.
    assert (Hp : proper_resolution (definition ch)
                   (Number_of_Z (maxResolution (definition ch)))).
    { exists (maxResolution (definition ch)). split; [lia | reflexivity]. }
    destruct (value_method_check rawDefaultValue (definition ch)
                (Number_of_Z (maxResolution (definition ch)))
                (rawDefaultValue_well_formed _ Hwf)) as [_ Hd].
    destruct (value_method_check rawHighlightValue (definition ch)
                (Number_of_Z (maxResolution (definition ch)))
                (rawHighlightValue_well_formed _ Hwf)) as [_ Hh].
    destruct (Hd Hp) as [v Hv]. destruct (Hh Hp) as [w Hw]. exists v, w.
    rewrite (refines_result _ _ ch refines_defaultValue Hc).
    rewrite (refines_result _ _ ch refines_highlightValue Hc).
    split; [exact Hv | exact Hw].
Qed.

Lemma color_def (d : ChannelDef) (caps : list Capability) :
  capabilities (m := P) d = inr caps ->
  color (m := P) d
  = inr match List.find (fun cap => String.eqb (cap_type cap) "ColorIntensity") caps with
        | Some cap => cap_color cap
        | None => None
        end.
Proof. intros H. unfold color. by_definition. rewrite H. reflexivity. Qed.

Lemma isHelpWanted_def (d : ChannelDef) (caps : list Capability) :
  capabilities (m := P) d = inr caps ->
  isHelpWanted (m := P) d
  = inr (existsb (fun cap => bool_decide (is_Some (cap_helpWanted cap))) caps).
Proof. intros H. unfold isHelpWanted. by_definition. rewrite H. reflexivity. Qed.

Lemma switchingChannelAliases_def (d : ChannelDef) (caps : list Capability) :
  capabilities (m := P) d = inr caps ->
  switchingChannelAliases (m := P) d
  = match caps with
    | first :: _ => inr (List.map fst (cap_switchChannels first))
    | [] => inl TypeError
    end.
Proof.
  intros H. unfold switchingChannelAliases. by_definition. rewrite H.
  destruct caps; reflexivity.
Qed.

Lemma switchingChannels_def (d : ChannelDef) (aliases : list string) :
  switchingChannelAliases (m := P) d = inr aliases ->
  switchingChannels (m := P) d
  = inr (List.map (fun alias => new_SwitchingChannel alias d) aliases).
Proof. intros H. unfold switchingChannels. by_definition. rewrite H. reflexivity. Qed.

Lemma switchToChannelKeys_def (d : ChannelDef) (channels : list SwitchingChannel) :
  switchingChannels (m := P) d = inr channels ->
  switchToChannelKeys (m := P) d = inr (List.flat_map sc_switchToChannelKeys channels).
Proof. intros H. unfold switchToChannelKeys. by_definition. rewrite H. reflexivity. Qed.

(** X13: the edge of a channel with an empty capability list.  Its type
    is Unknown, its color is null, it is not inverted, cannot crossfade
    and wants no help; asking for its switching channel aliases, switching
    channels or switch-to keys throws a TypeError, since they read the
    first capability. *)
Theorem no_capabilities (ch : CoarseChannel) :
  reachable ch ->
  result capabilities ch = inr [] ->
  result type ch = inr "Unknown"
  /\ result color ch = inr None
  /\ result isInverted ch = inr false
  /\ result canCrossfade ch = inr false
  /\ result isHelpWanted ch = inr false
  /\ result switchingChannelAliases ch = inl TypeError
  /\ result switchingChannels ch = inl TypeError
  /\ result switchToChannelKeys ch = inl TypeError.
Proof.
  intros Hr Hcaps.
  pose proof (reachable_coherent ch Hr) as Hc.
  split; [apply (reachable_type ch [] Hr Hcaps) |].
  split; [| split; [apply (reachable_isInverted ch [] Hr Hcaps) |
                    split; [apply (reachable_canCrossfade ch [] Hr Hcaps) |]]].
  - rewrite (refines_result _ _ ch refines_color Hc).
    rewrite reachable_capabilities in Hcaps by assumption.
    apply (color_def _ [] Hcaps).
  - rewrite reachable_capabilities in Hcaps by assumption.
    rewrite (refines_result _ _ ch refines_isHelpWanted Hc).
    rewrite (refines_result _ _ ch refines_switchingChannelAliases Hc).
    rewrite (refines_result _ _ ch refines_switchingChannels Hc).
    rewrite (refines_result _ _ ch refines_switchToChannelKeys Hc).
    pose proof (switchingChannelAliases_def _ [] Hcaps) as Hal.
    assert (Hsc : switchingChannels (m := P) (definition ch) = inl TypeError).
    { unfold switchingChannels. by_definition. rewrite Hal. reflexivity. }
    split; [apply (isHelpWanted_def _ [] Hcaps) |].
    split; [exact Hal |]. split; [exact Hsc |].
    unfold switchToChannelKeys. by_definition. rewrite Hsc. reflexivity.
Qed.

(** X14: the switching channels of a channel come from its first
    capability alone.  With at least one capability, the aliases are the
    keys of the first capability's [switchChannels] in their order,
    whatever the other capabilities declare; there is one switching
    channel for every alias, made from the alias with the channel as its
    owner; and the switch-to keys are those of the switching channels, one
    after the other. *)
Theorem switching_channels_of_first_capability (ch : CoarseChannel)
        (first : Capability) (others : list Capability) :
  reachable ch ->
  result capabilities ch = inr (first :: others) ->
  let aliases := List.map fst (cap_switchChannels first) in
  let channels :=
    List.map (fun alias => new_SwitchingChannel alias (definition ch)) aliases in
  result switchingChannelAliases ch = inr aliases
  /\ result switchingChannels ch = inr channels
  /\ length channels = length (cap_switchChannels first)
  /\ result switchToChannelKeys ch
     = inr (List.flat_map sc_switchToChannelKeys channels)
  /\ (cap_switchChannels first = [] ->
      result switchingChannels ch = inr []
      /\ result switchToChannelKeys ch = inr []).
Proof.
  intros Hr Hcaps aliases channels.
  pose proof (reachable_coherent ch Hr) as Hc.
  rewrite reachable_capabilities in Hcaps by assumption.
  pose proof (switchingChannelAliases_def _ _ Hcaps) as Hal. cbn iota in Hal.
  pose proof (switchingChannels_def _ _ Hal) as Hsc.
  pose proof (switchToChannelKeys_def _ _ Hsc) as Hkeys.
  rewrite (refines_result _ _ ch refines_switchingChannelAliases Hc).
  rewrite (refines_result _ _ ch refines_switchingChannels Hc).
  rewrite (refines_result _ _ ch refines_switchToChannelKeys Hc).
  split; [exact Hal |]. split; [exact Hsc |].
  split; [subst channels aliases; rewrite !length_map; reflexivity |].
  split; [exact Hkeys |].
  intros Hnil. rewrite Hsc, Hkeys. subst channels aliases. rewrite Hnil. auto.
Qed.

(** X15: there is one fine channel for every fine channel alias, in the
    order of the aliases, made from the alias with the channel as its
    owner, so that [maxResolution] is one more than the number of fine
    channels; a record without aliases has no fine channels. *)
Theorem fineChannels_follow_the_aliases (ch : CoarseChannel) :
  reachable ch ->
  exists fine,
    result fineChannels ch = inr fine
    /\ maxResolution (definition ch) = 1 + Z.of_nat (length fine)
    /\ (forall i alias,
           fineChannelAliases (definition ch) !! i = Some alias ->
           fine !! i = Some (new_FineChannel alias (definition ch)))
    /\ (j_fineChannelAliases (_jsonObject ch) = None -> fine = []).
Proof.
  intros Hr. eexists. split.
  - rewrite (refines_result _ _ ch refines_fineChannels (reachable_coherent ch Hr)).
    unfold fineChannels. by_definition. reflexivity.
  - split; [unfold maxResolution; rewrite length_map; reflexivity |]. split.
    + intros i alias Hi.
      change (List.map ?f ?l) with (f <$> l).
      rewrite list_lookup_fmap, Hi. reflexivity.
    + intros Hnone. unfold fineChannelAliases. cbn. rewrite Hnone. reflexivity.
Qed.

End MoreCapabilities.

(** * More on the types Single Color, Strobe and Shutter *)

Section ColorAndShutter.
Context {T : Types} {X : Collaborators}.

Lemma classify_Single_Color (caps : list Capability) :
  classify caps = "Single Color"
  <-> exists cap, In cap caps /\ cap_type cap = "ColorIntensity".
Proof.
  unfold classify.
  set (first := ("Single Color", TagArray ["ColorIntensity"])).
  change channelTypeConstraints with (first :: tl channelTypeConstraints).
  remember (tl channelTypeConstraints) as others eqn:Hothers.
  cbn [List.find].
  destruct (entry_matchesb caps first) eqn:Hm.
  - split; [intros _ | reflexivity].
    unfold entry_matchesb in Hm. apply andb_true_iff in Hm as [Hm _].
    apply existsb_exists in Hm as (cap & Hin & Hinc). exists cap.
    split; [exact Hin |]. apply includes_In in Hinc. cbn in Hinc.
    destruct Hinc as [<- | []]. reflexivity.
  - split.
    + intros Hname. exfalso.
      match type of Hname with or_Unknown ?found = _ => destruct found as [e |] eqn:Hfind end;
        [| discriminate Hname].
      apply find_some in Hfind as [Hin _]. rewrite Hothers in Hin. cbn in Hin.
      repeat (destruct Hin as [<- | Hin]; [discriminate Hname |]). destruct Hin.
    + intros (cap & Hin & Ht). exfalso.
      rewrite (tags_match caps cap "Single Color" ["ColorIntensity"] Hin) in Hm;
        [discriminate |]. rewrite Ht. left. reflexivity.
Qed.

Lemma find_first_Some {A : Type} (f : A -> bool) (before : list A) (x : A)
      (later : list A) :
  (forall y, In y before -> f y = false) -> f x = true ->
  List.find f (before ++ x :: later)%list = Some x.
Proof.
  intros Hb Hx. induction before as [| y before IH]; cbn.
  - rewrite Hx. reflexivity.
  - rewrite (Hb y (or_introl eq_refl)). apply IH. intros z Hz. apply Hb. right. exact Hz.
Qed.

(** X16: a channel is of type Single Color exactly when one of its
    capabilities is a ColorIntensity, whatever its other capabilities are;
    its color is the color of the first ColorIntensity capability, and
    null when it has none, so that a channel with a color is a Single
    Color channel. *)
Theorem color_and_Single_Color (ch : CoarseChannel) (caps : list Capability) :
  reachable ch ->
  result capabilities ch = inr caps ->
  (result type ch = inr "Single Color"
   <-> exists cap, In cap caps /\ cap_type cap = "ColorIntensity")
  /\ (forall before cap later,
         caps = (before ++ cap :: later)%list ->
         cap_type cap = "ColorIntensity" ->
         (forall other, In other before -> cap_type other <> "ColorIntensity") ->
         result color ch = inr (cap_color cap))
  /\ ((forall cap, In cap caps -> cap_type cap <> "ColorIntensity") ->
      result color ch = inr None)
  /\ (forall c, result color ch = inr (Some c) -> result type ch = inr "Single Color").
Proof.
  intros Hr Hcaps.
  rewrite (reachable_type ch caps Hr Hcaps).
  rewrite (refines_result _ _ ch refines_color (reachable_coherent ch Hr)).
  rewrite reachable_capabilities in Hcaps by assumption.
  rewrite (color_def _ caps Hcaps).
  split; [| split; [| split]].
  - split.
    + intros H. injection H as H. apply classify_Single_Color, H.
    + intros H. f_equal. apply classify_Single_Color, H.
  - intros before cap later -> Ht Hb.
    rewrite (find_first_Some _ before cap later); [reflexivity | |].
    + intros y Hy. apply String.eqb_neq, Hb, Hy.
    + rewrite Ht. reflexivity.
  - intros Hno.
    destruct (List.find _ caps) as [cap |] eqn:Hfind; [| reflexivity].
    apply find_some in Hfind as [Hin Ht]. apply String.eqb_eq in Ht.
    destruct (Hno cap Hin Ht).
  - intros c Hc. f_equal. apply classify_Single_Color.
    destruct (List.find _ caps) as [cap |] eqn:Hfind; [| discriminate Hc].
    apply find_some in Hfind as [Hin Ht]. apply String.eqb_eq in Ht. eauto.
Qed.

Lemma existsb_same_type (caps : list Capability) (t : string) (f : string -> bool) :
  caps <> [] ->
  (forall cap, In cap caps -> cap_type cap = t) ->
  existsb (fun cap => f (cap_type cap)) caps = f t.
Proof.
  intros Hne Hall. destruct caps as [| cap caps]; [congruence |]. clear Hne.
  cbn [existsb]. rewrite (Hall cap (or_introl eq_refl)).
  destruct (f t) eqn:Hf; [reflexivity |]. cbn.
  induction caps as [| c caps IH]; [reflexivity |].
  cbn [existsb]. rewrite (Hall c (or_intror (or_introl eq_refl))), Hf. cbn.
  apply IH. intros x [<- | Hx]; apply Hall; [left | right; right]; auto.
Qed.

Lemma classify_shutter (caps : list Capability) :
  caps <> [] ->
  (forall cap, In cap caps -> cap_type cap = "ShutterStrobe") ->
  classify caps = if strobePredicate caps then "Strobe" else "Shutter".
Proof.
  intros Hne Hall. unfold classify, channelTypeConstraints, entry_matchesb.
  cbn [List.find snd normalize required predicate].
  rewrite !(existsb_same_type caps "ShutterStrobe" _ Hne Hall).
  cbn -[strobePredicate]. destruct (strobePredicate caps); reflexivity.
Qed.

Lemma strobePredicate_spec (caps : list Capability) :
  (forall cap, In cap caps -> cap_type cap = "ShutterStrobe") ->
  strobePredicate caps = true
  <-> exists cap, In cap caps
                  /\ cap_shutterEffect cap <> Some "Open"
                  /\ cap_shutterEffect cap <> Some "Closed".
Proof.
  intros Hall. unfold strobePredicate. rewrite existsb_exists.
  split; intros (cap & Hin & H); exists cap; (split; [exact Hin |]).
  - apply andb_true_iff in H as [_ H]. apply negb_true_iff in H.
    destruct (cap_shutterEffect cap) as [effect |]; [| split; discriminate].
    split; intros Heq; injection Heq as ->; discriminate H.
  - rewrite (Hall cap Hin). cbn. destruct H as [Ho Hc].
    destruct (cap_shutterEffect cap) as [effect |]; [| reflexivity].
    apply negb_true_iff. unfold includes. cbn.
    destruct (String.eqb_spec effect "Open") as [-> | _]; [congruence |].
    destruct (String.eqb_spec effect "Closed") as [-> | _]; [congruence |].
    reflexivity.
Qed.

(** X17: how Strobe and Shutter divide the shutter channels.  A channel
    all of whose capabilities (at least one) are of type ShutterStrobe is
    of type Strobe when one of them has a shutter effect other than Open
    and Closed (a capability without a shutter effect counts as such), and
    of type Shutter otherwise: a channel that only opens and closes is a
    Shutter. *)
Theorem strobe_or_shutter (ch : CoarseChannel) (caps : list Capability) :
  reachable ch ->
  result capabilities ch = inr caps ->
  caps <> [] ->
  (forall cap, In cap caps -> cap_type cap = "ShutterStrobe") ->
  (result type ch = inr "Strobe" \/ result type ch = inr "Shutter")
  /\ (result type ch = inr "Strobe"
      <-> exists cap, In cap caps
                      /\ cap_shutterEffect cap <> Some "Open"
                      /\ cap_shutterEffect cap <> Some "Closed")
  /\ (result type ch = inr "Shutter"
      <-> forall cap, In cap caps ->
                      cap_shutterEffect cap = Some "Open"
                      \/ cap_shutterEffect cap = Some "Closed").
Proof.
  intros Hr Hcaps Hne Hall.
  rewrite (reachable_type ch caps Hr Hcaps), (classify_shutter caps Hne Hall).
  pose proof (strobePredicate_spec caps Hall) as Hspec.
  destruct (strobePredicate caps).
  - split; [left; reflexivity |]. split.
    + split; [intros _; apply Hspec; reflexivity | reflexivity].
    + split; [discriminate |]. intros Hoc. exfalso.
      destruct Hspec as [Hspec _]. destruct (Hspec eq_refl) as (cap & Hin & Ho & Hc).
      destruct (Hoc cap Hin); contradiction.
  - split; [right; reflexivity |]. split.
    + split; [discriminate |]. intros Hex. apply Hspec in Hex. discriminate.
    + split; [intros _ | reflexivity]. intros cap Hin.
      destruct (cap_shutterEffect cap) as [effect |] eqn:He.
      * destruct (String.eqb_spec effect "Open") as [-> | Hno]; [left; reflexivity |].
        destruct (String.eqb_spec effect "Closed") as [-> | Hnc]; [right; reflexivity |].
        exfalso. assert (Hf : false = true); [| discriminate Hf].
        apply Hspec. exists cap. rewrite He.
        split; [exact Hin |]. split; congruence.
      * exfalso. assert (Hf : false = true); [| discriminate Hf].
        apply Hspec. exists cap. rewrite He. split; [exact Hin |]. split; discriminate.
Qed.

End ColorAndShutter.

(** * The channel in a mode *)

Section ModeTheorems.
Context {T : Types} {V : ModeView}.

Lemma filter_length_bounds {A : Type} (f : A -> bool) (l : list A) :
  (length (List.filter f l) <= length l)%nat
  /\ (length (List.filter f l) = 0%nat <-> forall x, In x l -> f x = false)
  /\ (length (List.filter f l) = length l <-> forall x, In x l -> f x = true).
Proof.
  induction l as [| a l (Hle & Hzero & Hall)]; cbn.
  - split; [lia |]. split; (split; [intros _ x [] | reflexivity]).
  - destruct (f a) eqn:Ha; cbn.
    + split; [lia |]. split; split.
      * discriminate.
      * intros H. rewrite (H a (or_introl eq_refl)) in Ha. discriminate.
      * intros H x [<- | Hx]; [exact Ha |]. apply Hall; [lia | exact Hx].
      * intros H. f_equal. apply Hall. intros x Hx. apply H. right. exact Hx.
    + split; [lia |]. split; split.
      * intros H x [<- | Hx]; [exact Ha |]. apply Hzero; assumption.
      * intros H. apply Hzero. intros x Hx. apply H. right. exact Hx.
      * intros H. lia.
      * intros H. rewrite (H a (or_introl eq_refl)) in Ha. discriminate.
Qed.

(** The number of elements a filter keeps is the number of positions at
    which the list has an element passing the test. *)
Lemma filter_positions {A : Type} (f : A -> bool) (l : list A) :
  exists positions : list nat,
    NoDup positions
    /\ (forall i, i ∈ positions <-> exists x, l !! i = Some x /\ f x = true)
    /\ length (List.filter f l) = length positions.
Proof.
  induction l as [| a l (positions & Hnodup & Hin & Hlen)].
  - exists []. split; [constructor |]. split; [| reflexivity].
    intros i. split; [intros H; inversion H | intros (x & Hx & _); discriminate Hx].
  - assert (Hshift : forall i, i ∈ (S <$> positions)
                               <-> exists j, i = S j
                                             /\ exists x, l !! j = Some x /\ f x = true).
    { intros i. rewrite list_elem_of_fmap. split.
      - intros (j & -> & Hj). exists j. split; [reflexivity | apply Hin, Hj].
      - intros (j & -> & Hj). exists j. split; [reflexivity | apply Hin, Hj]. }
    assert (Hnodup' : NoDup (S <$> positions))
      by (apply NoDup_fmap; [intros x y [= ->]; reflexivity | exact Hnodup]).
    cbn [List.filter]. destruct (f a) eqn:Ha.
    + exists (0%nat :: (S <$> positions)). split; [| split].
      * constructor; [| exact Hnodup'].
        rewrite Hshift. intros (j & Hj & _). discriminate Hj.
      * intros i. rewrite elem_of_cons, Hshift. split.
        -- intros [-> | (j & -> & Hj)]; [exists a; auto | exact Hj].
        -- destruct i as [| j]; [left; reflexivity |].
           intros Hj. right. exists j. auto.
      * cbn. rewrite length_fmap. f_equal. exact Hlen.
    + exists (S <$> positions). split; [exact Hnodup' |]. split.
      * intros i. rewrite Hshift. split.
        -- intros (j & -> & Hj). exact Hj.
        -- destruct i as [| j].
           ++ intros (x & [= <-] & Hx). congruence.
           ++ intros Hj. exists j. auto.
      * rewrite length_fmap. exact Hlen.
Qed.

(** X18: the resolution of a channel in a mode counts the channel's own
    key and its fine channel aliases for which the mode reports an index
    other than -1: it is the number of positions of the list of these
    keys, the channel's key first, whose key the mode uses.  So it is at
    least 0 and at most [maxResolution], it is 0 exactly when the mode
    uses none of these keys, and [maxResolution] exactly when it uses all
    of them. *)
Theorem getResolutionInMode_counts (ch : CoarseChannel) (mode : Mode)
        (behavior : option SwitchingChannelBehavior) :
  let resolution := getResolutionInMode (definition ch) mode behavior in
  let keys := key ch :: fineChannelAliases (definition ch) in
  (exists positions : list nat,
      NoDup positions
      /\ (forall i, i ∈ positions
                    <-> exists chKey, keys !! i = Some chKey
                                      /\ getChannelIndex mode chKey behavior <> -1)
      /\ resolution = Z.of_nat (length positions))
  /\ 0 <= resolution <= maxResolution (definition ch)
  /\ (resolution = 0
      <-> forall chKey, In chKey keys -> getChannelIndex mode chKey behavior = -1)
  /\ (resolution = maxResolution (definition ch)
      <-> forall chKey, In chKey keys -> getChannelIndex mode chKey behavior <> -1).
Proof.
  cbv zeta. unfold getResolutionInMode, maxResolution.
  set (used := fun chKey => negb (getChannelIndex mode chKey behavior =? -1)).
  change (def_key (definition ch)) with (key ch).
  set (keys := key ch :: fineChannelAliases (definition ch)).
  destruct (filter_length_bounds used keys) as (Hle & Hzero & Hall).
  assert (Hlen : length keys = S (length (fineChannelAliases (definition ch))))
    by reflexivity.
  split; [| split; [lia | split]].
  - destruct (filter_positions used keys) as (positions & Hnodup & Hin & Hcount).
    exists positions. split; [exact Hnodup |]. split; [| rewrite Hcount; reflexivity].
    intros i. rewrite Hin. unfold used.
    split; intros (chKey & Hk & Hu); exists chKey; (split; [exact Hk |]).
    + apply negb_true_iff, Z.eqb_neq in Hu. exact Hu.
    + apply negb_true_iff, Z.eqb_neq. exact Hu.
  - split.
    + intros H chKey Hin. assert (H0 : length (List.filter used keys) = 0%nat) by lia.
      destruct Hzero as [Hzero _]. specialize (Hzero H0 chKey Hin).
      unfold used in Hzero. apply negb_false_iff, Z.eqb_eq in Hzero. exact Hzero.
    + intros H. destruct Hzero as [_ Hzero]. rewrite Hzero; [reflexivity |].
      intros chKey Hin. unfold used. rewrite (H chKey Hin). reflexivity.
  - split.
    + intros H chKey Hin.
      assert (H0 : length (List.filter used keys) = length keys) by lia.
      destruct Hall as [Hall _]. specialize (Hall H0 chKey Hin).
      unfold used in Hall. apply negb_true_iff, Z.eqb_neq in Hall. exact Hall.
    + intros H. destruct Hall as [_ Hall]. rewrite Hall; [lia |].
      intros chKey Hin. unfold used. apply negb_true_iff, Z.eqb_neq, H, Hin.
Qed.

End ModeTheorems.

(** * The positions of fine channels *)

Section FinePositionTheorems.
Context {T : Types} {V : ModeView} {F : FixtureView}.

(** [array.some] with a callback that looks at the index *)
Lemma some_at_index {A : Type} (f : nat -> A -> bool) (l : list A) :
  existsb (fun '(i, x) => f i x) (imap pair l) = true
  <-> exists i x, l !! i = Some x /\ f i x = true.
Proof.
  rewrite existsb_exists. split.
  - intros ([i x] & Hin & Hf). exists i, x. split; [| exact Hf].
    apply list_elem_of_In, elem_of_lookup_imap in Hin.
    destruct Hin as (j & y & Heq & Hj). injection Heq as -> ->. exact Hj.
  - intros (i & x & Hi & Hf). exists (i, x). split; [| exact Hf].
    apply list_elem_of_In. apply (elem_of_lookup_imap_2 pair l x i Hi).
Qed.

Lemma feature_spec (at_position : Fixture -> Mode -> nat -> string -> bool)
      (fixture : Fixture) :
  existsb (fun mode =>
             existsb (fun '(chPos, chKey) => at_position fixture mode chPos chKey)
                     (imap pair (channelKeys mode)))
          (modes fixture) = true
  <-> exists mode chPos chKey,
        In mode (modes fixture)
        /\ channelKeys mode !! chPos = Some chKey
        /\ at_position fixture mode chPos chKey = true.
Proof.
  rewrite existsb_exists. split.
  - intros (mode & Hmode & H). apply some_at_index in H as (chPos & chKey & Hk & Hf).
    exists mode, chPos, chKey. auto.
  - intros (mode & chPos & chKey & Hmode & Hk & Hf). exists mode.
    split; [exact Hmode |]. apply some_at_index. eauto.
Qed.

(** X19: the feature "Fine before coarse".  A fixture has it exactly when
    one of its modes lists, at some position, a key that is a fine channel
    of the fixture, and that position is below the index the mode reports
    for the fine channel's coarse channel.  A fine channel whose coarse
    channel the mode does not use (index -1) never counts, and a fixture
    whose modes list no fine channel does not have the feature. *)
Theorem fineBeforeCoarse_spec (fixture : Fixture) :
  (fineBeforeCoarse fixture = true
   <-> exists mode chPos chKey channel,
         In mode (modes fixture)
         /\ channelKeys mode !! chPos = Some chKey
         /\ getChannelByKey fixture chKey = IsFineChannel channel
         /\ Z.of_nat chPos < getChannelIndex mode (key (coarseChannel channel)) None)
  /\ ((forall mode chKey channel,
          In mode (modes fixture) -> In chKey (channelKeys mode) ->
          getChannelByKey fixture chKey = IsFineChannel channel ->
          getChannelIndex mode (key (coarseChannel channel)) None = -1) ->
      fineBeforeCoarse fixture = false)
  /\ ((forall mode chKey channel,
          In mode (modes fixture) -> In chKey (channelKeys mode) ->
          getChannelByKey fixture chKey <> IsFineChannel channel) ->
      fineBeforeCoarse fixture = false).
Proof.
  assert (Hspec : fineBeforeCoarse fixture = true
                  <-> exists mode chPos chKey channel,
                        In mode (modes fixture)
                        /\ channelKeys mode !! chPos = Some chKey
                        /\ getChannelByKey fixture chKey = IsFineChannel channel
                        /\ Z.of_nat chPos
                           < getChannelIndex mode (key (coarseChannel channel)) None).
  { unfold fineBeforeCoarse. rewrite (feature_spec fineBeforeCoarse_at). split.
    - intros (mode & chPos & chKey & Hmode & Hk & Hf). unfold fineBeforeCoarse_at in Hf.
      destruct (getChannelByKey fixture chKey) as [| channel | |] eqn:Hc;
        try discriminate Hf.
      apply Z.ltb_lt in Hf. exists mode, chPos, chKey, channel. auto.
    - intros (mode & chPos & chKey & channel & Hmode & Hk & Hc & Hlt).
      exists mode, chPos, chKey. split; [exact Hmode |]. split; [exact Hk |].
      unfold fineBeforeCoarse_at. rewrite Hc. apply Z.ltb_lt, Hlt. }
  split; [exact Hspec |]. split.
  - intros Habsent. destruct (fineBeforeCoarse fixture) eqn:Hf; [| reflexivity].
    destruct Hspec as [Hspec _].
    destruct (Hspec eq_refl) as (mode & chPos & chKey & channel & Hmode & Hk & Hc & Hlt).
    assert (Hin : In chKey (channelKeys mode))
      by (apply list_elem_of_In, (list_elem_of_lookup_2 _ chPos), Hk).
    rewrite (Habsent mode chKey channel Hmode Hin Hc) in Hlt. lia.
  - intros Hnone. destruct (fineBeforeCoarse fixture) eqn:Hf; [| reflexivity].
    destruct Hspec as [Hspec _].
    destruct (Hspec eq_refl) as (mode & chPos & chKey & channel & Hmode & Hk & Hc & Hlt).
    assert (Hin : In chKey (channelKeys mode))
      by (apply list_elem_of_In, (list_elem_of_lookup_2 _ chPos), Hk).
    destruct (Hnone mode chKey channel Hmode Hin Hc).
Qed.

(** X20: the feature "Fine not-adjacent after coarse".  A fixture has it
    exactly when one of its modes lists, at some position, a key that is a
    fine channel of the fixture, and that position is more than one above
    the index the mode reports for the fine channel's coarser channel.  A
    fine channel directly after its coarser channel does not count; one
    whose coarser channel the mode does not use (index -1) counts at every
    position but the first. *)
Theorem fineNotAdjacent_spec (fixture : Fixture) :
  (fineNotAdjacent fixture = true
   <-> exists mode chPos chKey channel,
         In mode (modes fixture)
         /\ channelKeys mode !! chPos = Some chKey
         /\ getChannelByKey fixture chKey = IsFineChannel channel
         /\ getChannelIndex mode (coarserChannel_key channel) None + 1 < Z.of_nat chPos)
  /\ (forall mode chPos chKey channel,
         In mode (modes fixture) ->
         channelKeys mode !! chPos = Some chKey ->
         getChannelByKey fixture chKey = IsFineChannel channel ->
         getChannelIndex mode (coarserChannel_key channel) None = -1 ->
         (0 < chPos)%nat ->
         fineNotAdjacent fixture = true)
  /\ ((forall mode chPos chKey channel,
          In mode (modes fixture) ->
          channelKeys mode !! chPos = Some chKey ->
          getChannelByKey fixture chKey = IsFineChannel channel ->
          Z.of_nat chPos <= getChannelIndex mode (coarserChannel_key channel) None + 1) ->
      fineNotAdjacent fixture = false).
Proof.
  assert (Hspec : fineNotAdjacent fixture = true
                  <-> exists mode chPos chKey channel,
                        In mode (modes fixture)
                        /\ channelKeys mode !! chPos = Some chKey
                        /\ getChannelByKey fixture chKey = IsFineChannel channel
                        /\ getChannelIndex mode (coarserChannel_key channel) None + 1
                           < Z.of_nat chPos).
  { unfold fineNotAdjacent. rewrite (feature_spec fineNotAdjacent_at). split.
    - intros (mode & chPos & chKey & Hmode & Hk & Hf). unfold fineNotAdjacent_at in Hf.
      destruct (getChannelByKey fixture chKey) as [| channel | |] eqn:Hc;
        try discriminate Hf.
      apply Z.ltb_lt in Hf. exists mode, chPos, chKey, channel. auto.
    - intros (mode & chPos & chKey & channel & Hmode & Hk & Hc & Hlt).
      exists mode, chPos, chKey. split; [exact Hmode |]. split; [exact Hk |].
      unfold fineNotAdjacent_at. rewrite Hc. apply Z.ltb_lt, Hlt. }
  split; [exact Hspec |]. split.
  - intros mode chPos chKey channel Hmode Hk Hc Habsent Hpos.
    apply Hspec. exists mode, chPos, chKey, channel.
    split; [exact Hmode |]. split; [exact Hk |]. split; [exact Hc |]. lia.
  - intros Hadj. destruct (fineNotAdjacent fixture) eqn:Hf; [| reflexivity].
    destruct Hspec as [Hspec _].
    destruct (Hspec eq_refl) as (mode & chPos & chKey & channel & Hmode & Hk & Hc & Hlt).
    specialize (Hadj mode chPos chKey channel Hmode Hk Hc). lia.
Qed.

End FinePositionTheorems.

(** * The further theorems at concrete channels *)

Section MoreInstances.
#[local] Existing Instance Demo.types.
#[local] Existing Instance Demo.collaborators.

Example shutter_type : result type DemoChannels.shutter = inr "Strobe".
Proof. reflexivity. Qed.

Example shutter_default_16bit :
  result defaultValue DemoChannels.shutter = inr (Some (Number_of_Z 2560)).
Proof. vm_compute. reflexivity. Qed.

Example red_type : result type DemoChannels.red = inr "Single Color".
Proof. reflexivity. Qed.

Example fine_before_coarse :
  fineBeforeCoarse (F := DemoModes.fixtureView) tt = true.
Proof. reflexivity. Qed.

Example fine_not_adjacent :
  fineNotAdjacent (F := DemoModes.fixtureView) tt = true.
Proof. reflexivity. Qed.

Example coarse_only_has_no_feature :
  fineBeforeCoarse (F := DemoModes.coarseOnlyView) tt = false
  /\ fineNotAdjacent (F := DemoModes.coarseOnlyView) tt = false.
Proof. split; reflexivity. Qed.

Example dimmer_resolution_in_modes :
  getResolutionInMode (V := DemoModes.view) (definition Demo.dimmer)
    ["Pan"; "Dimmer"; "Pan fine"] None = 1
  /\ getResolutionInMode (V := DemoModes.view) (definition Demo.dimmer)
       ["Dimmer"; "Dimmer fine"] None = 2
  /\ getResolutionInMode (V := DemoModes.view) (definition Demo.dimmer)
       ["Pan"] None = 0.
Proof. repeat split; reflexivity. Qed.

Lemma reads_do_not_interfere_witness :
  reachable Demo.zoom
  /\ forallb (fun c => negb (is_assignment c))
             [get_canCrossfade; call_getDefaultValueWithResolution (Number_of_Z 1)]
     = true
  /\ result type
       (execs [get_canCrossfade; call_getDefaultValueWithResolution (Number_of_Z 1)]
              Demo.zoom)
     = result type Demo.zoom.
Proof.
  split; [apply reachable_new |]. split; [reflexivity |].
  exact (proj1 (reads_do_not_interfere Demo.zoom
                  [get_canCrossfade; call_getDefaultValueWithResolution (Number_of_Z 1)]
                  (reachable_new _ _ _) eq_refl)).
Defined.

Lemma calls_keep_the_definition_witness :
  reachable Demo.zoom
  /\ forallb (fun c => negb (is_assignment c)) [get_type; get_isInverted] = true
  /\ key (execs [get_type; get_isInverted] Demo.zoom) = key Demo.zoom.
Proof.
  split; [apply reachable_new |]. split; [reflexivity |].
  exact (proj1 (calls_keep_the_definition Demo.zoom [get_type; get_isInverted]
                  (reachable_new _ _ _) eq_refl)).
Defined.

Lemma dimmer_3_is_improper : ~ proper_resolution (definition Demo.dimmer) (Number_of_Z 3).
Proof. intros H. apply improper_spec in H. vm_compute in H. discriminate H. Defined.

Lemma improper_resolution_changes_nothing_witness :
  ~ proper_resolution (definition Demo.dimmer) (Number_of_Z 3)
  /\ getDefaultValueWithResolution (Number_of_Z 3) Demo.dimmer
     = (Demo.dimmer, inl RangeError).
Proof.
  split; [exact dimmer_3_is_improper |].
  exact (proj1 (proj2 (improper_resolution_changes_nothing Demo.dimmer (Number_of_Z 3)
                         dimmer_3_is_improper))).
Defined.

Lemma unparsable_1_is_proper :
  proper_resolution (definition DemoChannels.unparsable) (Number_of_Z 1).
Proof. exists 1. split; [vm_compute; split; discriminate | reflexivity]. Defined.

Lemma unparsable_default_value_witness :
  reachable DemoChannels.unparsable
  /\ j_defaultValue (_jsonObject DemoChannels.unparsable) = Some (JString "fast!")
  /\ "fast!" <> EmptyString
  /\ createFromEntityString "fast!" = inl ParseError
  /\ proper_resolution (definition DemoChannels.unparsable) (Number_of_Z 1)
  /\ getDefaultValueWithResolution (Number_of_Z 1) DemoChannels.unparsable
     = (DemoChannels.unparsable, inl ParseError).
Proof.
  assert (Hne : "fast!" <> EmptyString) by discriminate.
  split; [apply reachable_new |]. split; [reflexivity |]. split; [exact Hne |].
  split; [reflexivity |]. split; [exact unparsable_1_is_proper |].
  exact (proj1 (unparsable_default_value DemoChannels.unparsable "fast!" ParseError
                  (Number_of_Z 1) (reachable_new _ _ _) eq_refl Hne eq_refl
                  unparsable_1_is_proper)).
Defined.

Lemma absent_highlight_value_witness :
  reachable Demo.pan
  /\ j_highlightValue (_jsonObject Demo.pan) = None
  /\ 1 <= 1 <= maxResolution (definition Demo.pan)
  /\ (inject_Z 1 == inject_Z 1)%Q
  /\ hasHighlightValue (definition Demo.pan) = false.
Proof.
  assert (Hn : 1 <= 1 <= maxResolution (definition Demo.pan))
    by (vm_compute; split; discriminate).
  split; [apply reachable_new |]. split; [reflexivity |]. split; [exact Hn |].
  split; [reflexivity |].
  exact (proj1 (absent_highlight_value Demo.pan (inject_Z 1) 1 (reachable_new _ _ _)
                  eq_refl Hn (Qeq_refl _))).
Defined.

Lemma dimmer_default_fits :
  fits_resolution (declaredResolution (definition Demo.dimmer))
    (j_defaultValue (_jsonObject Demo.dimmer)).
Proof.
  eexists. split; [reflexivity |]. eexists. split; [reflexivity |].
  split; vm_compute; discriminate.
Defined.

Lemma dimmer_declares_16bit : declaredResolution (definition Demo.dimmer) <= 6.
Proof. vm_compute. discriminate. Defined.

Lemma values_stay_in_range_witness :
  reachable Demo.dimmer
  /\ declaredResolution (definition Demo.dimmer) <= 6
  /\ fits_resolution (declaredResolution (definition Demo.dimmer))
       (j_defaultValue (_jsonObject Demo.dimmer))
  /\ fits_resolution (declaredResolution (definition Demo.dimmer))
       (j_highlightValue (_jsonObject Demo.dimmer))
  /\ 1 <= 2 <= maxResolution (definition Demo.dimmer)
  /\ (inject_Z 2 == inject_Z 2)%Q
  /\ exists v w : Z,
      result (getDefaultValueWithResolution (Finite (inject_Z 2))) Demo.dimmer
      = inr (Some (Number_of_Z v))
      /\ result (getHighlightValueWithResolution (Finite (inject_Z 2))) Demo.dimmer
         = inr (Some (Number_of_Z w))
      /\ 0 <= v <= 256 ^ 2 - 1
      /\ 0 <= w <= 256 ^ 2 - 1.
Proof.
  assert (Hn : 1 <= 2 <= maxResolution (definition Demo.dimmer))
    by (vm_compute; split; discriminate).
  split; [apply reachable_new |]. split; [exact dimmer_declares_16bit |].
  split; [exact dimmer_default_fits |].
  split; [exact I |]. split; [exact Hn |]. split; [reflexivity |].
  exact (values_stay_in_range Demo.dimmer (inject_Z 2) 2 (reachable_new _ _ _)
           dimmer_declares_16bit dimmer_default_fits I Hn (Qeq_refl _)).
Defined.

Lemma coarser_value_is_truncated_witness :
  reachable Demo.dimmer
  /\ 1 <= 1
  /\ 1 + 1 <= maxResolution (definition Demo.dimmer)
  /\ (result (getDefaultValueWithResolution (Number_of_Z (1 + 1))) Demo.dimmer
      = inr (Some (Number_of_Z 32767)) ->
      result (getDefaultValueWithResolution (Number_of_Z 1)) Demo.dimmer
      = inr (Some (Number_of_Z (32767 / 256)))).
Proof.
  assert (H1 : 1 <= 1) by discriminate.
  assert (H2 : 1 + 1 <= maxResolution (definition Demo.dimmer))
    by (vm_compute; discriminate).
  split; [apply reachable_new |]. split; [exact H1 |]. split; [exact H2 |].
  exact (proj1 (coarser_value_is_truncated Demo.dimmer 1 (reachable_new _ _ _) H1 H2)
           32767).
Defined.

Lemma integer_values_are_kept_witness :
  reachable DemoChannels.shutter
  /\ declaredResolution (definition DemoChannels.shutter) <= 1
     <= maxResolution (definition DemoChannels.shutter)
  /\ (j_defaultValue (_jsonObject DemoChannels.shutter) = Some (JInt 10) ->
      result (getDefaultValueWithResolution (Number_of_Z 1)) DemoChannels.shutter
      = inr (Some (Number_of_Z
                     (10 * 256 ^ (1 - declaredResolution (definition DemoChannels.shutter)))))
      /\ (1 = declaredResolution (definition DemoChannels.shutter) ->
          result (getDefaultValueWithResolution (Number_of_Z 1)) DemoChannels.shutter
          = inr (Some (Number_of_Z 10)))).
Proof.
  assert (Hn : declaredResolution (definition DemoChannels.shutter) <= 1
               <= maxResolution (definition DemoChannels.shutter))
    by (vm_compute; split; discriminate).
  split; [apply reachable_new |]. split; [exact Hn |].
  exact (proj1 (integer_values_are_kept DemoChannels.shutter 10 1 (reachable_new _ _ _)
                  Hn)).
Defined.

Lemma type_is_Unknown_witness :
  reachable DemoChannels.bare
  /\ result capabilities DemoChannels.bare = inr []
  /\ exists t, result type DemoChannels.bare = inr t /\ (In t typeNames \/ t = "Unknown").
Proof.
  split; [apply reachable_new |]. split; [reflexivity |].
  destruct (type_is_Unknown DemoChannels.bare [] (reachable_new _ _ _) eq_refl)
    as (t & Ht & Hin & _).
  exists t. auto.
Defined.

Lemma capabilities_follow_the_list_witness :
  reachable Demo.zoom
  /\ j_capability (_jsonObject Demo.zoom) = None
  /\ exists records,
      j_capabilities (_jsonObject Demo.zoom) = Some records
      /\ exists caps,
          result capabilities Demo.zoom = inr caps /\ length caps = length records.
Proof.
  split; [apply reachable_new |]. split; [reflexivity |].
  eexists. split; [reflexivity |].
  destruct (capabilities_follow_the_list Demo.zoom _ (reachable_new _ _ _) eq_refl
              eq_refl) as (caps & Hc & Hl & _).
  exists caps. auto.
Defined.

Lemma missing_capabilities_witness :
  reachable DemoChannels.incomplete
  /\ j_capability (_jsonObject DemoChannels.incomplete) = None
  /\ j_capabilities (_jsonObject DemoChannels.incomplete) = None
  /\ result capabilities DemoChannels.incomplete = inl TypeError.
Proof.
  split; [apply reachable_new |]. split; [reflexivity |]. split; [reflexivity |].
  exact (proj1 (missing_capabilities DemoChannels.incomplete (reachable_new _ _ _)
                  eq_refl eq_refl)).
Defined.

Lemma no_capabilities_witness :
  reachable DemoChannels.bare
  /\ result capabilities DemoChannels.bare = inr []
  /\ result type DemoChannels.bare = inr "Unknown".
Proof.
  split; [apply reachable_new |]. split; [reflexivity |].
  exact (proj1 (no_capabilities DemoChannels.bare (reachable_new _ _ _) eq_refl)).
Defined.

Lemma switching_channels_of_first_capability_witness :
  reachable Demo.zoom
  /\ exists first others,
      result capabilities Demo.zoom = inr (first :: others)
      /\ result switchingChannelAliases Demo.zoom
         = inr (List.map fst (cap_switchChannels first)).
Proof.
  split; [apply reachable_new |].
  eexists. eexists. split; [reflexivity |].
  exact (proj1 (switching_channels_of_first_capability Demo.zoom _ _
                  (reachable_new _ _ _) eq_refl)).
Defined.

Lemma fineChannels_follow_the_aliases_witness :
  reachable Demo.dimmer
  /\ exists fine,
      result fineChannels Demo.dimmer = inr fine
      /\ maxResolution (definition Demo.dimmer) = 1 + Z.of_nat (length fine).
Proof.
  split; [apply reachable_new |].
  destruct (fineChannels_follow_the_aliases Demo.dimmer (reachable_new _ _ _))
    as (fine & Hf & Hm & _).
  exists fine. auto.
Defined.

Lemma color_and_Single_Color_witness :
  reachable DemoChannels.red
  /\ exists caps,
      result capabilities DemoChannels.red = inr caps
      /\ (result type DemoChannels.red = inr "Single Color"
          <-> exists cap, In cap caps /\ cap_type cap = "ColorIntensity").
Proof.
  split; [apply reachable_new |].
  eexists. split; [reflexivity |].
  exact (proj1 (color_and_Single_Color DemoChannels.red _ (reachable_new _ _ _) eq_refl)).
Defined.

Lemma shutter_caps_not_empty (a b : Capability) : [a; b] <> [].
Proof. discriminate. Defined.

Lemma strobe_or_shutter_witness :
  reachable DemoChannels.shutter
  /\ exists caps,
      result capabilities DemoChannels.shutter = inr caps
      /\ caps <> []
      /\ (forall cap, In cap caps -> cap_type cap = "ShutterStrobe")
      /\ (result type DemoChannels.shutter = inr "Strobe"
          \/ result type DemoChannels.shutter = inr "Shutter").
Proof.
  assert (Hall : forall cap,
             In cap [Demo.make {| dmxRange := Some (Number_of_Z 0, Number_of_Z 127);
                                   fields := DemoChannels.shutterFields "Open" |}
                       1 (definition DemoChannels.shutter);
                     Demo.make {| dmxRange := Some (Number_of_Z 128, Number_of_Z 255);
                                   fields := DemoChannels.shutterFields "Strobe" |}
                       1 (definition DemoChannels.shutter)] ->
             cap_type cap = "ShutterStrobe").
  { intros cap [<- | [<- | []]]; reflexivity. }
  split; [apply reachable_new |].
  eexists. split; [reflexivity |]. split; [apply shutter_caps_not_empty |].
  split; [exact Hall |].
  exact (proj1 (strobe_or_shutter DemoChannels.shutter _ (reachable_new _ _ _) eq_refl
                  (shutter_caps_not_empty _ _) Hall)).
Defined.

End MoreInstances.
